(** * blastlca: taxonomy tree, best-hits accumulator and Nettleton test

    A shallow embedding of [scripts/blastlca.py].

    Conventions of the embedding:
    - Python [str] is [string], the text of the files being ASCII; a [dict]
      keyed by strings is a [gmap string _];
      a [Counter], whose iteration order (first occurrence first) decides the
      result of [most_common], is an association list in that order.
    - A Python float (bitscore, fraction, threshold) is the rational [Q] it
      stands for: a finite, non-NaN value.  Comparisons of floats are exact.
      The float arithmetic of [BlastHits.add] and of [Tree.lca_star] rounds
      each result to binary64 ([round64], [fmul], [fsub], [float_of_nat]); a
      rounded result beyond the largest float stands for the infinity of its
      sign.  The count target of [Tree.lca] is the exact product, which is
      what the code computes at the threshold 1.0 on any list shorter than
      [2^53] ([full_target_float]).
      Truthiness of a float is "different from zero".
    - A raised exception is an [outcome] carrying the exception class; a
      [while] loop runs on fuel and reports [OutOfFuel] when it is used up.
    - Mutation of [self] is explicit state passing. *)

From Stdlib Require Import QArith Qabs Qround Qpower SpecFloat.
From Stdlib Require Import Lia Lqa Ascii String.
From stdpp Require Import base option list sorting strings gmap.

Open Scope string_scope.
Open Scope list_scope.
Open Scope nat_scope.

(** ** Exceptions and outcomes *)

Inductive exn : Set :=
| IndexError
| AssertionError
| AttributeError
| ValueError.

Inductive outcome (A : Type) : Type :=
| Ok (a : A)
| Raise (e : exn)
| OutOfFuel.

Arguments Ok {A} a.
Arguments Raise {A} e.
Arguments OutOfFuel {A}.

Definition bind {A B} (m : outcome A) (k : A -> outcome B) : outcome B :=
  match m with
  | Ok a => k a
  | Raise e => Raise e
  | OutOfFuel => OutOfFuel
  end.

Notation "'let!' x ':=' m 'in' k" := (bind m (fun x => k))
  (at level 10, x pattern, m at level 100, k at level 200).

(** ** Floats as rationals *)

(** [a < b] on floats. *)
Definition Qlt_bool (a b : Q) : bool := negb (Qle_bool b a).

(** Truthiness of a float: [bool(x)] is [x != 0]. *)
Definition truthy (x : Q) : bool := negb (Qeq_bool x 0).

(** [float(n)] of a count, before rounding. *)
Definition Q_of_nat (n : nat) : Q := inject_Z (Z.of_nat n).

(** *** Rounding to binary64

    The result of a float operation is the exact result rounded to the
    nearest binary64 value, ties to the even significand.  A binary64 value
    is a multiple [m * 2^e] of a power of two with [m < 2^53] and
    [-1074 <= e <= 971].  The rounding is that of an unbounded exponent
    range; where the code overflows to an infinity, the rounded rational is
    beyond the largest float and stands for that infinity. *)

(** The nearest integer, ties to even. *)
Definition round_half_even (q : Q) : Z :=
  let f := Qfloor q in
  match (q - inject_Z f ?= 1 # 2)%Q with
  | Lt => f
  | Gt => (f + 1)%Z
  | Eq => if Z.even f then f else (f + 1)%Z
  end.

(** The exponent [e] with [2^e <= q < 2^(e+1)], for a positive [q]. *)
Definition binade (q : Q) : Z :=
  let e := (Z.log2 (Qnum q) - Z.log2 (Z.pos (Qden q)))%Z in
  if Qlt_bool q (2 ^ e) then (e - 1)%Z else e.

(** The unit in the last place of the binade of a positive [q]: 53 bits of
    significand, and [2^-1074] in the subnormal range. *)
Definition ulp (q : Q) : Q := (2 ^ Z.max (binade q - 52) (-1074))%Q.

(** The binary64 value nearest to [q]. *)
Definition round64 (q : Q) : Q :=
  if Qeq_bool q 0 then 0%Q
  else
    let a := Qabs q in
    let m := inject_Z (round_half_even (a / ulp a)) in
    if Qlt_bool q 0 then (- (m * ulp a))%Q else (m * ulp a)%Q.

(** The largest binary64 value, [(2^53 - 1) * 2^971]. *)
Definition max_float : Q := inject_Z ((2 ^ 53 - 1) * 2 ^ 971).

(** A result that is an infinity in the code: it compares with every float
    as the infinity of its sign does. *)
Definition is_inf (q : Q) : bool := Qlt_bool max_float (Qabs q).

(** [a * b] on floats. *)
Definition fmul (a b : Q) : Q := round64 (a * b).

(** [a - b] for a float [a] and the result [b] of an operation: an infinite
    [b] gives the opposite infinity. *)
Definition fsub (a b : Q) : Q :=
  if is_inf b then (- b)%Q else round64 (a - b).

(** [float(n)]: the conversion of an [int] operand of a float operation. *)
Definition float_of_nat (n : nat) : Q := round64 (Q_of_nat n).

(** [q] stands for the value [f] of the library's specification of
    binary64: [S754_finite s m e] is [m * 2^e] with the sign [s]. *)
Definition is_float (q : Q) (f : spec_float) : bool :=
  match f with
  | S754_zero _ => Qeq_bool q 0
  | S754_finite s m e =>
      Qeq_bool q ((if s then -1 else 1) * inject_Z (Z.pos m) * 2 ^ e)
  | S754_infinity s => is_inf q && Bool.eqb s (Qlt_bool q 0)
  | S754_nan => false
  end.

(** ** [collections.Counter] *)

Module Counter.

(** A counter in dict order: one entry per distinct item, in order of first
    occurrence. *)
Definition t := list (string * nat).

(** [c[k] += 1] *)
Fixpoint incr (k : string) (c : t) : t :=
  match c with
  | [] => [(k, 1)]
  | (k', n) :: c' =>
      if String.eqb k k' then (k', S n) :: c' else (k', n) :: incr k c'
  end.

(** [Counter(items)] *)
Definition of_list (items : list string) : t :=
  fold_left (fun c k => incr k c) items [].

(** [c[k]], which is 0 for a missing key. *)
Fixpoint get (c : t) (k : string) : nat :=
  match c with
  | [] => 0
  | (k', n) :: c' => if String.eqb k k' then n else get c' k
  end.

(** [max(items, key=count)]: the first entry with the largest count; a later
    entry replaces the current best only when strictly larger. *)
Fixpoint max_entry (best : string * nat) (rest : t) : string * nat :=
  match rest with
  | [] => best
  | x :: rest' =>
      if snd best <? snd x then max_entry x rest' else max_entry best rest'
  end.

(** [c.most_common(1)], that is [heapq.nlargest(1, c.items(), key=count)]. *)
Definition most_common_1 (c : t) : t :=
  match c with
  | [] => []
  | x :: rest => [max_entry x rest]
  end.

(** Stable insertion in decreasing order of count: [x] goes in front of the
    first entry whose count is not larger than its own. *)
Fixpoint insert_desc (x : string * nat) (l : t) : t :=
  match l with
  | [] => [x]
  | y :: l' => if snd x <? snd y then y :: insert_desc x l' else x :: y :: l'
  end.

(** [c.most_common()], that is
    [sorted(c.items(), key=count, reverse=True)]; the sort is stable. *)
Definition most_common (c : t) : t := foldr insert_desc [] c.

End Counter.

(** ** BlastHits *)

Record BlastHits : Type := mkBlastHits {
  names : list string;
  bitscores : list Q
}.

(** [BlastHits()] *)
Definition new_hits : BlastHits := mkBlastHits [] [].

(** [bisect.bisect_left(a, x)]: the library's binary search
    [while lo < hi: mid = (lo+hi)//2; if a[mid] < x: lo = mid+1 else: hi = mid]. *)
Fixpoint bisect_loop (fuel : nat) (a : list Q) (x : Q) (lo hi : nat) : nat :=
  match fuel with
  | O => lo
  | S fuel' =>
      if lo <? hi then
        let mid := (lo + hi) / 2 in
        match a !! mid with
        | Some v =>
            if Qlt_bool v x then bisect_loop fuel' a x (S mid) hi
            else bisect_loop fuel' a x lo mid
        | None => lo
        end
      else lo
  end.

Definition bisect_left (a : list Q) (x : Q) : nat :=
  bisect_loop (length a) a x 0 (length a).

(** [deque.insert(i, x)] *)
Definition insert_at {A} (i : nat) (x : A) (l : list A) : list A :=
  take i l ++ x :: drop i l.

(** The body of [if bitscore:] up to the size test: both deques get the new
    entry at the index found by [bisect_left]. *)
Definition insert_hit (self : BlastHits) (taxonomy : string) (bitscore : Q)
  : BlastHits :=
  let idx := bisect_left (bitscores self) bitscore in
  mkBlastHits (insert_at idx taxonomy (names self))
              (insert_at idx bitscore (bitscores self)).

(** [if len(self.names) > max_hits: popleft() on both deques]. *)
Definition bound_hits (max_hits : nat) (self : BlastHits) : BlastHits :=
  if max_hits <? length (names self)
  then mkBlastHits (tail (names self)) (tail (bitscores self))
  else self.

(** The first [if] of [add]: the score after the top-fraction test, [None]
    when the test resets it.  The floor [self.bitscores[-1] -
    (self.bitscores[-1] * top_fraction)] is computed in floats: the product
    is rounded, then the difference. *)
Definition cutoff (self : BlastHits) (bitscore : Q) (top_fraction : option Q)
  : option Q :=
  match top_fraction, last (bitscores self) with
  | Some tf, Some best =>
      if truthy tf then
        if Qlt_bool bitscore (fsub best (fmul best tf)) then None
        else Some bitscore
      else Some bitscore
  | _, _ => Some bitscore
  end.

(** [BlastHits.add]; [bitscore] is the value of [float(bitscore)], and
    [max_hits] is a count. *)
Definition add (self : BlastHits) (taxonomy : string) (bitscore : Q)
    (max_hits : nat) (top_fraction : option Q) : BlastHits :=
  match cutoff self bitscore top_fraction with
  | Some b =>
      if truthy b then bound_hits max_hits (insert_hit self taxonomy b)
      else self
  | None => self
  end.

(** [BlastHits.best_hit]: [self.names[-1]]. *)
Definition best_hit (self : BlastHits) : outcome string :=
  match last (names self) with
  | Some n => Ok n
  | None => Raise IndexError
  end.

(** [list.index(x)] *)
Fixpoint index_of (x : string) (l : list string) : option nat :=
  match l with
  | [] => None
  | y :: l' => if String.eqb y x then Some 0 else S <$> index_of x l'
  end.

(** [BlastHits.majority]: the value returned and the accumulator afterwards. *)
Definition majority (self : BlastHits) : outcome string * BlastHits :=
  if length (names self) =? size (list_to_set (names self) : gset string)
  then (best_hit self, self)
  else
    match Counter.most_common_1 (Counter.of_list (names self)) with
    | [] => (Raise IndexError, self)
    | (most_common, _) :: _ =>
        let self' := mkBlastHits (reverse (names self)) (bitscores self) in
        match index_of most_common (names self') with
        | None => (Raise ValueError, self')
        | Some idx =>
            match names self' !! idx with
            | Some n => (Ok n, self')
            | None => (Raise IndexError, self')
            end
        end
    end.

(** A run of [add] calls with a fixed [max_hits]. *)
Definition add_all (max_hits : nat) (calls : list (string * Q * option Q))
    (self : BlastHits) : BlastHits :=
  fold_left (fun s '(t, b, tf) => add s t b max_hits tf) calls self.

(** What an index must satisfy to be the leftmost insertion point of [x]. *)
Definition insertion_point (a : list Q) (x : Q) (r : nat) : Prop :=
  r <= length a
  /\ (forall i v, i < r -> a !! i = Some v -> (v < x)%Q)
  /\ (forall i v, r <= i -> a !! i = Some v -> (x <= v)%Q).

(** What every run of [add] calls with a fixed [max_hits] maintains. *)
Definition hits_inv (max_hits : nat) (self : BlastHits) : Prop :=
  StronglySorted Qle (bitscores self)
  /\ length (names self) = length (bitscores self)
  /\ length (names self) <= max_hits.

(** The retained hits as (taxon, bitscore) pairs, lowest bitscore first. *)
Definition hits (self : BlastHits) : list (string * Q) :=
  zip (names self) (bitscores self).

(** The (taxon, bitscore) pair an [add] call brings. *)
Definition call_hit (call : string * Q * option Q) : string * Q :=
  (fst (fst call), snd (fst call)).

(** An [add] call without [top_fraction] whose bitscore is not zero. *)
Definition plain_call (call : string * Q * option Q) : Prop :=
  snd call = None /\ ~ (snd (fst call) == 0)%Q.

(** No hit of [evicted] has a bitscore above that of a retained hit. *)
Definition evicted_below (self : BlastHits) (evicted : list (string * Q))
  : Prop :=
  forall e r, e ∈ evicted -> r ∈ hits self -> (snd e <= snd r)%Q.

(** ** Lines of the taxonomy file *)

(** The ASCII characters [str.strip()] removes. *)
Definition is_space (c : ascii) : bool :=
  let n := nat_of_ascii c in
  ((9 <=? n) && (n <=? 13)) || ((28 <=? n) && (n <=? 32)).

Fixpoint lstrip (s : string) : string :=
  match s with
  | EmptyString => EmptyString
  | String c s' => if is_space c then lstrip s' else s
  end.

Fixpoint rstrip (s : string) : string :=
  match s with
  | EmptyString => EmptyString
  | String c s' =>
      match rstrip s' with
      | EmptyString => if is_space c then EmptyString else String c EmptyString
      | r => String c r
      end
  end.

(** [line.strip()] *)
Definition strip (s : string) : string := rstrip (lstrip s).

(** [s.split(sep)] for a one-character separator: never the empty list. *)
Fixpoint split (sep : ascii) (s : string) : list string :=
  match s with
  | EmptyString => [EmptyString]
  | String c s' =>
      if Ascii.eqb c sep then EmptyString :: split sep s'
      else
        match split sep s' with
        | f :: fs => String c f :: fs
        | [] => [String c EmptyString]
        end
  end.

Definition tab : ascii := ascii_of_nat 9.

(** ** Node and Tree *)

Record Node : Type := mkNode {
  taxonomy : string;
  node_id : string;
  parent_id : string
}.

(** [self.tree], a [defaultdict(dict)] holding a [Node] under each name and
    each id.  Reading a missing key yields the default, an empty [dict], and
    every attribute access on it raises [AttributeError]: a key that maps to
    no node is a miss here, whether the default was stored for it or not. *)
Abbreviation Tree := (gmap string Node).

(** [Tree.add_node] *)
Definition add_node (tree : Tree) (name id parent : string) : Tree :=
  let node := mkNode name id parent in
  <[id := node]> (<[name := node]> tree).

(** [toks[i]] *)
Definition tok (toks : list string) (i : nat) : outcome string :=
  match toks !! i with
  | Some t => Ok t
  | None => Raise IndexError
  end.

(** The text handed to [logging.warning]. *)
Definition warning_text (line : string) : string :=
  "Line [" ++ line ++ "] does not have NAME, ID, PARENTID".

(** The body of the loop of [Tree.__init__] on one line; the state is the
    tree built so far and the warnings logged so far. *)
Definition init_line (st : Tree * list string) (line : string)
  : outcome (Tree * list string) :=
  let toks := split tab (strip line) in
  let! t1 := tok toks 1 in
  let! _ :=
    (if negb (String.eqb t1 "1") then
       let! t2 := tok toks 2 in
       if negb (String.eqb t2 "1") then
         if String.eqb t1 t2 then Raise AssertionError else Ok tt
       else Ok tt
     else Ok tt) in
  if negb (length toks =? 3) then
    Ok (fst st, snd st ++ [warning_text (strip line)])
  else
    let! t0 := tok toks 0 in
    let! t1 := tok toks 1 in
    let! t2 := tok toks 2 in
    Ok (add_node (fst st) t0 t1 t2, snd st).

Fixpoint init_lines (st : Tree * list string) (lines : list string)
  : outcome (Tree * list string) :=
  match lines with
  | [] => Ok st
  | line :: lines' =>
      let! st' := init_line st line in init_lines st' lines'
  end.

(** [Tree.__init__] on the lines of the file: the tree and the warnings. *)
Definition Tree_init (lines : list string) : outcome (Tree * list string) :=
  init_lines (∅, []) lines.

(** ** Walks to the root *)

(** The [while] loop of [taxonomic_lineage]. *)
Fixpoint lineage_loop (fuel : nat) (tree : Tree) (taxonomy_id : string)
    (lineage : list string) : outcome (list string) :=
  match fuel with
  | O => OutOfFuel
  | S fuel' =>
      if String.eqb taxonomy_id "1" then Ok lineage
      else
        match tree !! taxonomy_id with
        | Some node =>
            lineage_loop fuel' tree (parent_id node) (parent_id node :: lineage)
        | None => Raise AttributeError
        end
  end.

(** [Tree.taxonomic_lineage] *)
Definition taxonomic_lineage (fuel : nat) (tree : Tree) (taxon : string)
  : outcome (list string) :=
  match tree !! taxon with
  | Some node => lineage_loop fuel tree (node_id node) [node_id node]
  | None => Raise AttributeError
  end.

(** The [while] loop of [filter_taxonomy_list]. *)
Fixpoint depth_loop (fuel : nat) (tree : Tree) (tree_depth : nat)
    (current_taxonomy : string) : outcome nat :=
  match fuel with
  | O => OutOfFuel
  | S fuel' =>
      if String.eqb current_taxonomy "1" then Ok tree_depth
      else
        match tree !! current_taxonomy with
        | Some node => depth_loop fuel' tree (S tree_depth) (parent_id node)
        | None => Raise AttributeError
        end
  end.

(** [Tree.filter_taxonomy_list].  The [try] around the first lookup catches
    [TypeError] only, so the [AttributeError] of a missing taxon passes
    through it. *)
Fixpoint filter_taxonomy_list (fuel : nat) (tree : Tree)
    (taxonomy_list : list string) (min_tree_depth : Z)
  : outcome (list string) :=
  match taxonomy_list with
  | [] => Ok []
  | taxon :: rest =>
      match tree !! taxon with
      | None => Raise AttributeError
      | Some node =>
          let! tree_depth := depth_loop fuel tree 0 (node_id node) in
          let! filtered := filter_taxonomy_list fuel tree rest min_tree_depth in
          if (Z.of_nat tree_depth <? min_tree_depth)%Z then Ok filtered
          else Ok (taxon :: filtered)
      end
  end.

(** ** LCA *)

(** The first statement of [lca]: the threshold the count target is computed
    from. *)
Definition clamp_threshold (threshold : Q) : Q :=
  if Qlt_bool 1 threshold then 1%Q
  else if Qlt_bool threshold (1 # 100) then (1 # 10)%Q
  else threshold.

(** The [while] loop of [lca]: the counts afterwards and the name returned
    from inside the loop, if any. *)
Fixpoint lca_walk (fuel : nat) (tree : Tree) (count_target : Q)
    (count_taxonomies : gmap string nat) (current_taxonomy : string)
  : outcome (gmap string nat * option string) :=
  match fuel with
  | O => OutOfFuel
  | S fuel' =>
      if String.eqb current_taxonomy "1" then Ok (count_taxonomies, None)
      else
        let c := S (default 0 (count_taxonomies !! current_taxonomy)) in
        let counts := <[current_taxonomy := c]> count_taxonomies in
        match tree !! current_taxonomy with
        | None => Raise AttributeError
        | Some node =>
            if Qle_bool count_target (Q_of_nat c)
            then Ok (counts, Some (taxonomy node))
            else lca_walk fuel' tree count_target counts (parent_id node)
        end
  end.

(** The [for] loop of [lca]; a taxon missing from the tree is skipped. *)
Fixpoint lca_loop (fuel : nat) (tree : Tree) (count_target : Q)
    (count_taxonomies : gmap string nat) (taxonomies : list string)
  : outcome string :=
  match taxonomies with
  | [] => Ok "root"
  | taxon :: rest =>
      match tree !! taxon with
      | None => lca_loop fuel tree count_target count_taxonomies rest
      | Some node =>
          let! r := lca_walk fuel tree count_target count_taxonomies
                      (node_id node) in
          match r with
          | (_, Some name) => Ok name
          | (counts, None) => lca_loop fuel tree count_target counts rest
          end
      end
  end.

(** [Tree.lca] *)
Definition lca (fuel : nat) (tree : Tree) (taxonomies : list string)
    (threshold : Q) : outcome string :=
  let threshold := clamp_threshold threshold in
  let count_target := (Q_of_nat (length taxonomies) * threshold)%Q in
  lca_loop fuel tree count_target ∅ taxonomies.

(** ** Well-formed walks *)

(** [path tree id p]: following [parent_id] from [id] reaches the root "1",
    and [p] lists the ids met on the way, [id] first and the root left out:
    the ids the loops of [lca], [filter_taxonomy_list] and
    [taxonomic_lineage] go through. *)
Inductive path (tree : Tree) : string -> list string -> Prop :=
| path_root : path tree "1" []
| path_step id node p :
    id <> "1" ->
    tree !! id = Some node ->
    path tree (parent_id node) p ->
    path tree id (id :: p).

(** [lineage_of tree taxon lin]: [taxon] is in the tree, its walk reaches the
    root, and [lin] is the lineage, root first. *)
Definition lineage_of (tree : Tree) (taxon : string) (lin : list string) : Prop :=
  exists node p,
    tree !! taxon = Some node /\ path tree (node_id node) p
    /\ lin = "1" :: reverse p.

(** An id found in the lineage of every taxon of the list. *)
Definition common_ancestor (tree : Tree) (taxonomies : list string) (y : string)
  : Prop :=
  forall taxon lin, taxon ∈ taxonomies -> lineage_of tree taxon lin -> y ∈ lin.

(** [count_taxonomies[x]] with the default of [defaultdict(int)]. *)
Definition count_of (counts : gmap string nat) (x : string) : nat :=
  default 0 (counts !! x).

(** [count_taxonomies[x] += 1] *)
Definition bump (counts : gmap string nat) (x : string) : gmap string nat :=
  <[x := S (count_of counts x)]> counts.

(** The test [count_taxonomies[x] >= count_target] right after the increment. *)
Definition reaches (count_target : Q) (counts : gmap string nat) (x : string)
  : bool :=
  Qle_bool count_target (Q_of_nat (S (count_of counts x))).

(** In how many of the walks [ps] the id [y] lies. *)
Definition occurrences (y : string) (ps : list (list string)) : nat :=
  length (filter (fun p => y ∈ p) ps).

(** [walks_of tree taxa ps]: [ps] lists, taxon by taxon, the walk of each
    taxon of [taxa] to the root. *)
Definition walks_of (tree : Tree) (taxa : list string) (ps : list (list string))
  : Prop :=
  Forall2 (fun taxon p =>
             exists node, tree !! taxon = Some node /\ path tree (node_id node) p)
          taxa ps.

(** What [lca] at threshold 1.0 returns, in terms of the walks [ps] of its
    taxa: "root" when no id lies on all of them, and otherwise the name stored
    for an id [x] that lies on all of them and whose own walk holds every id
    that does. *)
Definition deepest_on_all (tree : Tree) (ps : list (list string)) (r : string)
  : Prop :=
  (r = "root" /\ forall y, ~ (forall p, p ∈ ps -> y ∈ p))
  \/ exists x node b,
       tree !! x = Some node /\ r = taxonomy node /\ path tree x (x :: b)
       /\ (forall p, p ∈ ps -> x ∈ p)
       /\ forall y, (forall p, p ∈ ps -> y ∈ p) -> y ∈ x :: b.

(** The count target of [lca] for [n] taxa at threshold 1.0. *)
Definition full_target (n : nat) : Q := (Q_of_nat n * clamp_threshold 1)%Q.

(** The taxa whose walk, given next to them, has at least [min_tree_depth]
    steps. *)
Fixpoint deep_enough (min_tree_depth : Z) (taxa : list string)
    (ps : list (list string)) : list string :=
  match taxa, ps with
  | taxon :: taxa', p :: ps' =>
      if (Z.of_nat (length p) <? min_tree_depth)%Z
      then deep_enough min_tree_depth taxa' ps'
      else taxon :: deep_enough min_tree_depth taxa' ps'
  | _, _ => []
  end.

(** [climbs tree id x]: following [parent_id] from [id], through nodes of the
    tree, meets [x]. *)
Inductive climbs (tree : Tree) : string -> string -> Prop :=
| climbs_here id : climbs tree id id
| climbs_up id node x :
    tree !! id = Some node ->
    climbs tree (parent_id node) x ->
    climbs tree id x.

(** ** Nettleton test *)

(** The statistic [t], kept symbolic: its value is a float computed with
    [log]. *)
Inductive statistic : Type :=
| T_both (max_count key_count : nat)
  (** [2 * (max_count * log(2 * max_count / (max_count + key_count))
           + key_count * log(2 * key_count / (max_count + key_count)))] *)
| T_key_only (key_count : nat)
  (** the [except ValueError] branch, taken when [max_count] is 0:
      [2 * (key_count * log(2 * key_count / (0 + key_count)))] *).

(** What [nettleton_pvalue] returns: the integer 1, or
    [erfc(sqrt(t / 2))]. *)
Inductive pvalue : Type :=
| P_one
| P_erfc_sqrt_half (t : statistic).

(** The [max_count] of [nettleton_pvalue]: the count of the second entry of
    [most_common()] when the key is the first one (0 when there is no second
    entry), and the count of the first entry otherwise. *)
Definition runner_up (item_counts : Counter.t) (key : string) : outcome nat :=
  match Counter.most_common item_counts with
  | [] => Raise IndexError
  | (k0, c0) :: rest =>
      if String.eqb k0 key then
        match rest with
        | (_, c1) :: _ => Ok c1
        | [] => Ok 0
        end
      else Ok c0
  end.

(** [nettleton_pvalue] *)
Definition nettleton_pvalue (items : list string) (key : string)
  : outcome pvalue :=
  if negb (bool_decide (key ∈ items)) then Raise AssertionError
  else if length items =? 1 then Ok P_one
  else
    let item_counts := Counter.of_list items in
    let! max_count := runner_up item_counts key in
    if Counter.get item_counts key <=? max_count then Ok P_one
    else if max_count =? 0
         then Ok (P_erfc_sqrt_half (T_key_only (Counter.get item_counts key)))
         else Ok (P_erfc_sqrt_half
                    (T_both max_count (Counter.get item_counts key))).

(** Entries in decreasing order of count. *)
Definition count_ge (a b : string * nat) : Prop := snd b <= snd a.

(** [rival_max count key m]: [m] is the largest count of an item other than
    [key], and 0 when there is no other item. *)
Definition rival_max (count : string -> nat) (key : string) (m : nat) : Prop :=
  (forall k, k <> key -> count k <= m)
  /\ (m = 0 \/ exists k, k <> key /\ count k = m).


(** ** Consensus above the taxa *)

(** [sorted(d.items(), key=lambda t: t[1], reverse=True)]: the stable sort in
    decreasing order of the second component, as in [Counter.most_common]. *)
Definition sorted_desc (items : list (string * nat)) : list (string * nat) :=
  foldr Counter.insert_desc [] items.

(** The body of the inner loop of [index_of_list_items]: [indexes[item]]
    becomes [i] unless it holds an index that is not smaller; a new item goes
    to the end of the dict. *)
Fixpoint record_index (item : string) (i : nat) (indexes : list (string * nat))
  : list (string * nat) :=
  match indexes with
  | [] => [(item, i)]
  | (k, n) :: rest =>
      if String.eqb k item then (k, if n <? i then i else n) :: rest
      else (k, n) :: record_index item i rest
  end.

(** [for i, item in enumerate(l)], from the index [i] on. *)
Fixpoint record_list (i : nat) (l : list string) (indexes : list (string * nat))
  : list (string * nat) :=
  match l with
  | [] => indexes
  | item :: l' => record_list (S i) l' (record_index item i indexes)
  end.

(** [index_of_list_items] *)
Definition index_of_list_items (lists : list (list string))
  : list (string * nat) :=
  sorted_desc (fold_left (fun indexes l => record_list 0 l indexes) lists []).

(** [d[k] = v] on a dict in insertion order: a key that is there keeps its
    place. *)
Fixpoint dict_set {V} (k : string) (v : V) (d : list (string * V))
  : list (string * V) :=
  match d with
  | [] => [(k, v)]
  | (k', v') :: d' =>
      if String.eqb k' k then (k', v) :: d' else (k', v') :: dict_set k v d'
  end.

(** [d.get(k)] *)
Fixpoint dict_get {V} (d : list (string * V)) (k : string) : option V :=
  match d with
  | [] => None
  | (k', v) :: d' => if String.eqb k' k then Some v else dict_get d' k
  end.

(** [highest_index seen indexes]: [indexes] holds every item that [seen]
    relates to an index, with the largest such index. *)
Definition highest_index (seen : string -> nat -> Prop)
    (indexes : list (string * nat)) : Prop :=
  forall item,
    match dict_get indexes item with
    | Some i => seen item i /\ forall j, seen item j -> j <= i
    | None => forall j, ~ seen item j
    end.

(** The first loop of [lca_majority]: the counts of the ids of the lineages
    and the lineage of each taxon under its id. *)
Fixpoint lca_majority_collect (fuel : nat) (tree : Tree)
    (taxonomy_list : list string) (lineage_counts : Counter.t)
    (lineages : list (string * list string))
  : outcome (Counter.t * list (string * list string)) :=
  match taxonomy_list with
  | [] => Ok (lineage_counts, lineages)
  | taxon :: rest =>
      let! lineage := taxonomic_lineage fuel tree taxon in
      let lineage_counts :=
        fold_left (fun c k => Counter.incr k c) lineage lineage_counts in
      match tree !! taxon with
      | None => Raise AttributeError
      | Some node =>
          lca_majority_collect fuel tree rest lineage_counts
            (dict_set (node_id node) lineage lineages)
      end
  end.

(** The second loop of [lca_majority]: the first id whose count is above the
    cutoff. *)
Fixpoint first_above (majority_cutoff : Q) (lineage_counts : Counter.t)
    (ids : list string) : option string :=
  match ids with
  | [] => None
  | id :: rest =>
      if Qlt_bool majority_cutoff (Q_of_nat (Counter.get lineage_counts id))
      then Some id
      else first_above majority_cutoff lineage_counts rest
  end.

(** [Tree.lca_majority] *)
Definition lca_majority (fuel : nat) (tree : Tree)
    (taxonomy_list : list string) (majority_cutoff : Q)
  : outcome (string * list (string * list string)) :=
  let! collected := lca_majority_collect fuel tree taxonomy_list [] [] in
  let lineage_indexes := index_of_list_items (snd <$> snd collected) in
  match first_above majority_cutoff (fst collected) (fst <$> lineage_indexes) with
  | Some taxonomy => Ok (taxonomy, snd collected)
  | None => Ok ("1", snd collected)
  end.

(** The [KeyError] of [lineages[taxonomy_id]], with the key. *)
Inductive key_error : Type :=
| KeyError (key : string).

(** [Tree.counts_to_majority_list]; the [KeyError] of a lineage that is not
    there is returned on the left. *)
Fixpoint counts_to_majority_list (tree : Tree) (taxonomy_counts : Counter.t)
    (lineages : list (string * list string)) (majority_id : string)
  : outcome (key_error + list string) :=
  match taxonomy_counts with
  | [] => Ok (inr [])
  | (taxon, taxonomy_count) :: rest =>
      match tree !! taxon with
      | None => Raise AttributeError
      | Some node =>
          match dict_get lineages (node_id node) with
          | None => Ok (inl (KeyError (node_id node)))
          | Some lineage =>
              let taxonomy_id :=
                if bool_decide (majority_id ∈ lineage) then majority_id
                else node_id node in
              let! more :=
                counts_to_majority_list tree rest lineages majority_id in
              match more with
              | inl e => Ok (inl e)
              | inr aggregate =>
                  Ok (inr (replicate taxonomy_count taxonomy_id ++ aggregate))
              end
          end
      end
  end.

(** [Tree.lca_star]: the pair of ["taxonomy"] and ["pvalue"].
    [majority_cutoff] is the float product of the length and the threshold;
    it is only compared with counts, which an infinite product and the
    rational that stands for it decide alike. *)
Definition lca_star (fuel : nat) (tree : Tree) (taxonomy_list : list string)
    (min_tree_depth : Z) (majority_threshold : Q)
  : outcome (key_error + string * pvalue) :=
  let! taxonomy_list :=
    filter_taxonomy_list fuel tree taxonomy_list min_tree_depth in
  match taxonomy_list with
  | [] => Ok (inr ("root", P_one))
  | _ :: _ =>
      let taxonomy_counts := Counter.of_list taxonomy_list in
      let majority_cutoff :=
        fmul (float_of_nat (length taxonomy_list)) majority_threshold in
      match Counter.most_common taxonomy_counts with
      | [] => Raise IndexError
      | (majority, top_count) :: _ =>
          if Qlt_bool majority_cutoff (Q_of_nat top_count) then
            let! p := nettleton_pvalue taxonomy_list majority in
            Ok (inr (majority, p))
          else
            let! found :=
              lca_majority fuel tree taxonomy_list majority_cutoff in
            let! aggregate_counts :=
              counts_to_majority_list tree taxonomy_counts (snd found)
                (fst found) in
            match aggregate_counts with
            | inl e => Ok (inl e)
            | inr aggregate_counts =>
                let! p := nettleton_pvalue aggregate_counts (fst found) in
                Ok (inr (fst found, p))
            end
      end
  end.

(** ** process_orfs *)



(** ** [parse_ncbi_map] *)

(** The body of the loop of [parse_ncbi_map] on one line: [m[toks[0]] =
    toks[1]], which reads [toks[1]] first. *)
Definition ncbi_line (m : gmap string string) (line : string)
  : outcome (gmap string string) :=
  let toks := split tab (strip line) in
  let! t1 := tok toks 1 in
  let! t0 := tok toks 0 in
  Ok (<[t0 := t1]> m).

Fixpoint ncbi_lines (m : gmap string string) (lines : list string)
  : outcome (gmap string string) :=
  match lines with
  | [] => Ok m
  | line :: lines' => let! m' := ncbi_line m line in ncbi_lines m' lines'
  end.

(** [parse_ncbi_map] on the lines of the file. *)
Definition parse_ncbi_map (lines : list string) : outcome (gmap string string) :=
  ncbi_lines ∅ lines.

(** ** A small tree *)

(** A line of the file from its fields. *)
Definition tsv (fields : list string) : string :=
  String.concat (String tab EmptyString) fields.

Definition example_lines : list string :=
  [tsv ["root"; "1"; "1"];
   tsv ["Bacteria"; "2"; "1"];
   tsv ["Proteobacteria"; "1224"; "2"];
   tsv ["Gammaproteobacteria"; "1236"; "1224"];
   tsv ["Alphaproteobacteria"; "28211"; "1224"];
   tsv ["Archaea"; "2157"; "1"]].

Definition example_tree : Tree :=
  match Tree_init example_lines with
  | Ok (tree, _) => tree
  | _ => ∅
  end.

(** * Properties *)

(** ** Floats *)

Lemma Qlt_bool_iff a b : Qlt_bool a b = true <-> (a < b)%Q.
Proof.
  unfold Qlt_bool. rewrite negb_true_iff, <- not_true_iff_false, Qle_bool_iff.
  split; [apply Qnot_le_lt | apply Qlt_not_le].
Qed.

Lemma Qlt_bool_false_iff a b : Qlt_bool a b = false <-> (b <= a)%Q.
Proof.
  unfold Qlt_bool. rewrite negb_false_iff. apply Qle_bool_iff.
Qed.

Lemma truthy_false_iff x : truthy x = false <-> (x == 0)%Q.
Proof. unfold truthy. rewrite negb_false_iff. apply Qeq_bool_iff. Qed.

Lemma truthy_true_iff x : truthy x = true <-> ~ (x == 0)%Q.
Proof.
  unfold truthy. rewrite negb_true_iff, <- not_true_iff_false, Qeq_bool_iff.
  reflexivity.
Qed.

(** ** Rounding to binary64 *)

Lemma Qpower2_nonneg (k : Z) :
  (0 <= k)%Z -> (2 ^ k == inject_Z (2 ^ k))%Q.
Proof. intros Hk. rewrite (Zpower_Qpower 2 k Hk). reflexivity. Qed.

Lemma Qpower2_pos (k : Z) : (0 < 2 ^ k)%Q.
Proof. apply Qpower_0_lt. reflexivity. Qed.

Lemma Qpower2_succ (k : Z) : (2 ^ (k + 1) == 2 * 2 ^ k)%Q.
Proof. rewrite Qpower_plus by discriminate. ring. Qed.

Lemma Qpower2_le (j k : Z) : (j <= k)%Z -> (2 ^ j <= 2 ^ k)%Q.
Proof.
  intros Hjk. replace k with (j + (k - j))%Z by lia.
  rewrite Qpower_plus by discriminate.
  rewrite (Qpower2_nonneg (k - j)) by lia.
  assert (1 <= inject_Z (2 ^ (k - j)))%Q as H1.
  { change 1%Q with (inject_Z 1). rewrite <- Zle_Qle.
    pose proof (Z.pow_pos_nonneg 2 (k - j)). lia. }
  pose proof (Qpower2_pos j). nra.
Qed.

Lemma Z_log2_bounds (n : Z) :
  (0 < n)%Z ->
  (2 ^ Z.log2 n <= inject_Z n)%Q /\ (inject_Z n < 2 * 2 ^ Z.log2 n)%Q.
Proof.
  intros Hn. destruct (Z.log2_spec n Hn) as [Hlo Hhi].
  pose proof (Z.log2_nonneg n) as Hnn.
  rewrite (Qpower2_nonneg _ Hnn). split.
  - rewrite <- Zle_Qle. exact Hlo.
  - change 2%Q with (inject_Z 2) at 1. rewrite <- inject_Z_mult, <- Zlt_Qlt.
    rewrite Z.pow_succ_r in Hhi by exact Hnn. exact Hhi.
Qed.

(** [binade q] is the exponent of the power of two at or below a positive
    [q], whatever the numerator and denominator [q] is written with. *)
Lemma binade_spec (q : Q) :
  (0 < q)%Q -> (2 ^ binade q <= q)%Q /\ (q < 2 ^ (binade q + 1))%Q.
Proof.
  intros Hq. destruct q as [n d].
  assert (0 < n)%Z as Hn.
  { unfold Qlt in Hq. cbn in Hq. lia. }
  unfold binade. cbn [Qnum Qden].
  destruct (Z_log2_bounds n Hn) as [Hnlo Hnhi].
  destruct (Z_log2_bounds (Z.pos d) eq_refl) as [Hdlo Hdhi].
  set (ln := Z.log2 n) in *. set (ld := Z.log2 (Z.pos d)) in *.
  pose proof (Qpower2_pos ln) as Hpn. pose proof (Qpower2_pos ld) as Hpd.
  assert (n # d == inject_Z n / inject_Z (Z.pos d))%Q as Hnd
    by apply Qmake_Qdiv.
  assert (0 < inject_Z (Z.pos d))%Q as Hdpos by reflexivity.
  assert (2 ^ (ln - ld) == 2 ^ ln / 2 ^ ld)%Q as Hsub
    by (apply Qpower_minus; discriminate).
  assert ((n # d) * inject_Z (Z.pos d) == inject_Z n)%Q as Hmul.
  { rewrite Hnd. field. intros H. rewrite H in Hdpos. discriminate. }
  assert ((2 ^ (ln - ld)) * 2 ^ ld == 2 ^ ln)%Q as Hmul'.
  { rewrite Hsub. field. intros H. rewrite H in Hpd. discriminate. }
  set (q := (n # d)%Q) in *. set (D := inject_Z (Z.pos d)) in *.
  set (N := inject_Z n) in *.
  set (A := (2 ^ ln)%Q) in *. set (B := (2 ^ ld)%Q) in *.
  set (E := (2 ^ (ln - ld))%Q) in *.
  destruct (Qlt_bool q E) eqn:Hcmp.
  - apply Qlt_bool_iff in Hcmp.
    replace (ln - ld - 1 + 1)%Z with (ln - ld)%Z by lia. fold E.
    split; [|exact Hcmp].
    assert (2 * 2 ^ (ln - ld - 1) == E)%Q as Hhalf.
    { unfold E. rewrite <- Qpower2_succ.
      replace (ln - ld - 1 + 1)%Z with (ln - ld)%Z by lia. reflexivity. }
    set (E' := (2 ^ (ln - ld - 1))%Q) in *.
    apply Qnot_lt_le. intros Hlt.
    assert (q * D < E' * D)%Q by nra.
    assert (E' * D < E' * (2 * B))%Q.
    { assert (0 < E')%Q by (unfold E'; apply Qpower2_pos). nra. }
    nra.
  - assert (~ (q < E)%Q) as Hge.
    { intros H. apply Qlt_bool_iff in H. congruence. }
    apply Qnot_lt_le in Hge. split; [exact Hge|].
    rewrite Qpower2_succ. fold E.
    apply Qnot_le_lt. intros Hle.
    assert (2 * E * D <= q * D)%Q by nra.
    assert (0 < E)%Q by (unfold E; apply Qpower2_pos).
    nra.
Qed.

Lemma binade_unique (q : Q) (e : Z) :
  (2 ^ e <= q)%Q -> (q < 2 ^ (e + 1))%Q -> binade q = e.
Proof.
  intros Hlo Hhi.
  assert (0 < q)%Q as Hq.
  { eapply Qlt_le_trans; [apply (Qpower2_pos e) | exact Hlo]. }
  destruct (binade_spec q Hq) as [Hlo' Hhi'].
  destruct (Z.lt_trichotomy (binade q) e) as [Hlt|[Heq|Hgt]];
    [exfalso | exact Heq | exfalso].
  - pose proof (Qpower2_le (binade q + 1) e ltac:(lia)).
    apply (Qlt_irrefl q). eapply Qlt_le_trans; [exact Hhi'|].
    eapply Qle_trans; eassumption.
  - pose proof (Qpower2_le (e + 1) (binade q) ltac:(lia)).
    apply (Qlt_irrefl q). eapply Qlt_le_trans; [exact Hhi|].
    eapply Qle_trans; eassumption.
Qed.

Lemma binade_comp (q q' : Q) :
  (0 < q)%Q -> (q == q')%Q -> binade q = binade q'.
Proof.
  intros Hq Heq. symmetry.
  destruct (binade_spec q Hq) as [Hlo Hhi].
  apply binade_unique; rewrite <- Heq; assumption.
Qed.

Lemma round_half_even_comp (q q' : Q) :
  (q == q')%Q -> round_half_even q = round_half_even q'.
Proof.
  intros Heq. unfold round_half_even.
  rewrite (Qfloor_comp _ _ Heq).
  assert (q - inject_Z (Qfloor q') == q' - inject_Z (Qfloor q'))%Q as Hfrac
    by (rewrite Heq; reflexivity).
  rewrite (Qcompare_comp _ _ Hfrac _ _ (Qeq_refl (1 # 2))). reflexivity.
Qed.

Lemma Qeq_bool_comp_l (q q' r : Q) :
  (q == q')%Q -> Qeq_bool q r = Qeq_bool q' r.
Proof.
  intros Heq. destruct (Qeq_bool q' r) eqn:H'.
  - apply Qeq_bool_iff. apply Qeq_bool_iff in H'. rewrite Heq. exact H'.
  - apply not_true_iff_false. intros H. apply Qeq_bool_iff in H.
    apply not_true_iff_false in H'. apply H'. apply Qeq_bool_iff.
    rewrite <- Heq. exact H.
Qed.

Lemma Qlt_bool_comp_l (q q' r : Q) :
  (q == q')%Q -> Qlt_bool q r = Qlt_bool q' r.
Proof.
  intros Heq. destruct (Qlt_bool q' r) eqn:H'.
  - apply Qlt_bool_iff. apply Qlt_bool_iff in H'. rewrite Heq. exact H'.
  - apply not_true_iff_false. intros H. apply Qlt_bool_iff in H.
    apply not_true_iff_false in H'. apply H'. apply Qlt_bool_iff.
    rewrite <- Heq. exact H.
Qed.

Lemma Qabs_pos_nonzero (q : Q) : ~ (q == 0)%Q -> (0 < Qabs q)%Q.
Proof.
  intros Hnz. pose proof (Qabs_nonneg q) as Hnn.
  apply Qle_lteq in Hnn as [Hlt|Heq]; [exact Hlt|].
  exfalso. apply Hnz.
  pose proof (Qle_Qabs q) as H1. pose proof (Qle_Qabs (- q)) as H2.
  rewrite Qabs_opp in H2. apply Qle_antisym; lra.
Qed.

(** The rounded value depends on the value of the rational only, not on the
    numerator and denominator it is written with. *)
#[export] Instance round64_comp : Proper (Qeq ==> Qeq) round64.
Proof.
  intros q q' Heq. unfold round64.
  rewrite (Qeq_bool_comp_l _ _ 0 Heq), (Qlt_bool_comp_l _ _ 0 Heq).
  destruct (Qeq_bool q' 0) eqn:Hz; [reflexivity|].
  assert (~ (q == 0)%Q) as Hnz.
  { intros H. rewrite Heq in H. apply Qeq_bool_iff in H. congruence. }
  assert (Qabs q == Qabs q')%Q as Habs by (rewrite Heq; reflexivity).
  unfold ulp.
  rewrite (binade_comp _ _ (Qabs_pos_nonzero q Hnz) Habs).
  set (u := (2 ^ Z.max (binade (Qabs q') - 52) (-1074))%Q).
  assert (Qabs q / u == Qabs q' / u)%Q as Hdiv by (rewrite Habs; reflexivity).
  rewrite (round_half_even_comp _ _ Hdiv). reflexivity.
Qed.

#[export] Instance fmul_comp : Proper (Qeq ==> Qeq ==> Qeq) fmul.
Proof. intros a a' Ha b b' Hb. unfold fmul. rewrite Ha, Hb. reflexivity. Qed.

Lemma is_inf_comp (q q' : Q) : (q == q')%Q -> is_inf q = is_inf q'.
Proof.
  intros Heq. unfold is_inf.
  assert (Qabs q == Qabs q')%Q as Habs by (rewrite Heq; reflexivity).
  destruct (Qlt_bool max_float (Qabs q')) eqn:H'.
  - apply Qlt_bool_iff. apply Qlt_bool_iff in H'. rewrite Habs. exact H'.
  - apply Qlt_bool_false_iff. apply Qlt_bool_false_iff in H'.
    rewrite Habs. exact H'.
Qed.

#[export] Instance fsub_comp : Proper (Qeq ==> Qeq ==> Qeq) fsub.
Proof.
  intros a a' Ha b b' Hb. unfold fsub. rewrite (is_inf_comp _ _ Hb).
  destruct (is_inf b'); rewrite ?Ha, Hb; reflexivity.
Qed.

Lemma round_half_even_integer (q : Q) (m : Z) :
  (q == inject_Z m)%Q -> round_half_even q = m.
Proof.
  intros Heq. rewrite (round_half_even_comp _ _ Heq).
  unfold round_half_even. rewrite Qfloor_Z.
  assert (inject_Z m - inject_Z m == 0)%Q as H0 by ring.
  rewrite (Qcompare_comp _ _ H0 _ _ (Qeq_refl (1 # 2))). reflexivity.
Qed.

(** [round_half_even] is within one half of its argument. *)
Lemma round_half_even_nearest (q : Q) :
  (Qabs (inject_Z (round_half_even q) - q) <= 1 # 2)%Q.
Proof.
  unfold round_half_even.
  pose proof (Qfloor_le q) as Hlo. pose proof (Qlt_floor q) as Hhi.
  rewrite inject_Z_plus in Hhi. change (inject_Z 1) with 1%Q in Hhi.
  set (f := Qfloor q) in *.
  assert (forall x, -(1 # 2) <= x -> x <= 1 # 2 -> Qabs x <= 1 # 2)%Q as Habs.
  { intros x H1 H2. apply Qabs_case; intros; lra. }
  destruct (q - inject_Z f ?= 1 # 2)%Q eqn:Hc.
  - apply Qeq_alt in Hc. destruct (Z.even f); [apply Habs; lra|].
    rewrite inject_Z_plus. change (inject_Z 1) with 1%Q. apply Habs; lra.
  - apply Qlt_alt in Hc. apply Habs; lra.
  - apply Qgt_alt in Hc. rewrite inject_Z_plus. change (inject_Z 1) with 1%Q.
    apply Habs; lra.
Qed.

Lemma ulp_pos (q : Q) : (0 < ulp q)%Q.
Proof. apply Qpower2_pos. Qed.

(** [round64 q] is a multiple of the unit in the last place of [q] that is
    within half a unit of [q]. *)
Lemma round64_nearest (q : Q) :
  (Qabs (round64 q - q) <= (1 # 2) * ulp (Qabs q))%Q.
Proof.
  unfold round64. pose proof (ulp_pos (Qabs q)) as Hu.
  destruct (Qeq_bool q 0) eqn:Hz.
  - apply Qeq_bool_iff in Hz.
    assert (Qabs (0 - q) == 0)%Q as -> by (rewrite Hz; reflexivity).
    lra.
  - set (u := ulp (Qabs q)) in *.
    pose proof (round_half_even_nearest (Qabs q / u)) as Hn.
    set (m := inject_Z (round_half_even (Qabs q / u))) in *.
    assert (~ (u == 0)%Q) as Hunz by lra.
    assert (Qabs (m * u - Qabs q) <= (1 # 2) * u)%Q as Hmu.
    { assert (m * u - Qabs q == (m - Qabs q / u) * u)%Q as ->
        by (field; exact Hunz).
      rewrite Qabs_Qmult, (Qabs_pos u) by lra.
      apply Qmult_le_compat_r; [exact Hn | lra]. }
    destruct (Qlt_bool q 0) eqn:Hneg.
    + apply Qlt_bool_iff in Hneg.
      rewrite (Qabs_neg q) in Hmu by lra.
      assert (- (m * u) - q == - (m * u - - q))%Q as -> by ring.
      rewrite Qabs_opp. exact Hmu.
    + assert (0 <= q)%Q as Hpos.
      { apply Qnot_lt_le. intros H. apply Qlt_bool_iff in H. congruence. }
      rewrite (Qabs_pos q) in Hmu by exact Hpos. exact Hmu.
Qed.

(** An integer below [2^53] is a binary64 value: rounding leaves it. *)
Lemma round64_integer (z : Z) :
  (0 < z < 2 ^ 53)%Z -> (round64 (inject_Z z) == inject_Z z)%Q.
Proof.
  intros [Hpos Hlt].
  pose proof (Z.log2_nonneg z) as Hlog0.
  assert (Z.log2 z < 53)%Z as Hlog by (apply Z.log2_lt_pow2; lia).
  destruct (Z_log2_bounds z Hpos) as [Hlo Hhi].
  unfold round64.
  assert (Qeq_bool (inject_Z z) 0 = false) as ->.
  { apply not_true_iff_false. intros H. apply Qeq_bool_iff in H.
    unfold Qeq in H. cbn in H. lia. }
  assert (Qlt_bool (inject_Z z) 0 = false) as ->.
  { apply not_true_iff_false. intros H. apply Qlt_bool_iff in H.
    unfold Qlt in H. cbn in H. lia. }
  assert (Qabs (inject_Z z) = inject_Z z) as ->.
  { unfold Qabs, inject_Z. rewrite Z.abs_eq by lia. reflexivity. }
  assert (binade (inject_Z z) = Z.log2 z) as Hbin.
  { apply binade_unique; [exact Hlo | rewrite Qpower2_succ; exact Hhi]. }
  unfold ulp. rewrite Hbin, Z.max_l by lia.
  set (k := (52 - Z.log2 z)%Z).
  replace (Z.log2 z - 52)%Z with (- k)%Z by (unfold k; lia).
  assert (0 <= k)%Z as Hk by (unfold k; lia).
  assert (~ (2 ^ k == 0)%Q) as Hnz.
  { pose proof (Qpower2_pos k). lra. }
  assert (inject_Z z / 2 ^ (- k) == inject_Z (z * 2 ^ k))%Q as Hdiv.
  { rewrite Qpower_opp, inject_Z_mult, <- (Qpower2_nonneg _ Hk).
    field. exact Hnz. }
  rewrite (round_half_even_integer _ _ Hdiv).
  rewrite Qpower_opp, inject_Z_mult, <- (Qpower2_nonneg _ Hk).
  field. exact Hnz.
Qed.

(** The length of a list shorter than [2^53] converts to a float exactly. *)
Lemma float_of_nat_exact (n : nat) :
  (Z.of_nat n < 2 ^ 53)%Z -> (float_of_nat n == Q_of_nat n)%Q.
Proof.
  intros Hn. unfold float_of_nat, Q_of_nat.
  destruct n as [|n]; [reflexivity|].
  apply round64_integer. lia.
Qed.

(** At the threshold 1.0 the float product [len(taxonomies) * threshold] of
    [lca] is the length itself, on any list shorter than [2^53]: the count
    target of the embedding is then the one the code computes. *)
Lemma full_target_float (n : nat) :
  (Z.of_nat n < 2 ^ 53)%Z ->
  (fmul (float_of_nat n) (clamp_threshold 1) == full_target n)%Q.
Proof.
  intros Hn. unfold full_target.
  change (clamp_threshold 1) with 1%Q. unfold fmul.
  rewrite (float_of_nat_exact n Hn), Qmult_1_r.
  apply (float_of_nat_exact n Hn).
Qed.

(** [fmul] and [fsub] give the values of the library's binary64 operations
    [SFmul] and [SFsub] on the floats of the examples below: [7.0 * 0.9],
    [7.0 - 6.3], [1.0 - 0.9], [0.7 - 7.0] and [5.0 * 0.6], and on an
    overflow: the largest float times [1.0000000000000002] is [inf], and
    the largest float minus that is [-inf]. *)
Example floats_agree_with_library :
  let f09 := (8106479329266893 # 9007199254740992)%Q in
  let f07 := (3152519739159347 # 4503599627370496)%Q in
  let f06 := (5404319552844595 # 9007199254740992)%Q in
  let above1 := (4503599627370497 # 4503599627370496)%Q in
  let s1 := S754_finite false 1 0 in
  let s5 := S754_finite false 5 0 in
  let s7 := S754_finite false 7 0 in
  let s09 := S754_finite false 8106479329266893 (-53) in
  let s07 := S754_finite false 3152519739159347 (-52) in
  let s06 := S754_finite false 5404319552844595 (-53) in
  let sabove1 := S754_finite false 4503599627370497 (-52) in
  let smax := S754_finite false 9007199254740991 971 in
  is_float f09 s09 = true
  /\ is_float f07 s07 = true
  /\ is_float f06 s06 = true
  /\ is_float above1 sabove1 = true
  /\ is_float max_float smax = true
  /\ is_float (fmul 7 f09) (SFmul 53 1024 s7 s09) = true
  /\ is_float (fsub 7 (fmul 7 f09)) (SFsub 53 1024 s7 (SFmul 53 1024 s7 s09))
     = true
  /\ is_float (fsub 1 f09) (SFsub 53 1024 s1 s09) = true
  /\ is_float (fsub f07 7) (SFsub 53 1024 s07 s7) = true
  /\ is_float (fmul (float_of_nat 5) f06) (SFmul 53 1024 s5 s06) = true
  /\ SFmul 53 1024 smax sabove1 = S754_infinity false
  /\ is_float (fmul max_float above1) (SFmul 53 1024 smax sabove1) = true
  /\ is_float (fsub max_float (fmul max_float above1))
       (SFsub 53 1024 smax (SFmul 53 1024 smax sabove1)) = true.
Proof. vm_compute. repeat split. Qed.

(** ** The accumulator: order and bound *)

Section bisect.

Implicit Types (a : list Q) (x : Q).

#[local] Instance Qle_transitive : Transitive Qle.
Proof. intros x y z. apply Qle_trans. Qed.

Lemma sorted_lookup_le a i j u v :
  StronglySorted Qle a -> i <= j ->
  a !! i = Some u -> a !! j = Some v -> (u <= v)%Q.
Proof.
  intros Hs. revert i j. induction Hs as [|w a Hs IH Hall]; intros i j Hij Hi Hj.
  - discriminate.
  - destruct i as [|i], j as [|j]; simpl in *; simplify_eq.
    + apply Qle_refl.
    + rewrite Forall_forall in Hall. apply Hall.
      eapply list_elem_of_lookup_2; eassumption.
    + lia.
    + apply (IH i j); [lia | assumption | assumption].
Qed.

Lemma bisect_loop_spec fuel a x lo hi :
  StronglySorted Qle a ->
  hi - lo <= fuel -> lo <= hi -> hi <= length a ->
  (forall i v, i < lo -> a !! i = Some v -> (v < x)%Q) ->
  (forall i v, hi <= i -> a !! i = Some v -> (x <= v)%Q) ->
  insertion_point a x (bisect_loop fuel a x lo hi).
Proof.
  intros Hs. revert lo hi.
  induction fuel as [|fuel IH]; intros lo hi Hfuel Hlohi Hhi Hlow Hhigh;
    cbn [bisect_loop].
  - assert (lo = hi) as -> by lia. split; [assumption | split; assumption].
  - destruct (lo <? hi) eqn:Hlt.
    + apply Nat.ltb_lt in Hlt.
      pose proof (Nat.div_mod_eq (lo + hi) 2) as Hdiv.
      pose proof (Nat.mod_upper_bound (lo + hi) 2) as Hmod.
      set (mid := (lo + hi) / 2) in *.
      assert (lo <= mid < hi) as [Hlm Hmh] by lia.
      destruct (a !! mid) as [v|] eqn:Hmid.
      * destruct (Qlt_bool v x) eqn:Hcmp.
        -- apply Qlt_bool_iff in Hcmp.
           apply IH; [lia | lia | lia | | assumption].
           intros i w Hi Hw.
           eapply Qle_lt_trans; [| exact Hcmp].
           apply (sorted_lookup_le a i mid); [assumption | lia | assumption | assumption].
        -- apply Qlt_bool_false_iff in Hcmp.
           apply IH; [lia | lia | lia | assumption |].
           intros i w Hi Hw.
           eapply Qle_trans; [exact Hcmp |].
           apply (sorted_lookup_le a mid i); [assumption | lia | assumption | assumption].
      * apply lookup_ge_None in Hmid. lia.
    + apply Nat.ltb_ge in Hlt. assert (lo = hi) as -> by lia.
      split; [assumption | split; assumption].
Qed.

Lemma bisect_left_spec a x :
  StronglySorted Qle a -> insertion_point a x (bisect_left a x).
Proof.
  intros Hs. unfold bisect_left.
  apply bisect_loop_spec; [assumption | lia | lia | lia | |].
  - intros i v Hi. lia.
  - intros i v Hi Hv. apply lookup_lt_Some in Hv. lia.
Qed.

Lemma insert_at_sorted a x r :
  StronglySorted Qle a -> insertion_point a x r ->
  StronglySorted Qle (insert_at r x a).
Proof.
  intros Hs (Hr & Hlow & Hhigh). unfold insert_at.
  assert (StronglySorted Qle (take r a) /\ StronglySorted Qle (drop r a))
    as [Htake Hdrop].
  { rewrite <- (take_drop r a) in Hs.
    apply StronglySorted_app in Hs. tauto. }
  assert (Forall (Qle x) (drop r a)) as Hge.
  { apply Forall_forall. intros v Hv.
    apply list_elem_of_lookup in Hv as [i Hi].
    rewrite lookup_drop in Hi. apply (Hhigh (r + i)); [lia | assumption]. }
  apply StronglySorted_app_2.
  - intros u v Hu Hv.
    apply elem_of_take in Hu as (i & Hi & Hir).
    pose proof (Hlow i u Hir Hi) as Hux.
    apply elem_of_cons in Hv as [-> | Hv].
    + apply Qlt_le_weak. assumption.
    + rewrite Forall_forall in Hge.
      eapply Qle_trans; [apply Qlt_le_weak; exact Hux | apply Hge; assumption].
  - assumption.
  - constructor; assumption.
Qed.

End bisect.

Lemma length_insert_at {A} i (x : A) l : length (insert_at i x l) = S (length l).
Proof.
  unfold insert_at. rewrite length_app. simpl.
  rewrite length_take, length_drop. lia.
Qed.

Lemma insert_hit_sorted self taxonomy bitscore :
  StronglySorted Qle (bitscores self) ->
  StronglySorted Qle (bitscores (insert_hit self taxonomy bitscore)).
Proof.
  intros Hs. simpl. apply insert_at_sorted; [assumption |].
  apply bisect_left_spec. assumption.
Qed.

Lemma insert_hit_length self taxonomy bitscore :
  length (names (insert_hit self taxonomy bitscore)) = S (length (names self))
  /\ length (bitscores (insert_hit self taxonomy bitscore))
     = S (length (bitscores self)).
Proof. simpl. rewrite !length_insert_at. split; reflexivity. Qed.

Lemma bound_insert_inv max_hits self taxonomy bitscore :
  hits_inv max_hits self ->
  hits_inv max_hits (bound_hits max_hits (insert_hit self taxonomy bitscore)).
Proof.
  intros (Hs & Hlen & Hmax).
  pose proof (insert_hit_sorted self taxonomy bitscore Hs) as Hs'.
  destruct (insert_hit_length self taxonomy bitscore) as [Hn Hb].
  set (ins := insert_hit self taxonomy bitscore) in *. clearbody ins.
  unfold bound_hits, hits_inv.
  destruct (Nat.ltb_spec max_hits (length (names ins))) as [Hcmp|Hcmp].
  - destruct ins as [[|n ns] [|s ss]]; cbn [names bitscores tail length] in *;
      try discriminate.
    split; [apply StronglySorted_inv in Hs'; tauto | lia].
  - split; [assumption | lia].
Qed.

Lemma add_cases self taxonomy bitscore max_hits top_fraction :
  add self taxonomy bitscore max_hits top_fraction = self
  \/ add self taxonomy bitscore max_hits top_fraction
     = bound_hits max_hits (insert_hit self taxonomy bitscore).
Proof.
  unfold add, cutoff.
  destruct top_fraction as [tf|], (last (bitscores self)) as [best|];
    repeat (match goal with |- context [if ?c then _ else _] => destruct c end);
    auto.
Qed.

Lemma add_inv max_hits self taxonomy bitscore top_fraction :
  hits_inv max_hits self ->
  hits_inv max_hits (add self taxonomy bitscore max_hits top_fraction).
Proof.
  intros Hinv.
  destruct (add_cases self taxonomy bitscore max_hits top_fraction) as [-> | ->].
  - assumption.
  - apply bound_insert_inv. assumption.
Qed.

Lemma add_all_inv max_hits calls self :
  hits_inv max_hits self -> hits_inv max_hits (add_all max_hits calls self).
Proof.
  revert self. induction calls as [|[[t b] tf] calls IH]; intros self Hinv; simpl.
  - assumption.
  - apply IH. apply add_inv. assumption.
Qed.

Lemma new_hits_inv max_hits : hits_inv max_hits new_hits.
Proof. repeat split; simpl; [constructor | lia]. Qed.

(** C8.  Along every run of [add] calls with a fixed [max_hits], starting from
    the empty accumulator: the stored bitscores are in non-decreasing order,
    [names] and [bitscores] have the same length, which is at most [max_hits];
    a further [add] either leaves the accumulator alone or inserts and then
    bounds it, and whenever the insertion makes the size exceed [max_hits] the
    entry removed is the leftmost one, whose bitscore is the lowest: no
    retained bitscore is below it. *)
Theorem add_keeps_sorted_and_bounded
    (max_hits : nat) (calls : list (string * Q * option Q)) :
  let self := add_all max_hits calls new_hits in
  StronglySorted Qle (bitscores self)
  /\ Sorted Qle (bitscores self)
  /\ length (names self) = length (bitscores self)
  /\ length (names self) <= max_hits
  /\ forall taxonomy bitscore top_fraction,
      let ins := insert_hit self taxonomy bitscore in
      (add self taxonomy bitscore max_hits top_fraction = self
       \/ add self taxonomy bitscore max_hits top_fraction
          = bound_hits max_hits ins)
      /\ (max_hits < length (names ins) ->
          exists n s,
            names ins = n :: names (bound_hits max_hits ins)
            /\ bitscores ins = s :: bitscores (bound_hits max_hits ins)
            /\ Forall (Qle s) (bitscores (bound_hits max_hits ins))).
Proof.
  intros self.
  destruct (add_all_inv max_hits calls new_hits (new_hits_inv max_hits))
    as (Hs & Hlen & Hmax).
  fold self in Hs, Hlen, Hmax.
  split; [assumption|]. split; [apply StronglySorted_Sorted; assumption|].
  split; [assumption|]. split; [assumption|].
  intros taxonomy bitscore top_fraction ins. split.
  - apply add_cases.
  - intros Hover.
    pose proof (insert_hit_sorted self taxonomy bitscore Hs) as Hs'.
    destruct (insert_hit_length self taxonomy bitscore) as [Hn Hb].
    fold ins in Hs', Hn, Hb. unfold bound_hits.
    apply Nat.ltb_lt in Hover. rewrite Hover.
    destruct (names ins) as [|n ns]; [discriminate|].
    destruct (bitscores ins) as [|s ss]; [discriminate|].
    exists n, s. simpl. split; [reflexivity|]. split; [reflexivity|].
    apply StronglySorted_inv in Hs'. tauto.
Qed.

(** ** The score test of [add] *)

(** C10.  A bitscore equal to zero is never inserted: whatever the accumulator,
    [max_hits] and [top_fraction], [add] returns the accumulator unchanged,
    because the insertion is guarded by the truthiness of the score. *)
Theorem add_zero_bitscore_unchanged
    self taxonomy bitscore max_hits top_fraction :
  (bitscore == 0)%Q ->
  add self taxonomy bitscore max_hits top_fraction = self.
Proof.
  intros Hz. apply truthy_false_iff in Hz.
  unfold add, cutoff.
  destruct top_fraction as [tf|], (last (bitscores self)) as [best|];
    repeat (match goal with |- context [if ?c then _ else _] => destruct c eqn:? end);
    congruence.
Qed.

Lemma add_zero_bitscore_unchanged_witness :
  (0 == 0)%Q
  /\ add (mkBlastHits ["A"] [10%Q]) "B" 0%Q 10 None = mkBlastHits ["A"] [10%Q].
Proof.
  split; [reflexivity|].
  apply (add_zero_bitscore_unchanged (mkBlastHits ["A"] [10%Q]) "B" 0%Q 10 None).
  reflexivity.
Defined.

Lemma sorted_last_max (a : list Q) (best : Q) :
  StronglySorted Qle a -> last a = Some best ->
  Forall (fun s => (s <= best)%Q) a.
Proof.
  intros Hs Hlast. apply Forall_forall. intros s Hin.
  apply list_elem_of_lookup in Hin as [i Hi].
  rewrite last_lookup in Hlast.
  apply (sorted_lookup_le a i (pred (length a))); try assumption.
  apply lookup_lt_Some in Hi. lia.
Qed.

(** C1, as the code has it.  With a non-zero [top_fraction], a non-empty
    accumulator and a non-zero incoming bitscore, [add] drops the hit when the
    bitscore is below the floor that the code computes in floats,
    [best - (best * top_fraction)] with the product rounded and then the
    difference, and otherwise inserts it (and then bounds the accumulator);
    [best] is [bitscores[-1]], which on a sorted accumulator is the highest
    retained bitscore. *)
Theorem add_top_fraction_from_best
    self taxonomy bitscore max_hits tf best :
  truthy tf = true ->
  last (bitscores self) = Some best ->
  ~ (bitscore == 0)%Q ->
  ((bitscore < fsub best (fmul best tf))%Q ->
     add self taxonomy bitscore max_hits (Some tf) = self)
  /\ (~ (bitscore < fsub best (fmul best tf))%Q ->
     add self taxonomy bitscore max_hits (Some tf)
     = bound_hits max_hits (insert_hit self taxonomy bitscore))
  /\ (StronglySorted Qle (bitscores self) ->
      Forall (fun s => (s <= best)%Q) (bitscores self)).
Proof.
  intros Htf Hlast Hnz. apply truthy_true_iff in Hnz.
  unfold add, cutoff. rewrite Hlast, Htf.
  split; [|split].
  - intros Hlt. apply Qlt_bool_iff in Hlt. rewrite Hlt. reflexivity.
  - intros Hge.
    destruct (Qlt_bool bitscore (fsub best (fmul best tf))) eqn:Hcmp.
    + apply Qlt_bool_iff in Hcmp. contradiction.
    + rewrite Hnz. reflexivity.
  - intros Hs. apply sorted_last_max; assumption.
Qed.

(** Two runs of the test.  With the scores 10 and 100 retained and the
    fraction 0.5, the floor is 50: the score 20 is dropped and the score 50
    is inserted.  With the score 7.0 retained and the fraction 0.9, the
    floats give [7.0 * 0.9 = 6.3] and [7.0 - 6.3 = 0.7000000000000002], so
    the score 0.7 is dropped, although it is not below [7.0 * (1 - 0.9)]. *)
Lemma add_top_fraction_from_best_witness :
  let self := mkBlastHits ["A"; "B"] [10%Q; 100%Q] in
  let seven := mkBlastHits ["A"] [7%Q] in
  let f09 := (8106479329266893 # 9007199254740992)%Q in
  let f07 := (3152519739159347 # 4503599627370496)%Q in
  add self "C" 20%Q 10 (Some (1 # 2)%Q) = self
  /\ add self "C" 50%Q 10 (Some (1 # 2)%Q)
     = mkBlastHits ["A"; "C"; "B"] [10%Q; 50%Q; 100%Q]
  /\ add seven "B" f07 10 (Some f09) = seven
  /\ ~ (f07 < 7 * (1 - f09))%Q.
Proof.
  intros self seven f09 f07. split; [|split; [|split]].
  - apply (add_top_fraction_from_best self "C" 20%Q 10 (1 # 2)%Q 100%Q);
      [reflexivity | reflexivity | discriminate | vm_compute; reflexivity].
  - etransitivity.
    + apply (add_top_fraction_from_best self "C" 50%Q 10 (1 # 2)%Q 100%Q);
        [reflexivity | reflexivity | discriminate | vm_compute; discriminate].
    + reflexivity.
  - apply (add_top_fraction_from_best seven "B" f07 10 f09 7%Q);
      [reflexivity | reflexivity | discriminate | vm_compute; reflexivity].
  - vm_compute. discriminate.
Defined.

(** When the product overflows, the floor is [-inf] and no score is below
    it: with the largest float retained and the fraction
    [1.0000000000000002], the score [-2^1000] is inserted. *)
Example add_floor_overflow :
  let above1 := (4503599627370497 # 4503599627370496)%Q in
  let low := inject_Z (- 2 ^ 1000) in
  is_inf (fmul max_float above1) = true
  /\ is_inf (fsub max_float (fmul max_float above1)) = true
  /\ add (mkBlastHits ["A"] [max_float]) "B" low 10 (Some above1)
     = mkBlastHits ["B"; "A"] [low; max_float].
Proof. vm_compute. repeat split. Qed.

(** C1 as stated fails: after [add("A", 10)] and [add("B", 100)] the lowest
    retained bitscore is 10; with [top_fraction = 0.5] the bitscore 20 is not
    below [10 - 10 * 0.5], yet [add] drops the hit instead of inserting it. *)
Lemma add_top_fraction_not_from_lowest :
  let self := add_all 10 [("A", 10%Q, None); ("B", 100%Q, None)] new_hits in
  head (bitscores self) = Some 10%Q
  /\ ~ (20 < 10 - 10 * (1 # 2))%Q
  /\ add self "C" 20%Q 10 (Some (1 # 2)%Q) = self
  /\ bound_hits 10 (insert_hit self "C" 20%Q) <> self.
Proof.
  intros self. split; [reflexivity|]. split; [discriminate|].
  split; [reflexivity|]. discriminate.
Qed.

(** ** Counters *)

Section counter.

Implicit Types (c : Counter.t) (k : string) (n : nat).

Lemma counter_get_incr k c k' :
  Counter.get (Counter.incr k c) k'
  = if decide (k = k') then S (Counter.get c k') else Counter.get c k'.
Proof.
  induction c as [|[k0 n] c IH]; cbn [Counter.incr Counter.get].
  - destruct (String.eqb_spec k' k) as [->|Hne].
    + rewrite decide_True by reflexivity. reflexivity.
    + rewrite decide_False by congruence. reflexivity.
  - destruct (String.eqb_spec k k0) as [->|Hk]; cbn [Counter.get].
    + destruct (String.eqb_spec k' k0) as [->|Hk'].
      * rewrite decide_True by reflexivity. reflexivity.
      * rewrite decide_False by congruence. reflexivity.
    + destruct (String.eqb_spec k' k0) as [->|Hk'].
      * rewrite decide_False by assumption. reflexivity.
      * apply IH.
Qed.

Lemma counter_incr_keys k c k' :
  k' ∈ (Counter.incr k c).*1 <-> k' = k \/ k' ∈ c.*1.
Proof.
  induction c as [|[k0 n] c IH]; cbn [Counter.incr].
  - rewrite fmap_cons, elem_of_cons. reflexivity.
  - destruct (String.eqb_spec k k0) as [->|Hk];
      rewrite !fmap_cons, !elem_of_cons; cbn [fst].
    + tauto.
    + rewrite IH. tauto.
Qed.

Lemma counter_incr_NoDup k c : NoDup c.*1 -> NoDup (Counter.incr k c).*1.
Proof.
  induction c as [|[k0 n] c IH]; cbn [Counter.incr]; intros Hnd.
  - rewrite fmap_cons. constructor; [apply not_elem_of_nil | constructor].
  - rewrite fmap_cons in Hnd. apply NoDup_cons in Hnd as [Hnin Hnd].
    cbn [fst] in Hnin.
    destruct (String.eqb_spec k k0) as [->|Hk]; rewrite fmap_cons; cbn [fst].
    + constructor; assumption.
    + constructor; [|apply IH; assumption].
      rewrite counter_incr_keys. intros [?|?]; [congruence | contradiction].
Qed.

Lemma counter_fold_keys l c k :
  k ∈ (fold_left (fun c k => Counter.incr k c) l c).*1 <-> k ∈ l \/ k ∈ c.*1.
Proof.
  revert c. induction l as [|x l IH]; intros c; cbn [fold_left].
  - split; [auto | intros [H|H]; [inversion H | assumption]].
  - rewrite IH, counter_incr_keys, elem_of_cons. tauto.
Qed.

Lemma counter_fold_NoDup l c :
  NoDup c.*1 -> NoDup (fold_left (fun c k => Counter.incr k c) l c).*1.
Proof.
  revert c. induction l as [|x l IH]; intros c Hnd; cbn [fold_left].
  - assumption.
  - apply IH, counter_incr_NoDup, Hnd.
Qed.

Lemma counter_of_list_keys items k : k ∈ (Counter.of_list items).*1 <-> k ∈ items.
Proof.
  unfold Counter.of_list. rewrite counter_fold_keys. split; [|auto].
  intros [H|H]; [assumption | inversion H].
Qed.

Lemma counter_of_list_NoDup items : NoDup (Counter.of_list items).*1.
Proof. apply counter_fold_NoDup. constructor. Qed.

(** The entry of a key holds what [get] reads. *)
Lemma counter_in_get k c : k ∈ c.*1 -> (k, Counter.get c k) ∈ c.
Proof.
  induction c as [|[k0 n] c IH]; intros Hin.
  - inversion Hin.
  - cbn [Counter.get]. destruct (String.eqb_spec k k0) as [->|Hk].
    + apply list_elem_of_here.
    + apply list_elem_of_further, IH.
      rewrite fmap_cons in Hin. apply elem_of_cons in Hin as [?|?];
        [contradiction | assumption].
Qed.

Lemma counter_get_in k n c : NoDup c.*1 -> (k, n) ∈ c -> Counter.get c k = n.
Proof.
  induction c as [|[k0 n0] c IH]; intros Hnd Hin.
  - inversion Hin.
  - rewrite fmap_cons in Hnd. apply NoDup_cons in Hnd as [Hnin Hnd].
    cbn [fst] in Hnin. cbn [Counter.get].
    apply elem_of_cons in Hin as [Heq|Hin].
    + simplify_eq. rewrite String.eqb_refl. reflexivity.
    + destruct (String.eqb_spec k k0) as [->|Hk].
      * exfalso. apply Hnin. apply (list_elem_of_fmap_2 fst) in Hin. exact Hin.
      * apply IH; assumption.
Qed.

Lemma insert_desc_perm x c : Counter.insert_desc x c ≡ₚ x :: c.
Proof.
  induction c as [|y c IH]; cbn [Counter.insert_desc].
  - reflexivity.
  - destruct (snd x <? snd y); [|reflexivity].
    rewrite IH. apply Permutation_swap.
Qed.

Lemma most_common_perm c : Counter.most_common c ≡ₚ c.
Proof.
  unfold Counter.most_common. induction c as [|x c IH]; cbn [foldr].
  - reflexivity.
  - rewrite insert_desc_perm, IH. reflexivity.
Qed.

Lemma insert_desc_sorted x c :
  StronglySorted count_ge c -> StronglySorted count_ge (Counter.insert_desc x c).
Proof.
  induction 1 as [|y c Hs IH Hall]; cbn [Counter.insert_desc].
  - repeat constructor.
  - destruct (Nat.ltb_spec (snd x) (snd y)) as [Hlt|Hge].
    + constructor; [assumption|].
      rewrite insert_desc_perm. constructor; [|assumption].
      unfold count_ge. lia.
    + constructor; [constructor; assumption|].
      constructor; [exact Hge|].
      eapply Forall_impl; [exact Hall|].
      unfold count_ge. intros z Hz. lia.
Qed.

Lemma most_common_sorted c : StronglySorted count_ge (Counter.most_common c).
Proof.
  unfold Counter.most_common. induction c as [|x c IH]; cbn [foldr].
  - constructor.
  - apply insert_desc_sorted, IH.
Qed.

(** No count exceeds the count of the first entry of [most_common()]. *)
Lemma most_common_head_max items k0 (c0 : nat) rest key :
  Counter.most_common (Counter.of_list items) = (k0, c0) :: rest ->
  key ∈ items ->
  Counter.get (Counter.of_list items) key <= c0
  /\ (k0 = key -> Counter.get (Counter.of_list items) key = c0).
Proof.
  intros Hmc Hkey.
  pose proof (most_common_sorted (Counter.of_list items)) as Hs.
  pose proof (most_common_perm (Counter.of_list items)) as Hperm.
  rewrite Hmc in Hs, Hperm.
  apply StronglySorted_inv in Hs as [_ Hall].
  assert ((k0, c0) ∈ Counter.of_list items) as Hhead
    by (apply (proj1 (elem_of_Permutation_proper _ _ _ Hperm)),
          list_elem_of_here).
  pose proof (counter_get_in _ _ _ (counter_of_list_NoDup items) Hhead) as Hget0.
  split.
  - apply counter_of_list_keys, counter_in_get in Hkey.
    apply (proj2 (elem_of_Permutation_proper _ _ _ Hperm)) in Hkey.
    apply elem_of_cons in Hkey as [Heq|Hin].
    + injection Heq as _ ->. reflexivity.
    + rewrite Forall_forall in Hall. apply (Hall _ Hin).
  - intros <-. exact Hget0.
Qed.

Lemma most_common_nonempty items key :
  key ∈ items -> Counter.most_common (Counter.of_list items) <> [].
Proof.
  intros Hkey Hnil.
  apply counter_of_list_keys, counter_in_get in Hkey.
  apply (proj2 (elem_of_Permutation_proper _ _ _
                  (most_common_perm (Counter.of_list items)))) in Hkey.
  rewrite Hnil in Hkey. inversion Hkey.
Qed.

End counter.

(** ** [majority] *)

Lemma size_list_to_set_cons (x : string) (l : list string) :
  size (list_to_set (x :: l) : gset string)
  = if decide (x ∈ l) then size (list_to_set l : gset string)
    else S (size (list_to_set l : gset string)).
Proof.
  rewrite list_to_set_cons. destruct (decide (x ∈ l)) as [Hin|Hnin].
  - f_equal. apply leibniz_equiv. apply subseteq_union_1.
    apply singleton_subseteq_l, elem_of_list_to_set. exact Hin.
  - rewrite size_union by set_solver. rewrite size_singleton. reflexivity.
Qed.

Lemma size_list_to_set_le (l : list string) :
  size (list_to_set l : gset string) <= length l.
Proof.
  induction l as [|x l IH].
  - rewrite list_to_set_nil, size_empty. reflexivity.
  - rewrite size_list_to_set_cons. cbn [length].
    destruct (decide (x ∈ l)); lia.
Qed.

Lemma repeated_size_lt (l : list string) :
  ~ NoDup l -> size (list_to_set l : gset string) < length l.
Proof.
  induction l as [|x l IH]; intros Hdup.
  - exfalso. apply Hdup. constructor.
  - rewrite size_list_to_set_cons. cbn [length].
    pose proof (size_list_to_set_le l).
    destruct (decide (x ∈ l)) as [Hin|Hnin]; [lia|].
    assert (~ NoDup l) as Hl by (intros H'; apply Hdup; constructor; assumption).
    specialize (IH Hl). lia.
Qed.

Lemma counter_incr_nonempty k c : Counter.incr k c <> [].
Proof. destruct c as [|[k' n] c]; simpl; [|destruct (String.eqb k k')]; discriminate. Qed.

Lemma counter_fold_nonempty l c :
  c <> [] -> fold_left (fun c k => Counter.incr k c) l c <> [].
Proof.
  revert c. induction l as [|k l IH]; intros c Hc; simpl; [assumption|].
  apply IH, counter_incr_nonempty.
Qed.

Lemma counter_of_list_nonempty l : l <> [] -> Counter.of_list l <> [].
Proof.
  destruct l as [|k l]; [congruence|]. intros _.
  unfold Counter.of_list. simpl. apply counter_fold_nonempty. discriminate.
Qed.

(** With a repeated name, [majority] takes its second branch: the accumulator
    it leaves behind has [names] reversed and [bitscores] as they were. *)
Lemma majority_repeated_state self :
  ~ NoDup (names self) ->
  snd (majority self) = mkBlastHits (reverse (names self)) (bitscores self).
Proof.
  intros Hdup. unfold majority.
  pose proof (repeated_size_lt _ Hdup) as Hlt.
  destruct (Nat.eqb_spec (length (names self))
              (size (list_to_set (names self) : gset string))) as [Heq|_];
    [lia|].
  assert (names self <> []) as Hne.
  { intros Hnil. apply Hdup. rewrite Hnil. constructor. }
  pose proof (counter_of_list_nonempty _ Hne) as Hc.
  destruct (Counter.of_list (names self)) as [|x rest]; [congruence|].
  cbn [Counter.most_common_1].
  destruct (Counter.max_entry x rest) as [mc n].
  cbn [names].
  destruct (index_of mc (reverse (names self))) as [idx|]; [|reflexivity].
  destruct (reverse (names self) !! idx); reflexivity.
Qed.

Lemma zip_reverse {A B} (l : list A) (k : list B) :
  length l = length k -> zip (reverse l) (reverse k) = reverse (zip l k).
Proof.
  revert k. induction l as [|x l IH]; intros [|y k] Hlen;
    cbn [length] in Hlen; try discriminate; [reflexivity|].
  cbn [zip_with]. rewrite !reverse_cons.
  rewrite zip_with_app by (rewrite !length_reverse; lia).
  rewrite IH by lia. reflexivity.
Qed.

(** A list of scores that is in non-decreasing order in both directions
    holds one score only. *)
Lemma sorted_both_ways (a : list Q) x y :
  StronglySorted Qle a -> StronglySorted Qle (reverse a) ->
  x ∈ a -> y ∈ a -> (x == y)%Q.
Proof.
  intros Hs Hr.
  assert (forall u v, u ∈ a -> v ∈ a -> (u <= v)%Q) as Hle.
  { intros u v Hu Hv.
    apply list_elem_of_lookup in Hu as [i Hi].
    apply list_elem_of_lookup in Hv as [j Hj].
    pose proof (lookup_lt_Some _ _ _ Hi) as Hil.
    pose proof (lookup_lt_Some _ _ _ Hj) as Hjl.
    destruct (Nat.le_gt_cases i j) as [Hij|Hji].
    - apply (sorted_lookup_le a i j); assumption.
    - apply (sorted_lookup_le (reverse a) (length a - S i) (length a - S j));
        [assumption | lia | |].
      + rewrite reverse_lookup by lia.
        replace (length a - S (length a - S i)) with i by lia. exact Hi.
      + rewrite reverse_lookup by lia.
        replace (length a - S (length a - S j)) with j by lia. exact Hj. }
  intros Hx Hy. apply Qle_antisym; apply Hle; assumption.
Qed.

(** C9, as the code has it.  When [names] holds a repeated taxon, [majority]
    leaves an accumulator whose [names] is the reverse of what it was and
    whose [bitscores] is untouched, so [best_hit] then returns the name that
    stood at the lowest-bitscore position.  On an accumulator with as many
    names as bitscores, the list of (name, bitscore) pairs is then what it
    was exactly when the names read the same in both directions; the names
    stand at the mirrored positions of their own bitscores, that is, in
    non-increasing order of bitscore, and this is still a non-decreasing
    order only when all the retained bitscores are equal. *)
Theorem majority_reverses_names_only self :
  ~ NoDup (names self) ->
  let self' := snd (majority self) in
  names self' = reverse (names self)
  /\ bitscores self' = bitscores self
  /\ (exists n, head (names self) = Some n /\ best_hit self' = Ok n)
  /\ (length (names self) = length (bitscores self) ->
      (hits self' = hits self <-> reverse (names self) = names self)
      /\ zip (names self') (reverse (bitscores self)) = reverse (hits self)
      /\ (StronglySorted Qle (bitscores self) ->
          StronglySorted Qle (reverse (bitscores self)) ->
          forall a b,
            a ∈ bitscores self -> b ∈ bitscores self -> (a == b)%Q)).
Proof.
  intros Hdup self'. unfold self'. rewrite majority_repeated_state by assumption.
  unfold hits. cbn [names bitscores].
  split; [reflexivity|]. split; [reflexivity|]. split.
  - destruct (names self) as [|n ns] eqn:En.
    + exfalso. apply Hdup. constructor.
    + exists n. split; [reflexivity|].
      unfold best_hit. cbn [names]. rewrite last_reverse. reflexivity.
  - intros Hlen. split; [|split].
    + split.
      * intros Hzip. apply (f_equal (fmap fst)) in Hzip.
        rewrite !fst_zip in Hzip; [assumption | lia |].
        rewrite length_reverse. lia.
      * intros ->. reflexivity.
    + apply zip_reverse, Hlen.
    + intros Hs Hr a b Ha Hb.
      apply (sorted_both_ways (bitscores self)); assumption.
Qed.

Lemma majority_reverses_names_only_witness :
  let self := mkBlastHits ["A"; "A"; "B"] [1%Q; 2%Q; 3%Q] in
  names (snd (majority self)) = ["B"; "A"; "A"]
  /\ bitscores (snd (majority self)) = [1%Q; 2%Q; 3%Q]
  /\ best_hit (snd (majority self)) = Ok "A"
  /\ hits (snd (majority self)) <> hits self
  /\ zip (names (snd (majority self))) [3%Q; 2%Q; 1%Q]
     = [("B", 3%Q); ("A", 2%Q); ("A", 1%Q)].
Proof.
  intros self.
  assert (~ NoDup (names self)) as Hdup.
  { intros H. apply NoDup_cons in H as [Hnin _]. apply Hnin. set_solver. }
  destruct (majority_reverses_names_only self Hdup)
    as (Hn & Hb & (n & Hhead & Hbest) & Hpairs).
  destruct (Hpairs eq_refl) as (Hsame & Hmirror & _).
  split; [rewrite Hn; reflexivity|]. split; [rewrite Hb; reflexivity|].
  split; [rewrite Hbest; injection Hhead as <-; reflexivity|].
  split; [intros Heq; apply Hsame in Heq; discriminate|].
  exact Hmirror.
Defined.

(** C9 as stated fails: after [add("A", 1)] and [add("A", 2)] the names hold
    a repeated taxon, yet [majority] leaves the accumulator as it was, names
    included: every name is still paired with its own bitscore, and the
    names are still in non-decreasing order of bitscore. *)
Lemma majority_repeated_keeps_pairing :
  let self := add_all 10 [("A", 1%Q, None); ("A", 2%Q, None)] new_hits in
  names self = ["A"; "A"]
  /\ ~ NoDup (names self)
  /\ majority self = (Ok "A", self)
  /\ hits (snd (majority self)) = [("A", 1%Q); ("A", 2%Q)]
  /\ hits (snd (majority self)) = hits self
  /\ StronglySorted Qle (bitscores (snd (majority self))).
Proof.
  intros self. split; [reflexivity|]. split.
  { intros H. apply NoDup_cons in H as [Hnin _]. apply Hnin. set_solver. }
  split; [reflexivity|]. split; [reflexivity|]. split; [reflexivity|].
  repeat constructor; discriminate.
Qed.

(** C2, where the code departs from it.  After [add("A", 1)], [add("A", 2)],
    [add("B", 3)], [add("B", 4)] the taxa "A" and "B" are tied with two hits
    each and "B" holds the highest bitscore, yet [majority] returns "A": the
    value read back from the reversed deque is the name [most_common(1)]
    already chose, which on a tie is the one that occurs first, at the
    low-bitscore end. *)
Theorem majority_tie_returns_first_counted :
  let self :=
    add_all 10 [("A", 1%Q, None); ("A", 2%Q, None);
                ("B", 3%Q, None); ("B", 4%Q, None)] new_hits in
  names self = ["A"; "A"; "B"; "B"]
  /\ bitscores self = [1%Q; 2%Q; 3%Q; 4%Q]
  /\ Counter.get (Counter.of_list (names self)) "A" = 2
  /\ Counter.get (Counter.of_list (names self)) "B" = 2
  /\ fst (majority self) = Ok "A".
Proof. vm_compute. repeat split; reflexivity. Qed.

Lemma max_entry_in x rest : Counter.max_entry x rest ∈ x :: rest.
Proof.
  revert x. induction rest as [|y rest IH]; intros x; cbn [Counter.max_entry].
  - apply list_elem_of_here.
  - destruct (snd x <? snd y).
    + apply list_elem_of_further, IH.
    + specialize (IH x). apply elem_of_cons in IH as [->|Hin].
      * apply list_elem_of_here.
      * apply list_elem_of_further, list_elem_of_further, Hin.
Qed.

Lemma max_entry_ge x rest : snd x <= snd (Counter.max_entry x rest).
Proof.
  revert x. induction rest as [|y rest IH]; intros x; cbn [Counter.max_entry].
  - reflexivity.
  - destruct (Nat.ltb_spec (snd x) (snd y)) as [Hlt|Hge].
    + specialize (IH y). lia.
    + apply IH.
Qed.

Lemma max_entry_max x rest y :
  y ∈ x :: rest -> snd y <= snd (Counter.max_entry x rest).
Proof.
  revert x. induction rest as [|z rest IH]; intros x Hy; cbn [Counter.max_entry].
  - apply list_elem_of_singleton in Hy as ->. reflexivity.
  - apply elem_of_cons in Hy as [->|Hy].
    + destruct (Nat.ltb_spec (snd x) (snd z)) as [Hlt|Hge].
      * pose proof (max_entry_ge z rest). lia.
      * apply max_entry_ge.
    + destruct (Nat.ltb_spec (snd x) (snd z)) as [Hlt|Hge].
      * apply IH, Hy.
      * apply elem_of_cons in Hy as [->|Hy].
        -- pose proof (max_entry_ge x rest). lia.
        -- apply IH, list_elem_of_further, Hy.
Qed.

Lemma index_of_lookup x l :
  x ∈ l -> exists i, index_of x l = Some i /\ l !! i = Some x.
Proof.
  induction l as [|y l IH]; intros Hin.
  - inversion Hin.
  - cbn [index_of]. destruct (String.eqb_spec y x) as [->|Hne].
    + exists 0. split; reflexivity.
    + apply elem_of_cons in Hin as [?|Hin]; [congruence|].
      destruct (IH Hin) as (i & Hi & Hl).
      exists (S i). rewrite Hi. split; [reflexivity | exact Hl].
Qed.

Lemma counter_get_missing k c : k ∉ c.*1 -> Counter.get c k = 0.
Proof.
  induction c as [|[k0 n] c IH]; intros Hnin; cbn [Counter.get].
  - reflexivity.
  - rewrite fmap_cons in Hnin. apply not_elem_of_cons in Hnin as [Hne Hnin].
    cbn [fst] in Hne. apply String.eqb_neq in Hne. rewrite Hne. apply IH, Hnin.
Qed.


(** ** Construction of the tree *)

(** A row with three fields whose id and parent id are equal and not "1"
    stops the construction with an [AssertionError]. *)
Lemma init_line_self_parent st line name id :
  split tab (strip line) = [name; id; id] -> id <> "1" ->
  init_line st line = Raise AssertionError.
Proof.
  intros Htoks Hid. unfold init_line. rewrite Htoks. cbn [tok lookup list_lookup bind].
  apply String.eqb_neq in Hid. rewrite Hid. cbn [negb bind].
  rewrite String.eqb_refl. reflexivity.
Qed.

(** A row with three fields that passes the assertion is added under its name
    and its id, without a warning. *)
Lemma init_line_three_fields st line name id parent :
  split tab (strip line) = [name; id; parent] ->
  (id = "1" \/ parent = "1" \/ id <> parent) ->
  init_line st line = Ok (add_node (fst st) name id parent, snd st).
Proof.
  intros Htoks Hok. unfold init_line. rewrite Htoks.
  cbn [tok lookup list_lookup bind length Nat.eqb negb].
  destruct (String.eqb_spec id "1") as [->|Hid]; cbn [negb bind]; [reflexivity|].
  destruct (String.eqb_spec parent "1") as [->|Hp]; cbn [negb bind]; [reflexivity|].
  destruct (String.eqb_spec id parent) as [->|Hne]; [|reflexivity].
  destruct Hok as [?|[?|?]]; congruence.
Qed.

(** C3, where the code departs from it.  The fields [toks[1]] and [toks[2]]
    are read before the number of fields is tested: a blank line (one field)
    and a line with two fields whose id is not "1" both stop the construction
    with an [IndexError] instead of being skipped with a warning; a line with
    two fields whose id is "1", or with four fields, is skipped with a
    warning. *)
Theorem Tree_init_short_row_raises :
  Tree_init [tsv ["root"; "1"; "1"]; ""] = Raise IndexError
  /\ Tree_init [tsv ["root"; "1"; "1"]; tsv ["Bacteria"; "2"]] = Raise IndexError
  /\ (exists tree, Tree_init [tsv ["root"; "1"; "1"]; tsv ["all"; "1"]]
        = Ok (tree, [warning_text (tsv ["all"; "1"])]))
  /\ (exists tree, Tree_init [tsv ["root"; "1"; "1"]; tsv ["a"; "2"; "3"; "4"]]
        = Ok (tree, [warning_text (tsv ["a"; "2"; "3"; "4"])])).
Proof.
  split; [reflexivity|]. split; [reflexivity|].
  split; eexists; reflexivity.
Qed.

(** ** Walks *)

Section walks.

Variable tree : Tree.

Lemma path_functional id p q : path tree id p -> path tree id q -> p = q.
Proof.
  intros Hp. revert q. induction Hp as [|id node p Hid Hnode Hp IH]; intros q Hq.
  - inversion Hq; congruence.
  - inversion Hq as [|id' node' q' Hid' Hnode' Hq']; subst; [congruence|].
    assert (node' = node) as -> by congruence.
    f_equal. apply IH. assumption.
Qed.

Lemma path_not_root id p : path tree id p -> "1" ∉ p.
Proof.
  induction 1 as [|id node p Hid Hnode Hp IH].
  - apply not_elem_of_nil.
  - apply not_elem_of_cons. split; [congruence | assumption].
Qed.

(** From any id on a walk the rest of the walk is the walk of that id. *)
Lemma path_suffix id p a y b :
  path tree id p -> p = a ++ y :: b -> path tree y (y :: b).
Proof.
  intros Hp. revert a. induction Hp as [|id node p Hid Hnode Hp IH]; intros a Heq.
  - destruct a; discriminate.
  - destruct a as [|z a]; simpl in Heq; simplify_eq.
    + econstructor; eassumption.
    + apply (IH a). reflexivity.
Qed.

Lemma path_NoDup id p : path tree id p -> NoDup p.
Proof.
  induction 1 as [|id node p Hid Hnode Hp IH].
  - constructor.
  - constructor; [|assumption].
    intros Hin. apply list_elem_of_split in Hin as (a & b & Heq).
    pose proof (path_suffix _ _ _ _ _ Hp Heq) as Hsuf.
    assert (path tree id (id :: p)) as Hfull by (econstructor; eassumption).
    pose proof (path_functional _ _ _ Hsuf Hfull) as Hlen.
    apply (f_equal length) in Hlen. rewrite Heq in Hlen.
    simpl in Hlen. rewrite length_app in Hlen. simpl in Hlen. lia.
Qed.

Lemma path_head id p : path tree id p -> id <> "1" -> exists p', p = id :: p'.
Proof. destruct 1; [congruence | eauto]. Qed.

(** [taxonomic_lineage] computes the lineage that [lineage_of] describes. *)
Lemma lineage_loop_path fuel id p acc :
  path tree id p -> length p < fuel ->
  lineage_loop fuel tree id acc
  = Ok (match p with [] => acc | _ :: p' => "1" :: reverse p' ++ acc end).
Proof.
  intros Hp. revert fuel acc.
  induction Hp as [|id node p Hid Hnode Hp IH]; intros fuel acc Hfuel;
    (destruct fuel as [|fuel]; [simpl in Hfuel; lia|]); cbn [lineage_loop].
  - reflexivity.
  - apply String.eqb_neq in Hid. rewrite Hid, Hnode.
    rewrite IH by (simpl in Hfuel; lia).
    inversion Hp as [Hroot|id' node' p' Hid' Hnode' Hp' Heq]; subst.
    + reflexivity.
    + rewrite reverse_cons, <- app_assoc. reflexivity.
Qed.

Lemma taxonomic_lineage_spec fuel taxon node p :
  tree !! taxon = Some node -> path tree (node_id node) p ->
  length p < fuel ->
  taxonomic_lineage fuel tree taxon = Ok ("1" :: reverse p).
Proof.
  intros Hnode Hp Hfuel. unfold taxonomic_lineage. rewrite Hnode.
  rewrite (lineage_loop_path fuel _ p) by assumption.
  destruct Hp as [|id n p Hid Hn Hp]; [reflexivity|].
  rewrite reverse_cons. reflexivity.
Qed.

Lemma lineage_of_computed taxon lin :
  lineage_of tree taxon lin ->
  forall fuel, length lin <= fuel ->
    taxonomic_lineage fuel tree taxon = Ok lin.
Proof.
  intros (node & p & Hnode & Hp & ->) fuel Hfuel.
  apply taxonomic_lineage_spec with node; [assumption | assumption |].
  simpl in Hfuel. rewrite length_reverse in Hfuel. lia.
Qed.

Lemma lineage_of_functional taxon lin lin' :
  lineage_of tree taxon lin -> lineage_of tree taxon lin' -> lin = lin'.
Proof.
  intros (node & p & Hnode & Hp & ->) (node' & p' & Hnode' & Hp' & ->).
  assert (node' = node) as -> by congruence.
  rewrite (path_functional _ _ _ Hp Hp'). reflexivity.
Qed.

End walks.

(** ** Depth filter *)

Lemma depth_loop_path tree fuel id p tree_depth :
  path tree id p -> length p < fuel ->
  depth_loop fuel tree tree_depth id = Ok (tree_depth + length p).
Proof.
  intros Hp. revert fuel tree_depth.
  induction Hp as [|id node p Hid Hnode Hp IH]; intros fuel tree_depth Hfuel;
    (destruct fuel as [|fuel]; [simpl in Hfuel; lia|]); cbn [depth_loop].
  - f_equal. simpl. lia.
  - apply String.eqb_neq in Hid. rewrite Hid, Hnode.
    rewrite IH by (simpl in Hfuel; lia). f_equal. simpl. lia.
Qed.

(** On taxa that are all in the tree, with walks that reach the root, the
    filter keeps, in their order, those at depth [min_tree_depth] or more. *)
Lemma filter_taxonomy_list_present tree fuel taxa ps min_tree_depth :
  walks_of tree taxa ps -> Forall (fun p => length p < fuel) ps ->
  filter_taxonomy_list fuel tree taxa min_tree_depth
  = Ok (deep_enough min_tree_depth taxa ps).
Proof.
  induction 1 as [|taxon p taxa ps (node & Hnode & Hp) Hrest IH]; intros Hfuel.
  - reflexivity.
  - apply Forall_cons in Hfuel as [Hfp Hfuel].
    cbn [filter_taxonomy_list deep_enough]. rewrite Hnode.
    rewrite (depth_loop_path tree fuel _ p 0 Hp Hfp). cbn [bind].
    rewrite (IH Hfuel). cbn [bind Nat.add].
    destruct (Z.of_nat (length p) <? min_tree_depth)%Z; reflexivity.
Qed.

Lemma deep_enough_sublist min_tree_depth taxa ps :
  deep_enough min_tree_depth taxa ps `sublist_of` taxa.
Proof.
  revert ps. induction taxa as [|taxon taxa IH]; intros ps; cbn [deep_enough].
  - constructor.
  - destruct ps as [|p ps]; [apply sublist_nil_l|].
    destruct (Z.of_nat (length p) <? min_tree_depth)%Z.
    + apply sublist_cons, IH.
    + apply sublist_skip, IH.
Qed.

(** The first taxon that is not in the tree stops the filter. *)
Lemma filter_taxonomy_list_missing tree fuel taxon rest min_tree_depth :
  tree !! taxon = None ->
  filter_taxonomy_list fuel tree (taxon :: rest) min_tree_depth
  = Raise AttributeError.
Proof. intros Hmiss. cbn [filter_taxonomy_list]. rewrite Hmiss. reflexivity. Qed.

(** C4, where the code departs from it.  A taxon that is not in the tree is
    not dropped by [filter_taxonomy_list]: the lookup raises [AttributeError],
    which the handler for [TypeError] lets through.  On the same input [lca]
    skips the taxon. *)
Theorem filter_taxonomy_list_unknown_raises :
  example_tree !! "Chloroflexi" = None
  /\ filter_taxonomy_list 10 example_tree ["1236"; "Chloroflexi"] 2
     = Raise AttributeError
  /\ filter_taxonomy_list 10 example_tree ["1236"] 2 = Ok ["1236"]
  /\ lca 10 example_tree ["Chloroflexi"; "1236"] (1 # 2) 
     = Ok "Gammaproteobacteria".
Proof. vm_compute. repeat split; reflexivity. Qed.

(** ** Threshold *)

(** X20.  What the clamping does guarantee: whatever threshold [lca] is
    given, the threshold it uses is between 0.01 and 1. *)
Lemma clamp_threshold_range threshold :
  (1 # 100 <= clamp_threshold threshold <= 1)%Q.
Proof.
  unfold clamp_threshold.
  destruct (Qlt_bool 1 threshold) eqn:H1; [split; discriminate|].
  destruct (Qlt_bool threshold (1 # 100)) eqn:H2; [split; discriminate|].
  apply Qlt_bool_false_iff in H1, H2. split; assumption.
Qed.

(** C6, where the code departs from it.  The lower test compares with 0.01,
    not with the minimum 0.1 it then assigns: the threshold 0.05 is used as it
    is, below 0.1, and with 100 taxa the count target is 5 instead of 10. *)
Theorem clamp_threshold_below_minimum :
  clamp_threshold (5 # 100) = (5 # 100)%Q
  /\ (clamp_threshold (5 # 100) < 1 # 10)%Q
  /\ (Q_of_nat 100 * clamp_threshold (5 # 100) == 5)%Q.
Proof. split; [reflexivity|]. split; reflexivity. Qed.

(** ** Counting along the walks *)

Lemma count_of_bump_eq counts x : count_of (bump counts x) x = S (count_of counts x).
Proof. unfold bump, count_of at 1. rewrite lookup_insert_eq. reflexivity. Qed.

Lemma count_of_bump_ne counts x y :
  x <> y -> count_of (bump counts x) y = count_of counts y.
Proof.
  intros Hne. unfold bump, count_of at 1.
  rewrite lookup_insert_ne by assumption. reflexivity.
Qed.

Lemma reaches_bump_ne target counts x y :
  x <> y -> reaches target (bump counts x) y = reaches target counts y.
Proof.
  intros Hne. unfold reaches. rewrite count_of_bump_ne by assumption.
  reflexivity.
Qed.

Lemma count_of_bump_all counts p y :
  NoDup p ->
  count_of (foldl bump counts p) y
  = count_of counts y + (if decide (y ∈ p) then 1 else 0).
Proof.
  intros Hnd. revert counts.
  induction Hnd as [|x p Hx Hnd IH]; intros counts; cbn [foldl].
  - rewrite decide_False by apply not_elem_of_nil. lia.
  - rewrite IH. destruct (decide (x = y)) as [->|Hne].
    + rewrite count_of_bump_eq.
      rewrite (decide_False (P := y ∈ p)) by assumption.
      rewrite decide_True by apply list_elem_of_here. lia.
    + rewrite count_of_bump_ne by assumption.
      destruct (decide (y ∈ p)) as [Hin|Hnin].
      * rewrite decide_True by (apply list_elem_of_further; assumption). lia.
      * rewrite decide_False; [lia|].
        apply not_elem_of_cons. split; [congruence | assumption].
Qed.

Lemma occurrences_snoc y ps p :
  occurrences y (ps ++ [p])
  = occurrences y ps + (if decide (y ∈ p) then 1 else 0).
Proof.
  unfold occurrences. rewrite filter_app, length_app. f_equal.
  rewrite filter_cons, filter_nil. destruct (decide (y ∈ p)); reflexivity.
Qed.

Lemma occurrences_le y ps : occurrences y ps <= length ps.
Proof. apply length_filter. Qed.

Lemma occurrences_all y ps :
  occurrences y ps = length ps <-> (forall p, p ∈ ps -> y ∈ p).
Proof.
  unfold occurrences. induction ps as [|p ps IH].
  - split; [|reflexivity]. intros _ p Hp. inversion Hp.
  - rewrite filter_cons. destruct (decide (y ∈ p)) as [Hin|Hnin]; simpl.
    + split.
      * intros Hlen q Hq. apply elem_of_cons in Hq as [->|Hq]; [assumption|].
        apply IH; [lia | assumption].
      * intros Hall. f_equal. apply IH. intros q Hq. apply Hall.
        apply list_elem_of_further. assumption.
    + split.
      * intros Hlen. pose proof (length_filter (fun p => y ∈ p) ps). lia.
      * intros Hall. exfalso. apply Hnin, Hall, list_elem_of_here.
Qed.

(** With the threshold 1.0 the target is the number of taxa. *)
Lemma reaches_full n counts x :
  reaches (Q_of_nat n * clamp_threshold 1) counts x = true
  <-> n <= S (count_of counts x).
Proof.
  unfold reaches. rewrite Qle_bool_iff.
  change (clamp_threshold 1) with 1%Q. rewrite Qmult_1_r.
  unfold Q_of_nat. rewrite <- Zle_Qle. lia.
Qed.

Lemma first_hit_split (f : string -> bool) (p : list string) :
  (forall x, x ∈ p -> f x = false)
  \/ exists a x b, p = a ++ x :: b /\ (forall y, y ∈ a -> f y = false) /\ f x = true.
Proof.
  induction p as [|z p IH].
  - left. intros x Hx. inversion Hx.
  - destruct (f z) eqn:Hz.
    + right. exists [], z, p. split; [reflexivity|].
      split; [|assumption]. intros y Hy. inversion Hy.
    + destruct IH as [Hnone | (a & x & b & -> & Ha & Hx)].
      * left. intros x Hx. apply elem_of_cons in Hx as [->|Hx]; auto.
      * right. exists (z :: a), x, b. split; [reflexivity|].
        split; [|assumption].
        intros y Hy. apply elem_of_cons in Hy as [->|Hy]; auto.
Qed.

Section lca_walks.

Variable tree : Tree.
Variable count_target : Q.

Lemma lca_walk_step fuel counts id :
  id <> "1" ->
  lca_walk (S fuel) tree count_target counts id
  = match tree !! id with
    | None => Raise AttributeError
    | Some node =>
        if reaches count_target counts id
        then Ok (bump counts id, Some (taxonomy node))
        else lca_walk fuel tree count_target (bump counts id) (parent_id node)
    end.
Proof.
  intros Hid. apply String.eqb_neq in Hid.
  cbn [lca_walk]. rewrite Hid. reflexivity.
Qed.

(** A walk on which no count reaches the target goes up to the root and
    leaves every id of the walk counted once more. *)
Lemma lca_walk_miss fuel counts id p :
  path tree id p -> length p < fuel ->
  (forall x, x ∈ p -> reaches count_target counts x = false) ->
  lca_walk fuel tree count_target counts id = Ok (foldl bump counts p, None).
Proof.
  intros Hp. revert fuel counts.
  induction Hp as [|id node p Hid Hnode Hp IH]; intros fuel counts Hfuel Hmiss;
    (destruct fuel as [|fuel]; [simpl in Hfuel; lia|]).
  - reflexivity.
  - assert (NoDup (id :: p)) as Hnd
      by (eapply path_NoDup; econstructor; eassumption).
    apply NoDup_cons in Hnd as [Hnin _].
    rewrite lca_walk_step by assumption. rewrite Hnode.
    rewrite (Hmiss id) by apply list_elem_of_here.
    simpl. apply IH; [simpl in Hfuel; lia|].
    intros x Hx. rewrite reaches_bump_ne by (intros ->; contradiction).
    apply Hmiss. apply list_elem_of_further. assumption.
Qed.

(** A walk stops at the first id whose count reaches the target, and the
    name stored for that id is returned. *)
Lemma lca_walk_hit fuel counts id p a x b :
  path tree id p -> length p < fuel -> p = a ++ x :: b ->
  (forall y, y ∈ a -> reaches count_target counts y = false) ->
  reaches count_target counts x = true ->
  exists counts' node,
    tree !! x = Some node
    /\ lca_walk fuel tree count_target counts id
       = Ok (counts', Some (taxonomy node)).
Proof.
  intros Hp. revert fuel counts a.
  induction Hp as [|id node p Hid Hnode Hp IH]; intros fuel counts a Hfuel Heq Ha Hx.
  - destruct a; discriminate.
  - destruct fuel as [|fuel]; [simpl in Hfuel; lia|].
    assert (NoDup (id :: p)) as Hnd
      by (eapply path_NoDup; econstructor; eassumption).
    apply NoDup_cons in Hnd as [Hnin _].
    rewrite lca_walk_step by assumption. rewrite Hnode.
    destruct a as [|z a]; simpl in Heq; simplify_eq.
    + rewrite Hx. eauto.
    + rewrite (Ha z) by apply list_elem_of_here.
      assert (forall y, y ∈ a ++ x :: b -> z <> y) as Hne
        by (intros y Hy ->; contradiction).
      apply (IH fuel (bump counts z) a); [simpl in Hfuel; lia | reflexivity | |].
      * intros y Hy. rewrite reaches_bump_ne.
        -- apply Ha. apply list_elem_of_further. assumption.
        -- apply Hne. apply elem_of_app. left. assumption.
      * rewrite reaches_bump_ne; [assumption|].
        apply Hne. apply elem_of_app. right. apply list_elem_of_here.
Qed.

End lca_walks.

(** ** LCA at threshold 1.0 *)

Section lca_full.

Variable tree : Tree.

Lemma on_all_reaches n done counts y :
  (forall z, count_of counts z = occurrences z done) ->
  n = S (length done) ->
  reaches (full_target n) counts y = true <-> (forall p, p ∈ done -> y ∈ p).
Proof.
  intros Hinv Hn. unfold full_target. rewrite reaches_full, Hinv, <- occurrences_all.
  pose proof (occurrences_le y done). lia.
Qed.

Lemma lca_loop_spec fuel todo todo_ps :
  walks_of tree todo todo_ps ->
  forall done counts,
    todo <> [] ->
    (forall z, count_of counts z = occurrences z done) ->
    Forall (fun p => length p < fuel) todo_ps ->
    exists r,
      lca_loop fuel tree (full_target (length done + length todo)) counts todo = Ok r
      /\ deepest_on_all tree (done ++ todo_ps) r.
Proof.
  induction 1 as [|taxon p rest ps (node & Hnode & Hp) Hrest IH];
    intros done counts Hne Hinv Hfuel; [congruence|].
  apply Forall_cons in Hfuel as [Hfp Hfuel].
  cbn [lca_loop]. rewrite Hnode.
  destruct rest as [|taxon' rest].
  - (* the last taxon *)
    inversion Hrest; subst. cbn [length]. rewrite Nat.add_1_r.
    set (n := S (length done)).
    destruct (first_hit_split (reaches (full_target n) counts) p)
      as [Hmiss | (a & x & b & Heq & Ha & Hx)].
    + rewrite (lca_walk_miss tree (full_target n) fuel counts _ p Hp Hfp Hmiss).
      cbn [bind lca_loop]. eexists. split; [reflexivity|].
      left. split; [reflexivity|]. intros y Hall.
      assert (y ∈ p) as Hy
        by (apply Hall, elem_of_app; right; apply list_elem_of_here).
      specialize (Hmiss y Hy).
      assert (reaches (full_target n) counts y = true) as Hhit.
      { apply (on_all_reaches n done); [assumption | reflexivity |].
        intros q Hq. apply Hall, elem_of_app. left. assumption. }
      congruence.
    + destruct (lca_walk_hit tree (full_target n) fuel counts _ p a x b
                  Hp Hfp Heq Ha Hx) as (counts' & nodex & Hnodex & ->).
      cbn [bind]. eexists. split; [reflexivity|].
      right. exists x, nodex, b.
      split; [assumption|]. split; [reflexivity|].
      split; [eapply path_suffix; eassumption|].
      split.
      * intros q Hq. apply elem_of_app in Hq as [Hq|Hq].
        -- revert q Hq. apply (on_all_reaches n done counts x); auto.
        -- apply list_elem_of_singleton in Hq as ->. rewrite Heq.
           apply elem_of_app. right. apply list_elem_of_here.
      * intros y Hall.
        assert (y ∈ p) as Hy
          by (apply Hall, elem_of_app; right; apply list_elem_of_here).
        assert (reaches (full_target n) counts y = true) as Hhit.
        { apply (on_all_reaches n done); [assumption | reflexivity |].
          intros q Hq. apply Hall, elem_of_app. left. assumption. }
        rewrite Heq in Hy. apply elem_of_app in Hy as [Hy|Hy]; [|assumption].
        specialize (Ha y Hy). congruence.
  - (* more taxa follow: no count can reach the target yet *)
    assert (forall x, x ∈ p ->
              reaches (full_target (length done + length (taxon :: taxon' :: rest)))
                counts x = false) as Hmiss.
    { intros x _. apply not_true_iff_false. unfold full_target.
      rewrite reaches_full, Hinv. cbn [length].
      pose proof (occurrences_le x done). lia. }
    rewrite (lca_walk_miss tree _ fuel counts _ p Hp Hfp Hmiss).
    cbn [bind].
    destruct (IH (done ++ [p]) (foldl bump counts p)) as (r & Hr & Hpost).
    + discriminate.
    + intros z. rewrite count_of_bump_all by (eapply path_NoDup; eassumption).
      rewrite occurrences_snoc, Hinv. reflexivity.
    + assumption.
    + exists r. split.
      * rewrite <- Hr. f_equal. f_equal. rewrite length_app. cbn [length]. lia.
      * rewrite <- app_assoc in Hpost. exact Hpost.
Qed.

End lca_full.

Section lca_common.

Variable tree : Tree.

Lemma walks_exist taxonomies :
  (forall taxon, taxon ∈ taxonomies -> exists lin, lineage_of tree taxon lin) ->
  exists ps, walks_of tree taxonomies ps.
Proof.
  induction taxonomies as [|taxon rest IH]; intros Hall.
  - exists []. constructor.
  - destruct (Hall taxon (list_elem_of_here _ _)) as (lin & node & p & Hnode & Hp & _).
    destruct IH as [ps Hps].
    { intros t Ht. apply Hall, list_elem_of_further, Ht. }
    exists (p :: ps). constructor; [eauto | assumption].
Qed.

Lemma common_ancestor_cons taxon rest y :
  common_ancestor tree (taxon :: rest) y
  <-> (forall lin, lineage_of tree taxon lin -> y ∈ lin)
      /\ common_ancestor tree rest y.
Proof.
  unfold common_ancestor. split.
  - intros Hc. split.
    + intros lin. apply Hc, list_elem_of_here.
    + intros t lin Ht. apply Hc, list_elem_of_further, Ht.
  - intros [Hhd Htl] t lin Ht Hlin. apply elem_of_cons in Ht as [->|Ht].
    + apply Hhd. assumption.
    + apply (Htl t); assumption.
Qed.

Lemma in_lineage_on_walk taxon node p y :
  tree !! taxon = Some node -> path tree (node_id node) p -> y <> "1" ->
  (forall lin, lineage_of tree taxon lin -> y ∈ lin) <-> y ∈ p.
Proof.
  intros Hnode Hp Hy. split.
  - intros Hin. specialize (Hin ("1" :: reverse p)).
    apply elem_of_cons in Hin as [?|Hin]; [congruence | |].
    + apply elem_of_reverse. assumption.
    + exists node, p. auto.
  - intros Hin lin (node' & p' & Hnode' & Hp' & ->).
    assert (node' = node) as -> by congruence.
    rewrite (path_functional _ _ _ _ Hp' Hp).
    apply list_elem_of_further, elem_of_reverse. assumption.
Qed.

Lemma common_on_all taxonomies ps y :
  walks_of tree taxonomies ps -> y <> "1" ->
  common_ancestor tree taxonomies y <-> (forall p, p ∈ ps -> y ∈ p).
Proof.
  intros Hw Hy.
  induction Hw as [|taxon p rest ps (node & Hnode & Hp) Hrest IH].
  - split.
    + intros _ p Hp. inversion Hp.
    + intros _ t lin Ht. inversion Ht.
  - rewrite common_ancestor_cons, IH.
    rewrite (in_lineage_on_walk taxon node p y) by assumption.
    split.
    + intros [Hhd Htl] q Hq. apply elem_of_cons in Hq as [->|Hq]; auto.
    + intros Hall. split.
      * apply Hall, list_elem_of_here.
      * intros q Hq. apply Hall, list_elem_of_further, Hq.
Qed.

Lemma length_le_concat (ps : list (list string)) p :
  p ∈ ps -> length p <= length (concat ps).
Proof.
  induction 1 as [p ps|p q ps Hin IH]; simpl; rewrite length_app; lia.
Qed.

(** C5.  When every taxon of the list is in the tree and its walk reaches
    the root, [lca] at threshold 1.0 returns, given enough fuel for the
    walks: "root" when the list is empty or the root "1" is the only id
    common to all the lineages; and otherwise the name stored for an id [x],
    other than the root, that is in the lineage of every taxon and is the
    deepest such id, every id common to all the lineages being in the
    lineage of [x]. *)
Theorem lca_full_threshold_deepest_common taxonomies :
  (forall taxon, taxon ∈ taxonomies -> exists lin, lineage_of tree taxon lin) ->
  exists fuel0, forall fuel, fuel0 <= fuel ->
    exists r,
      lca fuel tree taxonomies 1 = Ok r
      /\ ((r = "root"
           /\ (taxonomies = []
               \/ forall y, common_ancestor tree taxonomies y -> y = "1"))
          \/ exists x node b,
               x <> "1" /\ tree !! x = Some node /\ r = taxonomy node
               /\ path tree x (x :: b)
               /\ common_ancestor tree taxonomies x
               /\ forall y, common_ancestor tree taxonomies y ->
                    y ∈ "1" :: reverse (x :: b)).
Proof.
  intros Hall. destruct (walks_exist taxonomies Hall) as [ps Hps].
  exists (S (length (concat ps))). intros fuel Hfuel.
  destruct taxonomies as [|taxon rest].
  { exists "root". split; [reflexivity|]. left. auto. }
  destruct (lca_loop_spec tree fuel (taxon :: rest) ps Hps [] ∅)
    as (r & Hr & Hpost).
  - discriminate.
  - intros z. reflexivity.
  - apply Forall_forall. intros p Hp.
    pose proof (length_le_concat ps p Hp). lia.
  - exists r. split; [exact Hr|].
    destruct Hpost as [[-> Hnone] | (x & node & b & Hnode & -> & Hpx & Hx & Hdeep)].
    + left. split; [reflexivity|]. right. intros y Hy.
      destruct (decide (y = "1")) as [|Hne]; [assumption|].
      exfalso. apply (Hnone y).
      exact (proj1 (common_on_all _ ps y Hps Hne) Hy).
    + assert (x <> "1") as Hxr by (inversion Hpx; assumption).
      right. exists x, node, b.
      split; [assumption|]. split; [assumption|]. split; [reflexivity|].
      split; [assumption|]. split.
      * exact (proj2 (common_on_all _ ps x Hps Hxr) Hx).
      * intros y Hy. destruct (decide (y = "1")) as [->|Hne].
        -- apply list_elem_of_here.
        -- apply list_elem_of_further, elem_of_reverse, Hdeep.
           exact (proj1 (common_on_all _ ps y Hps Hne) Hy).
Qed.

End lca_common.

Lemma example_lineage_gamma :
  lineage_of example_tree "1236" ["1"; "2"; "1224"; "1236"].
Proof.
  exists (mkNode "Gammaproteobacteria" "1236" "1224"), ["1236"; "1224"; "2"].
  split; [reflexivity|]. split; [|reflexivity].
  apply (path_step _ "1236" (mkNode "Gammaproteobacteria" "1236" "1224"));
    [discriminate | reflexivity |].
  apply (path_step _ "1224" (mkNode "Proteobacteria" "1224" "2"));
    [discriminate | reflexivity |].
  apply (path_step _ "2" (mkNode "Bacteria" "2" "1"));
    [discriminate | reflexivity |].
  apply path_root.
Qed.

Lemma example_lineage_alpha :
  lineage_of example_tree "Alphaproteobacteria" ["1"; "2"; "1224"; "28211"].
Proof.
  exists (mkNode "Alphaproteobacteria" "28211" "1224"), ["28211"; "1224"; "2"].
  split; [reflexivity|]. split; [|reflexivity].
  apply (path_step _ "28211" (mkNode "Alphaproteobacteria" "28211" "1224"));
    [discriminate | reflexivity |].
  apply (path_step _ "1224" (mkNode "Proteobacteria" "1224" "2"));
    [discriminate | reflexivity |].
  apply (path_step _ "2" (mkNode "Bacteria" "2" "1"));
    [discriminate | reflexivity |].
  apply path_root.
Qed.

Lemma lca_full_threshold_deepest_common_witness :
  exists fuel0, forall fuel, fuel0 <= fuel ->
    exists r, lca fuel example_tree ["1236"; "Alphaproteobacteria"] 1 = Ok r.
Proof.
  destruct (lca_full_threshold_deepest_common example_tree
              ["1236"; "Alphaproteobacteria"]) as [fuel0 Hfuel].
  - intros taxon Hin.
    apply elem_of_cons in Hin as [->|Hin];
      [eexists; apply example_lineage_gamma|].
    apply elem_of_cons in Hin as [->|Hin];
      [eexists; apply example_lineage_alpha|].
    inversion Hin.
  - exists fuel0. intros fuel Hle.
    destruct (Hfuel fuel Hle) as (r & Hr & _). exists r. exact Hr.
Defined.

Example lca_example :
  lca 10 example_tree ["1236"; "Alphaproteobacteria"] 1 = Ok "Proteobacteria".
Proof. reflexivity. Qed.

(** ** Nettleton test *)

(** A key that does not occur in the items fails the assertion. *)
Lemma nettleton_pvalue_absent items key :
  key ∉ items -> nettleton_pvalue items key = Raise AssertionError.
Proof.
  intros Hnin. unfold nettleton_pvalue.
  rewrite bool_decide_eq_false_2 by assumption. reflexivity.
Qed.

(** C7.  For a key that occurs in the items (the function's assertion),
    [nettleton_pvalue] returns 1: for every input of one element; whenever the
    count of the key does not exceed the runner-up count [max_count] the
    function computes, which is always defined; and, in particular, whenever
    the two largest counts are equal. *)
Theorem nettleton_pvalue_one items key :
  key ∈ items ->
  (length items = 1 -> nettleton_pvalue items key = Ok P_one)
  /\ (exists max_count, runner_up (Counter.of_list items) key = Ok max_count)
  /\ (forall max_count,
        runner_up (Counter.of_list items) key = Ok max_count ->
        Counter.get (Counter.of_list items) key <= max_count ->
        nettleton_pvalue items key = Ok P_one)
  /\ (forall k0 k1 c rest,
        Counter.most_common (Counter.of_list items) = (k0, c) :: (k1, c) :: rest ->
        nettleton_pvalue items key = Ok P_one).
Proof.
  intros Hkey.
  assert (forall max_count,
            runner_up (Counter.of_list items) key = Ok max_count ->
            Counter.get (Counter.of_list items) key <= max_count ->
            nettleton_pvalue items key = Ok P_one) as Hle.
  { intros max_count Hrun Hcmp. unfold nettleton_pvalue.
    rewrite bool_decide_eq_true_2 by assumption. cbn [negb].
    destruct (length items =? 1); [reflexivity|].
    rewrite Hrun. cbn [bind].
    apply Nat.leb_le in Hcmp. rewrite Hcmp. reflexivity. }
  split; [|split; [|split]].
  - intros Hlen. unfold nettleton_pvalue.
    rewrite bool_decide_eq_true_2 by assumption. cbn [negb].
    rewrite Hlen. reflexivity.
  - unfold runner_up.
    pose proof (most_common_nonempty items key Hkey) as Hne.
    destruct (Counter.most_common (Counter.of_list items)) as [|[k0 c0] rest];
      [congruence|].
    destruct (String.eqb k0 key); [|eauto].
    destruct rest as [|[k1 c1] rest]; eauto.
  - exact Hle.
  - intros k0 k1 c rest Hmc.
    destruct (most_common_head_max items k0 c _ key Hmc Hkey) as [Hmax _].
    apply (Hle c); [|exact Hmax].
    unfold runner_up. rewrite Hmc. destruct (String.eqb k0 key); reflexivity.
Qed.

Lemma nettleton_pvalue_one_witness :
  nettleton_pvalue ["X"] "X" = Ok P_one
  /\ nettleton_pvalue ["X"; "Y"; "Y"; "X"] "Y" = Ok P_one.
Proof.
  split.
  - apply (nettleton_pvalue_one ["X"] "X"); [apply list_elem_of_here | reflexivity].
  - assert ("Y" ∈ ["X"; "Y"; "Y"; "X"]) as Hin
      by (apply list_elem_of_further, list_elem_of_here).
    destruct (nettleton_pvalue_one ["X"; "Y"; "Y"; "X"] "Y" Hin)
      as (_ & _ & _ & Htie).
    apply (Htie "X" "Y" 2 []). reflexivity.
Defined.

(** * Further properties of the accumulator *)

Lemma insert_at_perm {A} i (x : A) (l : list A) : insert_at i x l ≡ₚ x :: l.
Proof.
  unfold insert_at. rewrite <- Permutation_middle, take_drop. reflexivity.
Qed.

Lemma zip_insert_at {A B} i (x : A) (y : B) (l : list A) (k : list B) :
  length l = length k ->
  zip (insert_at i x l) (insert_at i y k) = insert_at i (x, y) (zip l k).
Proof.
  intros Hlen. unfold insert_at.
  rewrite zip_with_app by (rewrite !length_take; lia).
  cbn [zip_with]. rewrite zip_with_take, zip_with_drop. reflexivity.
Qed.

Lemma zip_tail {A B} (l : list A) (k : list B) :
  zip (tail l) (tail k) = tail (zip l k).
Proof. destruct l as [|x [|x' l]], k as [|y k]; reflexivity. Qed.

Lemma hits_insert_hit self taxonomy bitscore :
  length (names self) = length (bitscores self) ->
  hits (insert_hit self taxonomy bitscore)
  = insert_at (bisect_left (bitscores self) bitscore) (taxonomy, bitscore)
      (hits self).
Proof. intros Hlen. unfold hits, insert_hit. cbn [names bitscores]. apply zip_insert_at, Hlen. Qed.

Lemma hits_bound_hits max_hits self :
  hits (bound_hits max_hits self)
  = if max_hits <? length (names self) then tail (hits self) else hits self.
Proof.
  unfold bound_hits, hits. destruct (max_hits <? length (names self)).
  - cbn [names bitscores]. apply zip_tail.
  - reflexivity.
Qed.

Lemma length_hits self :
  length (names self) = length (bitscores self) ->
  length (hits self) = length (names self).
Proof. intros Hlen. unfold hits. rewrite length_zip. lia. Qed.

(** On a sorted deque whose lowest score is not below [x], the insertion
    point of [x] is the front. *)
Lemma bisect_left_front a x :
  StronglySorted Qle a ->
  (forall s, head a = Some s -> (x <= s)%Q) ->
  bisect_left a x = 0.
Proof.
  intros Hs Hlow. destruct (bisect_left_spec a x Hs) as (Hr & Hlt & _).
  destruct (bisect_left a x) as [|r] eqn:Er; [reflexivity|].
  destruct a as [|s a]; [simpl in Hr; lia|].
  specialize (Hlt 0 s (Nat.lt_0_succ r) eq_refl).
  specialize (Hlow s eq_refl). exfalso. apply (Qlt_not_le _ _ Hlt Hlow).
Qed.

(** X1.  A full accumulator does not take a hit whose bitscore is not above
    the lowest retained one: the hit, inserted at the front, is the entry
    the bound removes, and the accumulator is left exactly as it was,
    whatever [top_fraction] is. *)
Theorem add_full_not_above_lowest
    max_hits self taxonomy bitscore top_fraction :
  hits_inv max_hits self ->
  length (names self) = max_hits ->
  (forall s, head (bitscores self) = Some s -> (bitscore <= s)%Q) ->
  add self taxonomy bitscore max_hits top_fraction = self.
Proof.
  intros (Hs & Hlen & _) Hfull Hlow.
  destruct (add_cases self taxonomy bitscore max_hits top_fraction)
    as [-> | ->]; [reflexivity|].
  unfold bound_hits, insert_hit. cbn [names bitscores].
  rewrite (bisect_left_front _ _ Hs Hlow).
  unfold insert_at. rewrite !take_0, !drop_0. cbn [app length tail].
  rewrite <- Hfull, (proj2 (Nat.ltb_lt _ _)) by lia.
  destruct self; reflexivity.
Qed.

Lemma add_full_not_above_lowest_witness :
  add (mkBlastHits ["A"; "B"] [10%Q; 20%Q]) "C" 10%Q 2 None
  = mkBlastHits ["A"; "B"] [10%Q; 20%Q].
Proof.
  apply (add_full_not_above_lowest 2 (mkBlastHits ["A"; "B"] [10%Q; 20%Q])).
  - split; [|split; [reflexivity | simpl; lia]].
    repeat constructor. apply Qle_bool_iff. reflexivity.
  - reflexivity.
  - intros s Hs. injection Hs as <-. apply Qle_bool_iff. reflexivity.
Defined.

Lemma last_insert_at_inside {A} i (x : A) (l : list A) :
  i < length l -> last (insert_at i x l) = last l.
Proof.
  intros Hi. rewrite !last_lookup, length_insert_at. cbn [pred].
  unfold insert_at. rewrite lookup_app_r by (rewrite length_take; lia).
  rewrite length_take, Nat.min_l by lia.
  destruct (length l - i) as [|d] eqn:Hd; [lia|].
  change ((x :: drop i l) !! S d) with (drop i l !! d).
  rewrite lookup_drop. f_equal. lia.
Qed.

Lemma last_insert_at_end {A} i (x : A) (l : list A) :
  length l <= i -> last (insert_at i x l) = Some x.
Proof.
  intros Hi. unfold insert_at. rewrite take_ge, drop_ge by assumption.
  apply last_snoc.
Qed.

Lemma last_tail {A} (l : list A) : 2 <= length l -> last (tail l) = last l.
Proof.
  intros Hlen. destruct l as [|x [|y l]]; simpl in Hlen; try lia. reflexivity.
Qed.

Lemma add_plain self taxonomy bitscore max_hits :
  ~ (bitscore == 0)%Q ->
  add self taxonomy bitscore max_hits None
  = bound_hits max_hits (insert_hit self taxonomy bitscore).
Proof.
  intros Hnz. apply truthy_true_iff in Hnz. unfold add, cutoff.
  rewrite Hnz. reflexivity.
Qed.

(** X2.  After an [add] without [top_fraction] of a non-zero bitscore into
    an accumulator bounded by a positive [max_hits], [best_hit] is the new
    taxon when the accumulator was empty or the new bitscore is strictly
    above the best retained one, and it is the former best hit otherwise: on a
    tie with the best score the earlier hit stays the best hit. *)
Theorem best_hit_after_add max_hits self taxonomy bitscore :
  hits_inv max_hits self ->
  0 < max_hits ->
  ~ (bitscore == 0)%Q ->
  best_hit (add self taxonomy bitscore max_hits None)
  = Ok (match last (names self), last (bitscores self) with
        | Some n, Some best => if Qlt_bool best bitscore then taxonomy else n
        | _, _ => taxonomy
        end).
Proof.
  intros (Hs & Hlen & Hmax) Hpos Hnz.
  rewrite add_plain by assumption.
  destruct (bisect_left_spec (bitscores self) bitscore Hs) as (Hr & Hlt & Hge).
  set (idx := bisect_left (bitscores self) bitscore) in *.
  assert (last (names (bound_hits max_hits (insert_hit self taxonomy bitscore)))
          = last (insert_at idx taxonomy (names self))) as Hbound.
  { unfold bound_hits. cbn [names insert_hit]. fold idx.
    destruct (Nat.ltb_spec max_hits (length (insert_at idx taxonomy (names self))))
      as [Hover|_]; [|reflexivity].
    cbn [names]. apply last_tail. lia. }
  unfold best_hit. rewrite Hbound.
  destruct (last (names self)) as [n|] eqn:Hln.
  - destruct (last (bitscores self)) as [best|] eqn:Hlb.
    + rewrite last_lookup in Hlb.
      assert (0 < length (bitscores self))
        by (apply lookup_lt_Some in Hlb; lia).
      destruct (Qlt_bool best bitscore) eqn:Hcmp.
      * apply Qlt_bool_iff in Hcmp.
        assert (idx = length (bitscores self)) as Hidx.
        { destruct (decide (idx = length (bitscores self))); [assumption|].
          exfalso. apply (Qlt_not_le _ _ Hcmp).
          apply (Hge (pred (length (bitscores self)))); [lia | assumption]. }
        rewrite last_insert_at_end by lia. reflexivity.
      * apply Qlt_bool_false_iff in Hcmp.
        assert (idx < length (bitscores self)) as Hidx.
        { destruct (decide (idx = length (bitscores self))) as [Heq|]; [|lia].
          exfalso. eapply Qlt_not_le; [|exact Hcmp].
          apply (Hlt (pred (length (bitscores self)))); [lia | assumption]. }
        rewrite last_insert_at_inside by lia. rewrite Hln. reflexivity.
    + rewrite last_None in Hlb. rewrite last_lookup in Hln.
      apply lookup_lt_Some in Hln. rewrite Hlen, Hlb in Hln. simpl in Hln. lia.
  - rewrite last_None in Hln. rewrite Hln. rewrite last_insert_at_end; [reflexivity|].
    simpl. lia.
Qed.

Lemma best_hit_after_add_witness :
  best_hit (add (mkBlastHits ["A"; "B"] [10%Q; 20%Q]) "C" 20%Q 5 None) = Ok "B"
  /\ best_hit (add (mkBlastHits ["A"; "B"] [10%Q; 20%Q]) "C" 21%Q 5 None)
     = Ok "C".
Proof.
  assert (hits_inv 5 (mkBlastHits ["A"; "B"] [10%Q; 20%Q])) as Hinv.
  { split; [|split; [reflexivity | simpl; lia]].
    repeat constructor. apply Qle_bool_iff. reflexivity. }
  split.
  - apply (best_hit_after_add 5 _ "C" 20%Q Hinv); [lia | discriminate].
  - apply (best_hit_after_add 5 _ "C" 21%Q Hinv); [lia | discriminate].
Defined.

(** X3.  When no taxon is repeated, [majority] is [best_hit] and leaves the
    accumulator as it is; on the empty accumulator this is the [IndexError]
    of [best_hit]. *)
Theorem majority_distinct_is_best_hit self :
  NoDup (names self) -> majority self = (best_hit self, self).
Proof.
  intros Hnd. unfold majority.
  rewrite (size_list_to_set (C := gset string)) by assumption.
  rewrite Nat.eqb_refl. reflexivity.
Qed.

Lemma majority_distinct_is_best_hit_witness :
  majority (mkBlastHits ["A"; "B"] [10%Q; 20%Q])
  = (Ok "B", mkBlastHits ["A"; "B"] [10%Q; 20%Q])
  /\ majority new_hits = (Raise IndexError, new_hits).
Proof.
  split.
  - apply (majority_distinct_is_best_hit (mkBlastHits ["A"; "B"] [10%Q; 20%Q])).
    apply NoDup_cons. split; [|apply NoDup_singleton].
    intros Hin. apply list_elem_of_singleton in Hin. discriminate.
  - apply (majority_distinct_is_best_hit new_hits). constructor.
Defined.

(** X4.  [add] never changes the bitscore a taxon is stored with: when the
    two deques have the same length, the (taxon, bitscore) pairs retained
    afterwards are, counted with repetitions, among the pairs retained before
    and the incoming pair. *)
Theorem add_keeps_pairs self taxonomy bitscore max_hits top_fraction :
  length (names self) = length (bitscores self) ->
  hits (add self taxonomy bitscore max_hits top_fraction)
  ⊆+ (taxonomy, bitscore) :: hits self.
Proof.
  intros Hlen.
  destruct (add_cases self taxonomy bitscore max_hits top_fraction)
    as [-> | ->].
  - apply submseteq_cons. reflexivity.
  - rewrite hits_bound_hits, (hits_insert_hit _ _ _ Hlen).
    set (ins := insert_at _ _ _).
    assert (ins ⊆+ (taxonomy, bitscore) :: hits self) as Hins
      by (apply Permutation_submseteq, insert_at_perm).
    destruct (max_hits <? _); [|exact Hins].
    etransitivity; [|exact Hins].
    destruct ins as [|h ins]; [reflexivity|]. apply submseteq_cons. reflexivity.
Qed.

Lemma add_keeps_pairs_witness :
  hits (add (mkBlastHits ["A"; "B"] [10%Q; 20%Q]) "C" 15%Q 2 None)
  ⊆+ [("C", 15%Q); ("A", 10%Q); ("B", 20%Q)].
Proof.
  apply (add_keeps_pairs (mkBlastHits ["A"; "B"] [10%Q; 20%Q]) "C" 15%Q 2 None).
  reflexivity.
Defined.

Lemma length_tail_pred {A} (l : list A) : length (tail l) = pred (length l).
Proof. destruct l; reflexivity. Qed.

Lemma hits_scores self :
  length (names self) = length (bitscores self) ->
  snd <$> hits self = bitscores self.
Proof. intros Hlen. unfold hits. apply snd_zip. lia. Qed.

Lemma sorted_head_lowest (h : string * Q) (l : list (string * Q)) r :
  StronglySorted Qle (snd <$> (h :: l)) -> r ∈ l -> (snd h <= snd r)%Q.
Proof.
  intros Hs Hr. rewrite fmap_cons in Hs. apply StronglySorted_inv in Hs as [_ Hall].
  rewrite Forall_forall in Hall. apply Hall.
  apply (list_elem_of_fmap_2 snd) in Hr. exact Hr.
Qed.

(** One [add] of a plain call: the window invariant is kept, with at most one
    more evicted hit. *)
Lemma add_plain_window max_hits self taxonomy bitscore evicted :
  hits_inv max_hits self ->
  (evicted <> [] -> length (names self) = max_hits) ->
  evicted_below self evicted ->
  ~ (bitscore == 0)%Q ->
  let self' := add self taxonomy bitscore max_hits None in
  exists evicted',
    (evicted' <> [] -> length (names self') = max_hits)
    /\ evicted_below self' evicted'
    /\ hits self' ++ evicted' ≡ₚ (taxonomy, bitscore) :: hits self ++ evicted.
Proof.
  intros Hinv Hfull Hbelow Hnz self'.
  pose proof (add_inv max_hits self taxonomy bitscore None Hinv) as Hinv'.
  fold self' in Hinv'. destruct Hinv' as (Hs' & Hlen' & Hmax').
  destruct Hinv as (Hs & Hlen & Hmax).
  pose proof (insert_hit_sorted self taxonomy bitscore Hs) as Hsins.
  destruct (insert_hit_length self taxonomy bitscore) as [Hnins Hbins].
  assert (length (names (insert_hit self taxonomy bitscore))
          = length (bitscores (insert_hit self taxonomy bitscore))) as Hlins by lia.
  rewrite <- (hits_scores _ Hlins) in Hsins.
  destruct (bisect_left_spec (bitscores self) bitscore Hs) as (Hr & _ & Hge).
  assert (hits self' = if max_hits <? S (length (names self))
                       then tail (hits (insert_hit self taxonomy bitscore))
                       else hits (insert_hit self taxonomy bitscore)) as Hhits.
  { unfold self'. rewrite add_plain by assumption.
    rewrite hits_bound_hits, Hnins. reflexivity. }
  assert (length (names self') = if max_hits <? S (length (names self))
                                 then length (names self)
                                 else S (length (names self))) as Hlength.
  { rewrite <- (length_hits self') by assumption. rewrite Hhits.
    destruct (max_hits <? S (length (names self)));
      [rewrite length_tail_pred|]; rewrite (length_hits _ Hlins), Hnins;
      reflexivity. }
  pose proof (hits_insert_hit self taxonomy bitscore Hlen) as Hins.
  pose proof (insert_at_perm (bisect_left (bitscores self) bitscore)
                (taxonomy, bitscore) (hits self)) as Hperm.
  rewrite <- Hins in Hperm.
  destruct (Nat.ltb_spec max_hits (S (length (names self)))) as [Hover|Hroom].
  - (* the bound removes the head of the inserted deque *)
    assert (length (names self) = max_hits) as Hfull' by lia.
    destruct (hits (insert_hit self taxonomy bitscore)) as [|h rest] eqn:Eins.
    { apply Permutation_nil_cons in Hperm. contradiction. }
    cbn [tail] in Hhits.
    exists (h :: evicted). split; [intros _; lia|]. split.
    + intros e r He Hrin. rewrite Hhits in Hrin.
      apply elem_of_cons in He as [->|He];
        [eapply sorted_head_lowest; eassumption|].
      destruct (bisect_left (bitscores self) bitscore) as [|k] eqn:Ek.
      * unfold insert_at in Hins. rewrite take_0, drop_0 in Hins.
        cbn [app] in Hins. injection Hins as _ ->.
        apply Hbelow; assumption.
      * assert (h ∈ hits self) as Hh.
        { pose proof (length_hits self Hlen) as Hlh. unfold insert_at in Hins.
          destruct (hits self) as [|h0 hs] eqn:Eh.
          - simpl in Hlh. lia.
          - cbn [take app] in Hins. injection Hins as -> _.
            apply list_elem_of_here. }
        eapply Qle_trans; [apply (Hbelow e h He Hh)|].
        eapply sorted_head_lowest; eassumption.
    + rewrite Hhits. rewrite <- Permutation_middle.
      change (h :: rest ++ evicted) with ((h :: rest) ++ evicted).
      rewrite Hperm. reflexivity.
  - (* room left: nothing was evicted before, nothing is now *)
    assert (evicted = []) as ->.
    { destruct evicted as [|e ev]; [reflexivity|].
      assert (length (names self) = max_hits) by (apply Hfull; discriminate). lia. }
    exists []. split; [congruence|]. split.
    + intros e r He. inversion He.
    + rewrite Hhits, !app_nil_r. exact Hperm.
Qed.

Lemma add_all_window max_hits calls :
  Forall plain_call calls ->
  forall self evicted,
    hits_inv max_hits self ->
    (evicted <> [] -> length (names self) = max_hits) ->
    evicted_below self evicted ->
    exists evicted',
      (evicted' <> [] -> length (names (add_all max_hits calls self)) = max_hits)
      /\ evicted_below (add_all max_hits calls self) evicted'
      /\ hits (add_all max_hits calls self) ++ evicted'
         ≡ₚ hits self ++ evicted ++ (call_hit <$> calls).
Proof.
  induction 1 as [|[[t b] tf] calls [Htf Hnz] Hcalls IH];
    intros self evicted Hinv Hfull Hbelow.
  - exists evicted. cbn [add_all fold_left fmap list_fmap].
    rewrite app_nil_r. auto.
  - cbn [snd fst] in Htf, Hnz. subst tf.
    destruct (add_plain_window max_hits self t b evicted Hinv Hfull Hbelow Hnz)
      as (ev1 & Hfull1 & Hbelow1 & Hperm1).
    destruct (IH (add self t b max_hits None) ev1) as (ev2 & Hfull2 & Hbelow2 & Hperm2).
    + apply add_inv, Hinv.
    + exact Hfull1.
    + exact Hbelow1.
    + exists ev2. split; [exact Hfull2|]. split; [exact Hbelow2|].
      change (add_all max_hits ((t, b, None) :: calls) self)
        with (add_all max_hits calls (add self t b max_hits None)).
      rewrite Hperm2. rewrite (app_assoc _ ev1), Hperm1.
      rewrite fmap_cons. change (call_hit (t, b, None)) with (t, b).
      cbn [app]. rewrite <- !app_assoc.
      rewrite <- Permutation_middle. rewrite <- Permutation_middle.
      reflexivity.
Qed.

(** X5.  A run of [add] calls without [top_fraction] and with non-zero
    bitscores, started on the empty accumulator, keeps the best-scoring hits:
    the hits brought by the calls are the retained ones together with some
    evicted ones, no evicted hit has a bitscore above that of a retained hit,
    and the number of retained hits is the smaller of [max_hits] and the
    number of calls. *)
Theorem add_all_keeps_best max_hits calls :
  Forall plain_call calls ->
  let final := add_all max_hits calls new_hits in
  exists evicted,
    hits final ++ evicted ≡ₚ call_hit <$> calls
    /\ evicted_below final evicted
    /\ length (hits final) = min max_hits (length calls).
Proof.
  intros Hcalls final.
  destruct (add_all_window max_hits calls Hcalls new_hits [])
    as (evicted & Hfull & Hbelow & Hperm).
  - apply new_hits_inv.
  - congruence.
  - intros e r He. inversion He.
  - fold final in Hfull, Hbelow, Hperm. cbn [hits new_hits names bitscores zip_with app] in Hperm.
    exists evicted. split; [exact Hperm|]. split; [exact Hbelow|].
    destruct (add_all_inv max_hits calls new_hits (new_hits_inv max_hits))
      as (_ & Hlen & Hmax). fold final in Hlen, Hmax.
    rewrite (length_hits final Hlen).
    apply Permutation_length in Hperm.
    rewrite length_app, length_fmap, (length_hits final Hlen) in Hperm.
    destruct evicted as [|e evicted].
    + simpl in Hperm. lia.
    + rewrite Hfull by discriminate. simpl in Hperm.
      rewrite Hfull in Hperm by discriminate. lia.
Qed.

Lemma add_all_keeps_best_witness :
  exists evicted,
    hits (add_all 2 [("A", 10%Q, None); ("B", 20%Q, None); ("C", 5%Q, None)]
            new_hits) ++ evicted
    ≡ₚ [("A", 10%Q); ("B", 20%Q); ("C", 5%Q)].
Proof.
  destruct (add_all_keeps_best 2
              [("A", 10%Q, None); ("B", 20%Q, None); ("C", 5%Q, None)])
    as (evicted & Hperm & _).
  - repeat constructor; discriminate.
  - exists evicted. exact Hperm.
Defined.

(** * Further properties of the tree *)

(** ** Construction *)

(** What holds of every entry of a constructed tree: the key is the name or
    the id of the node, and a node is its own parent only if its id is "1". *)
Lemma add_node_entry (tree : Tree) name id parent (P : string -> Node -> Prop) :
  (forall key node, tree !! key = Some node -> P key node) ->
  P name (mkNode name id parent) -> P id (mkNode name id parent) ->
  forall key node,
    add_node tree name id parent !! key = Some node -> P key node.
Proof.
  intros Htree Hname Hid key node. unfold add_node.
  rewrite lookup_insert. destruct (decide (id = key)) as [<-|_].
  - intros [= <-]. exact Hid.
  - rewrite lookup_insert. destruct (decide (name = key)) as [<-|_].
    + intros [= <-]. exact Hname.
    + apply Htree.
Qed.

Lemma init_line_entries (P : string -> Node -> Prop) st line st' :
  (forall name id parent,
      (id = "1" \/ parent = "1" \/ id <> parent) ->
      P name (mkNode name id parent) /\ P id (mkNode name id parent)) ->
  init_line st line = Ok st' ->
  (forall key node, fst st !! key = Some node -> P key node) ->
  forall key node, fst st' !! key = Some node -> P key node.
Proof.
  intros HP. unfold init_line.
  destruct (split tab (strip line)) as [|a [|b [|c [|d toks]]]];
    cbn [tok lookup list_lookup bind length Nat.eqb negb]; try discriminate.
  - destruct (String.eqb b "1"); cbn [negb bind]; [|discriminate].
    intros [= <-]. cbn [fst]. auto.
  - destruct (String.eqb_spec b "1") as [->|Hb]; cbn [negb bind].
    + intros [= <-] Hst. cbn [fst]. apply add_node_entry; [exact Hst | |];
        apply HP; auto.
    + destruct (String.eqb_spec c "1") as [->|Hc]; cbn [negb bind].
      * intros [= <-] Hst. cbn [fst]. apply add_node_entry; [exact Hst | |];
          apply HP; auto.
      * destruct (String.eqb_spec b c) as [->|Hbc]; cbn [bind]; [discriminate|].
        intros [= <-] Hst. cbn [fst]. apply add_node_entry; [exact Hst | |];
          apply HP; auto.
  - destruct (String.eqb b "1"); cbn [negb bind].
    + intros [= <-]. cbn [fst]. auto.
    + destruct (String.eqb c "1"); cbn [negb bind].
      * intros [= <-]. cbn [fst]. auto.
      * destruct (String.eqb b c); cbn [bind]; [discriminate|].
        intros [= <-]. cbn [fst]. auto.
Qed.

Lemma init_lines_entries (P : string -> Node -> Prop) lines :
  (forall name id parent,
      (id = "1" \/ parent = "1" \/ id <> parent) ->
      P name (mkNode name id parent) /\ P id (mkNode name id parent)) ->
  forall st st',
    init_lines st lines = Ok st' ->
    (forall key node, fst st !! key = Some node -> P key node) ->
    forall key node, fst st' !! key = Some node -> P key node.
Proof.
  intros HP. induction lines as [|line lines IH]; intros st st'; cbn [init_lines].
  - intros [= <-]. auto.
  - destruct (init_line st line) as [st1| |] eqn:Hline; cbn [bind];
      try discriminate.
    intros Hrest Hst. apply (IH st1 st' Hrest).
    apply (init_line_entries P st line st1 HP Hline Hst).
Qed.

(** X6.  In a tree that [Tree.__init__] returns, every key is the name or the
    id of the node stored under it, and a node whose parent id is its own id
    has the id "1". *)
Theorem Tree_init_entries lines tree log :
  Tree_init lines = Ok (tree, log) ->
  forall key node,
    tree !! key = Some node ->
    (key = taxonomy node \/ key = node_id node)
    /\ (node_id node = parent_id node -> node_id node = "1").
Proof.
  intros Hinit.
  apply (init_lines_entries
           (fun key node =>
              (key = taxonomy node \/ key = node_id node)
              /\ (node_id node = parent_id node -> node_id node = "1"))
           lines) with (st := (∅, [])) (st' := (tree, log)).
  - intros name id parent Hok. cbn [taxonomy node_id parent_id].
    split; (split; [auto|]); intros Heq; destruct Hok as [?|[?|?]]; congruence.
  - exact Hinit.
  - intros key node Hlook. cbn [fst] in Hlook. rewrite lookup_empty in Hlook.
    discriminate.
Qed.

Lemma Tree_init_entries_witness :
  Tree_init example_lines = Ok (example_tree, [])
  /\ example_tree !! "1236" = Some (mkNode "Gammaproteobacteria" "1236" "1224")
  /\ ("1236" = "Gammaproteobacteria" \/ "1236" = "1236").
Proof.
  assert (Tree_init example_lines = Ok (example_tree, [])) as Hinit
    by reflexivity.
  assert (example_tree !! "1236"
          = Some (mkNode "Gammaproteobacteria" "1236" "1224")) as Hlook
    by reflexivity.
  split; [exact Hinit|]. split; [exact Hlook|].
  exact (proj1 (Tree_init_entries example_lines example_tree [] Hinit
                  "1236" (mkNode "Gammaproteobacteria" "1236" "1224") Hlook)).
Defined.

(** X7.  A line with exactly the three fields name, id and parent id, that
    passes the assertion, is stored under both keys: afterwards the name and
    the id resolve to the same node with these fields, every other key
    resolves as before, and no warning is logged. *)
Theorem init_line_stores_both_keys tree log line name id parent :
  split tab (strip line) = [name; id; parent] ->
  (id = "1" \/ parent = "1" \/ id <> parent) ->
  exists tree',
    init_line (tree, log) line = Ok (tree', log)
    /\ tree' !! name = Some (mkNode name id parent)
    /\ tree' !! id = Some (mkNode name id parent)
    /\ forall key, key <> name -> key <> id -> tree' !! key = tree !! key.
Proof.
  intros Htoks Hok. exists (add_node tree name id parent).
  split; [apply (init_line_three_fields (tree, log)); assumption|].
  unfold add_node. split; [|split].
  - rewrite lookup_insert. destruct (decide (id = name)); [reflexivity|].
    apply lookup_insert_eq.
  - apply lookup_insert_eq.
  - intros key Hn Hi. rewrite !lookup_insert_ne by congruence. reflexivity.
Qed.

Lemma init_line_stores_both_keys_witness :
  exists tree',
    init_line (∅, []) (tsv ["Bacteria"; "2"; "1"]) = Ok (tree', [])
    /\ tree' !! "Bacteria" = Some (mkNode "Bacteria" "2" "1")
    /\ tree' !! "2" = Some (mkNode "Bacteria" "2" "1").
Proof.
  destruct (init_line_stores_both_keys ∅ [] (tsv ["Bacteria"; "2"; "1"])
              "Bacteria" "2" "1") as (tree' & Hinit & Hname & Hid & _).
  - reflexivity.
  - right. left. reflexivity.
  - exists tree'. auto.
Defined.

(** X8.  A line whose second and third fields are equal and not "1" stops
    the construction with an [AssertionError], however many fields the line
    has: a line of four or more such fields is not skipped as malformed. *)
Theorem init_line_equal_ids_fail st line id :
  split tab (strip line) !! 1 = Some id ->
  split tab (strip line) !! 2 = Some id ->
  id <> "1" ->
  init_line st line = Raise AssertionError.
Proof.
  intros H1 H2 Hid. unfold init_line, tok. rewrite H1, H2. cbn [bind].
  apply String.eqb_neq in Hid. rewrite Hid. cbn [negb bind].
  rewrite String.eqb_refl. reflexivity.
Qed.

Lemma init_line_equal_ids_fail_witness :
  init_line (∅, []) (tsv ["Bacteria"; "2"; "2"; "superkingdom"])
  = Raise AssertionError.
Proof.
  apply (init_line_equal_ids_fail (∅, [])
           (tsv ["Bacteria"; "2"; "2"; "superkingdom"]) "2");
    [reflexivity | reflexivity | discriminate].
Defined.

(** X9.  A line that does not have exactly three fields, and whose fields
    get through the assertion (the second field is "1", or there is a third
    field that is "1" or differs from the second), changes nothing in the
    tree and logs exactly one warning, which quotes the stripped line. *)
Theorem init_line_skips_with_warning st line id :
  split tab (strip line) !! 1 = Some id ->
  (id = "1"
   \/ exists parent, split tab (strip line) !! 2 = Some parent
                     /\ (parent = "1" \/ id <> parent)) ->
  length (split tab (strip line)) <> 3 ->
  init_line st line = Ok (fst st, snd st ++ [warning_text (strip line)]).
Proof.
  intros H1 Hok Hlen. unfold init_line, tok. rewrite H1. cbn [bind].
  apply Nat.eqb_neq in Hlen. rewrite Hlen. cbn [negb].
  destruct (String.eqb_spec id "1") as [->|Hid]; cbn [negb bind]; [reflexivity|].
  destruct Hok as [?|(parent & H2 & Hp)]; [contradiction|].
  rewrite H2. cbn [bind].
  destruct (String.eqb_spec parent "1") as [->|Hp1]; cbn [negb bind];
    [reflexivity|].
  destruct (String.eqb_spec id parent) as [->|Hne]; cbn [bind]; [|reflexivity].
  destruct Hp; congruence.
Qed.

Lemma init_line_skips_with_warning_witness :
  init_line (∅, []) (tsv ["a"; "2"; "3"; "4"])
  = Ok (∅, [warning_text (tsv ["a"; "2"; "3"; "4"])]).
Proof.
  apply (init_line_skips_with_warning (∅, []) (tsv ["a"; "2"; "3"; "4"]) "2").
  - reflexivity.
  - right. exists "3". split; [reflexivity|]. right. discriminate.
  - discriminate.
Defined.

(** ** Lineages *)

Section lineages.

Variable tree : Tree.

Lemma lineage_loop_sound fuel id acc lin :
  lineage_loop fuel tree id acc = Ok lin ->
  exists p,
    path tree id p
    /\ lin = match p with [] => acc | _ :: p' => "1" :: reverse p' ++ acc end.
Proof.
  revert id acc. induction fuel as [|fuel IH]; intros id acc; cbn [lineage_loop];
    [discriminate|].
  destruct (String.eqb_spec id "1") as [->|Hid].
  - intros [= <-]. exists []. split; [constructor | reflexivity].
  - destruct (tree !! id) as [node|] eqn:Hnode; [|discriminate].
    intros Hloop. destruct (IH _ _ Hloop) as (p & Hp & ->).
    exists (id :: p). split; [econstructor; eassumption|].
    inversion Hp as [Hroot|id' node' p' Hid' Hnode' Hp' Heq]; subst.
    + reflexivity.
    + rewrite reverse_cons, <- app_assoc. reflexivity.
Qed.

(** Along a walk, the node stored for an id has the next id as its parent;
    after the last id comes the root. *)
Lemma path_parent id p u b a v :
  path tree id p -> p ++ ["1"] = u ++ b :: a :: v ->
  exists node, tree !! b = Some node /\ parent_id node = a.
Proof.
  intros Hp. revert u. induction Hp as [|id node p Hid Hnode Hp IH]; intros u Heq.
  - destruct u as [|? [|? ?]]; discriminate.
  - destruct u as [|z u]; cbn [app] in Heq.
    + injection Heq as -> Heq. exists node. split; [assumption|].
      inversion Hp as [Hroot|id' node' p' Hid' Hnode' Hp' Hp0]; subst;
        cbn [app] in Heq; congruence.
    + injection Heq as _ Heq. apply (IH u Heq).
Qed.

(** X10.  Whenever [taxonomic_lineage] returns, the taxon is in the tree and
    the list returned starts at the root "1", ends at the id of the taxon,
    holds no id twice, and steps from parent to child: each id after the first
    is stored in the tree with the id before it as its parent. *)
Theorem taxonomic_lineage_returns fuel taxon lin :
  taxonomic_lineage fuel tree taxon = Ok lin ->
  exists node,
    tree !! taxon = Some node
    /\ head lin = Some "1"
    /\ last lin = Some (node_id node)
    /\ NoDup lin
    /\ forall l1 a b l2,
         lin = l1 ++ a :: b :: l2 ->
         exists child, tree !! b = Some child /\ parent_id child = a.
Proof.
  unfold taxonomic_lineage. destruct (tree !! taxon) as [node|]; [|discriminate].
  intros Hloop. exists node. split; [reflexivity|].
  destruct (lineage_loop_sound _ _ _ _ Hloop) as (p & Hp & Hlin).
  assert (lin = "1" :: reverse p) as ->.
  { rewrite Hlin. destruct Hp as [|id n p Hid Hn Hp]; [reflexivity|].
    rewrite reverse_cons. reflexivity. }
  split; [reflexivity|]. split; [|split].
  - destruct Hp as [|id n p Hid Hn Hp]; [reflexivity|].
    rewrite reverse_cons, app_comm_cons. apply last_snoc.
  - constructor.
    + rewrite elem_of_reverse. eapply path_not_root; eassumption.
    + rewrite reverse_Permutation. eapply path_NoDup; eassumption.
  - intros l1 a b l2 Heq.
    apply (path_parent _ p (reverse l2) b a (reverse l1) Hp).
    apply (f_equal reverse) in Heq.
    rewrite reverse_cons, reverse_involutive in Heq. rewrite Heq.
    rewrite reverse_app, !reverse_cons, <- !app_assoc. reflexivity.
Qed.

End lineages.

Lemma taxonomic_lineage_returns_witness :
  exists node,
    example_tree !! "Gammaproteobacteria" = Some node
    /\ head ["1"; "2"; "1224"; "1236"] = Some "1"
    /\ last ["1"; "2"; "1224"; "1236"] = Some (node_id node).
Proof.
  destruct (taxonomic_lineage_returns example_tree 10 "Gammaproteobacteria"
              ["1"; "2"; "1224"; "1236"] eq_refl)
    as (node & Hnode & Hhead & Hlast & _).
  exists node. auto.
Defined.

(** X11.  [taxonomic_lineage] returns a list exactly for the taxa of the tree
    whose parent ids lead to the root "1", and the list is then the lineage
    [lineage_of] describes: it is returned for every fuel from the length of
    the lineage on, and no fuel makes the function return anything else. *)
Theorem taxonomic_lineage_iff_lineage_of tree taxon lin :
  (lineage_of tree taxon lin ->
   forall fuel, length lin <= fuel ->
     taxonomic_lineage fuel tree taxon = Ok lin)
  /\ (forall fuel,
        taxonomic_lineage fuel tree taxon = Ok lin ->
        lineage_of tree taxon lin).
Proof.
  split; [apply lineage_of_computed|].
  intros fuel. unfold taxonomic_lineage, lineage_of.
  destruct (tree !! taxon) as [node|]; [|discriminate].
  intros Hloop. destruct (lineage_loop_sound _ _ _ _ _ Hloop) as (p & Hp & ->).
  exists node, p. split; [reflexivity|]. split; [exact Hp|].
  destruct Hp as [|id n p Hid Hn Hp]; [reflexivity|].
  rewrite reverse_cons. reflexivity.
Qed.

Lemma taxonomic_lineage_iff_lineage_of_witness :
  taxonomic_lineage 4 example_tree "1236" = Ok ["1"; "2"; "1224"; "1236"].
Proof.
  apply (taxonomic_lineage_iff_lineage_of example_tree "1236"
           ["1"; "2"; "1224"; "1236"]).
  - apply example_lineage_gamma.
  - simpl. lia.
Defined.

(** ** Depth filter *)

Lemma deep_enough_filter min_tree_depth taxa ps :
  length taxa = length ps ->
  deep_enough min_tree_depth taxa ps
  = (filter (fun tp => (min_tree_depth <= Z.of_nat (length (snd tp)))%Z)
       (zip taxa ps)).*1.
Proof.
  revert ps. induction taxa as [|taxon taxa IH]; intros [|p ps] Hlen;
    simpl in Hlen; try lia; [reflexivity|].
  cbn [deep_enough zip_with]. rewrite filter_cons. cbn [snd].
  destruct (Z.ltb_spec (Z.of_nat (length p)) min_tree_depth) as [Hlt|Hge].
  - rewrite decide_False by lia. apply IH. lia.
  - rewrite decide_True by lia. rewrite fmap_cons. cbn [fst]. f_equal.
    apply IH. lia.
Qed.

Lemma deep_enough_all min_tree_depth taxa ps :
  length taxa = length ps -> (min_tree_depth <= 0)%Z ->
  deep_enough min_tree_depth taxa ps = taxa.
Proof.
  revert ps. induction taxa as [|taxon taxa IH]; intros [|p ps] Hlen Hmin;
    simpl in Hlen; try lia; [reflexivity|].
  cbn [deep_enough].
  destruct (Z.ltb_spec (Z.of_nat (length p)) min_tree_depth) as [Hlt|Hge]; [lia|].
  f_equal. apply IH; [lia | assumption].
Qed.

(** X12.  On taxa that are all in the tree, each with a walk to the root that
    the fuel covers, [filter_taxonomy_list] returns the taxa whose walk has at
    least [min_tree_depth] steps, in the order and with the repetitions of the
    input; with a [min_tree_depth] of zero or less it returns the input. *)
Theorem filter_taxonomy_list_by_depth tree fuel taxa ps min_tree_depth :
  walks_of tree taxa ps ->
  Forall (fun p => length p < fuel) ps ->
  exists kept,
    filter_taxonomy_list fuel tree taxa min_tree_depth = Ok kept
    /\ kept
       = (filter (fun tp => (min_tree_depth <= Z.of_nat (length (snd tp)))%Z)
            (zip taxa ps)).*1
    /\ kept `sublist_of` taxa
    /\ ((min_tree_depth <= 0)%Z -> kept = taxa).
Proof.
  intros Hw Hfuel. exists (deep_enough min_tree_depth taxa ps).
  pose proof (Forall2_length _ _ _ Hw) as Hlen.
  split; [apply filter_taxonomy_list_present; assumption|].
  split; [apply deep_enough_filter, Hlen|].
  split; [apply deep_enough_sublist|].
  apply deep_enough_all, Hlen.
Qed.

Lemma example_walk_gamma :
  path example_tree "1236" ["1236"; "1224"; "2"].
Proof.
  apply (path_step _ "1236" (mkNode "Gammaproteobacteria" "1236" "1224"));
    [discriminate | reflexivity |].
  apply (path_step _ "1224" (mkNode "Proteobacteria" "1224" "2"));
    [discriminate | reflexivity |].
  apply (path_step _ "2" (mkNode "Bacteria" "2" "1"));
    [discriminate | reflexivity |].
  apply path_root.
Qed.

Lemma example_walk_bacteria : path example_tree "2" ["2"].
Proof.
  apply (path_step _ "2" (mkNode "Bacteria" "2" "1"));
    [discriminate | reflexivity |].
  apply path_root.
Qed.

Lemma example_walks :
  walks_of example_tree ["Bacteria"; "1236"] [["2"]; ["1236"; "1224"; "2"]].
Proof.
  constructor; [|constructor; [|constructor]].
  - exists (mkNode "Bacteria" "2" "1"). split; [reflexivity|].
    apply example_walk_bacteria.
  - exists (mkNode "Gammaproteobacteria" "1236" "1224"). split; [reflexivity|].
    apply example_walk_gamma.
Qed.

Lemma filter_taxonomy_list_by_depth_witness :
  exists kept,
    filter_taxonomy_list 10 example_tree ["Bacteria"; "1236"] 2 = Ok kept
    /\ kept `sublist_of` ["Bacteria"; "1236"].
Proof.
  destruct (filter_taxonomy_list_by_depth example_tree 10 ["Bacteria"; "1236"]
              [["2"]; ["1236"; "1224"; "2"]] 2 example_walks)
    as (kept & Hkept & _ & Hsub & _).
  - repeat constructor; simpl; lia.
  - exists kept. auto.
Defined.

(** ** LCA with taxa missing from the tree, and at any threshold *)

Lemma lca_loop_short tree fuel n todo :
  (forall taxon node,
      taxon ∈ todo -> tree !! taxon = Some node ->
      exists p, path tree (node_id node) p /\ length p < fuel) ->
  forall counts m,
    (forall z, count_of counts z <= m) ->
    m + length (filter (fun taxon => is_Some (tree !! taxon)) todo) < n ->
    lca_loop fuel tree (full_target n) counts todo = Ok "root".
Proof.
  induction todo as [|taxon rest IH]; intros Hwalks counts m Hcount Hshort;
    cbn [lca_loop]; [reflexivity|].
  assert (forall t node, t ∈ rest -> tree !! t = Some node ->
            exists p, path tree (node_id node) p /\ length p < fuel) as Hrest
    by (intros t node Ht; apply Hwalks, list_elem_of_further, Ht).
  rewrite filter_cons in Hshort.
  destruct (tree !! taxon) as [node|] eqn:Hnode.
  - rewrite decide_True in Hshort by eauto. cbn [length] in Hshort.
    destruct (Hwalks taxon node (list_elem_of_here _ _) Hnode) as (p & Hp & Hfuel).
    rewrite (lca_walk_miss tree _ fuel counts _ p Hp Hfuel).
    + cbn [bind]. apply (IH Hrest _ (S m)); [|lia].
      intros z. rewrite count_of_bump_all by (eapply path_NoDup; eassumption).
      specialize (Hcount z). destruct (decide (z ∈ p)); lia.
    + intros x _. apply not_true_iff_false. unfold full_target.
      rewrite reaches_full. specialize (Hcount x). lia.
  - rewrite decide_False in Hshort by (intros [? ?]; discriminate).
    apply (IH Hrest _ m); assumption.
Qed.

(** X13.  At threshold 1.0, on a list whose taxa that are in the tree all
    have a parent chain reaching the root, a single taxon that is not in the
    tree decides the result: the count target is the length of the whole
    list, the missing taxon is skipped without being counted, no count can
    reach the target, and [lca] returns "root" whatever the other taxa have
    in common. *)
Theorem lca_missing_taxon_root tree fuel taxonomies missing :
  missing ∈ taxonomies ->
  tree !! missing = None ->
  (forall taxon node,
      taxon ∈ taxonomies -> tree !! taxon = Some node ->
      exists p, path tree (node_id node) p /\ length p < fuel) ->
  lca fuel tree taxonomies 1 = Ok "root".
Proof.
  intros Hin Hmiss Hwalks. unfold lca.
  apply (lca_loop_short tree fuel (length taxonomies) taxonomies Hwalks ∅ 0).
  - intros z. reflexivity.
  - cbn [Nat.add].
    apply (length_filter_lt _ taxonomies missing Hin).
    rewrite Hmiss. intros [? ?]. discriminate.
Qed.

Lemma lca_missing_taxon_root_witness :
  lca 10 example_tree ["1236"; "1236"; "Chloroflexi"] 1 = Ok "root".
Proof.
  apply (lca_missing_taxon_root example_tree 10
           ["1236"; "1236"; "Chloroflexi"] "Chloroflexi").
  - apply list_elem_of_further, list_elem_of_further, list_elem_of_here.
  - reflexivity.
  - intros taxon node Hin Hnode.
    assert (taxon = "1236" \/ taxon = "Chloroflexi") as [->| ->].
    { repeat (apply elem_of_cons in Hin as [->|Hin]; auto). inversion Hin. }
    + injection Hnode as <-. exists ["1236"; "1224"; "2"].
      split; [apply example_walk_gamma | simpl; lia].
    + discriminate.
Defined.

Section lca_provenance.

Variable tree : Tree.

Lemma lca_walk_provenance fuel count_target counts id counts' name :
  lca_walk fuel tree count_target counts id = Ok (counts', Some name) ->
  exists x node,
    climbs tree id x /\ x <> "1" /\ tree !! x = Some node
    /\ name = taxonomy node.
Proof.
  revert counts id. induction fuel as [|fuel IH]; intros counts id;
    cbn [lca_walk]; [discriminate|].
  destruct (String.eqb_spec id "1") as [->|Hid]; [discriminate|].
  destruct (tree !! id) as [node|] eqn:Hnode; [|discriminate].
  destruct (Qle_bool _ _).
  - intros [= _ <-]. exists id, node. split; [constructor | auto].
  - intros Hwalk. destruct (IH _ _ Hwalk) as (x & nodex & Hclimb & Hx).
    exists x, nodex. split; [econstructor; eassumption | exact Hx].
Qed.

Lemma lca_loop_provenance fuel count_target taxonomies :
  forall counts r,
    lca_loop fuel tree count_target counts taxonomies = Ok r ->
    r = "root"
    \/ exists taxon node x nodex,
         taxon ∈ taxonomies /\ tree !! taxon = Some node
         /\ climbs tree (node_id node) x /\ x <> "1"
         /\ tree !! x = Some nodex /\ r = taxonomy nodex.
Proof.
  induction taxonomies as [|taxon rest IH]; intros counts r; cbn [lca_loop].
  - intros [= <-]. left. reflexivity.
  - assert (forall counts0,
              lca_loop fuel tree count_target counts0 rest = Ok r ->
              r = "root"
              \/ exists taxon0 node x nodex,
                   taxon0 ∈ taxon :: rest /\ tree !! taxon0 = Some node
                   /\ climbs tree (node_id node) x /\ x <> "1"
                   /\ tree !! x = Some nodex /\ r = taxonomy nodex) as Hrest.
    { intros counts0 Hloop.
      destruct (IH _ _ Hloop) as [?|(t & node & x & nodex & Ht & Hx)];
        [left; assumption|].
      right. exists t, node, x, nodex.
      split; [apply list_elem_of_further, Ht | exact Hx]. }
    destruct (tree !! taxon) as [node|] eqn:Hnode; [|apply Hrest].
    destruct (lca_walk fuel tree count_target counts (node_id node))
      as [[counts' [name|]]| |] eqn:Hwalk; cbn [bind]; try discriminate.
    + intros [= <-].
      destruct (lca_walk_provenance _ _ _ _ _ _ Hwalk) as (x & nodex & Hx).
      right. exists taxon, node, x, nodex.
      split; [apply list_elem_of_here|]. split; [exact Hnode | exact Hx].
    + apply Hrest.
Qed.

(** X14.  Whatever the threshold, a value returned by [lca] is "root" or the
    name stored in the tree for an id, other than "1", met when following
    parent ids from one of the given taxa. *)
Theorem lca_returns_root_or_ancestor fuel taxonomies threshold r :
  lca fuel tree taxonomies threshold = Ok r ->
  r = "root"
  \/ exists taxon node x nodex,
       taxon ∈ taxonomies /\ tree !! taxon = Some node
       /\ climbs tree (node_id node) x /\ x <> "1"
       /\ tree !! x = Some nodex /\ r = taxonomy nodex.
Proof. unfold lca. apply lca_loop_provenance. Qed.

End lca_provenance.

Lemma lca_returns_root_or_ancestor_witness :
  "Proteobacteria" = "root"
  \/ exists taxon node x nodex,
       taxon ∈ ["1236"; "Alphaproteobacteria"; "Archaea"]
       /\ example_tree !! taxon = Some node
       /\ climbs example_tree (node_id node) x /\ x <> "1"
       /\ example_tree !! x = Some nodex /\ "Proteobacteria" = taxonomy nodex.
Proof.
  apply (lca_returns_root_or_ancestor example_tree 10
           ["1236"; "Alphaproteobacteria"; "Archaea"] (1 # 2)).
  reflexivity.
Defined.

(** * Further properties of the Nettleton test *)

Lemma counter_fold_get l c k :
  Counter.get (fold_left (fun c k => Counter.incr k c) l c) k
  = Counter.get c k + length (filter (fun x => x = k) l).
Proof.
  revert c. induction l as [|x l IH]; intros c; cbn [fold_left].
  - rewrite filter_nil. simpl. lia.
  - rewrite IH, counter_get_incr, filter_cons.
    destruct (decide (x = k)); simpl; lia.
Qed.

(** A counter counts: [Counter(items)[k]] is the number of occurrences. *)
Lemma counter_get_count items k :
  Counter.get (Counter.of_list items) k = length (filter (fun x => x = k) items).
Proof. unfold Counter.of_list. rewrite counter_fold_get. reflexivity. Qed.

Lemma counter_get_perm items items' k :
  items ≡ₚ items' ->
  Counter.get (Counter.of_list items) k = Counter.get (Counter.of_list items') k.
Proof. intros Hperm. rewrite !counter_get_count, Hperm. reflexivity. Qed.

Lemma most_common_get_le items k0 (c0 : nat) rest k :
  Counter.most_common (Counter.of_list items) = (k0, c0) :: rest ->
  Counter.get (Counter.of_list items) k <= c0.
Proof.
  intros Hmc.
  destruct (decide (k ∈ items)) as [Hin|Hnin].
  - apply (most_common_head_max items k0 c0 rest k Hmc Hin).
  - rewrite counter_get_missing; [lia|].
    rewrite counter_of_list_keys. exact Hnin.
Qed.

Lemma rival_max_unique count count' key m m' :
  (forall k, count k = count' k) ->
  rival_max count key m -> rival_max count' key m' -> m = m'.
Proof.
  intros Heq [Hle Hex] [Hle' Hex'].
  assert (m <= m') as H1.
  { destruct Hex as [->|(k & Hk & <-)]; [lia|]. rewrite Heq. apply Hle', Hk. }
  assert (m' <= m) as H2.
  { destruct Hex' as [->|(k & Hk & <-)]; [lia|]. rewrite <- Heq. apply Hle, Hk. }
  lia.
Qed.

(** The [max_count] of the test is the largest count of another item. *)
Lemma runner_up_rival_max items key :
  key ∈ items ->
  exists m,
    runner_up (Counter.of_list items) key = Ok m
    /\ rival_max (Counter.get (Counter.of_list items)) key m.
Proof.
  intros Hkey. unfold runner_up.
  pose proof (most_common_nonempty items key Hkey) as Hne.
  pose proof (most_common_sorted (Counter.of_list items)) as Hs.
  pose proof (most_common_perm (Counter.of_list items)) as Hperm.
  pose proof (counter_of_list_NoDup items) as Hnd.
  destruct (Counter.most_common (Counter.of_list items)) as [|[k0 c0] rest] eqn:Hmc;
    [congruence|].
  assert (forall k n, (k, n) ∈ (k0, c0) :: rest ->
                      Counter.get (Counter.of_list items) k = n) as Hget.
  { intros k n Hin. apply counter_get_in; [exact Hnd|].
    apply (proj1 (elem_of_Permutation_proper _ _ _ Hperm)), Hin. }
  assert (forall k, k ∈ items ->
            (k, Counter.get (Counter.of_list items) k) ∈ (k0, c0) :: rest) as Hentry.
  { intros k Hk. apply counter_of_list_keys, counter_in_get in Hk.
    apply (proj2 (elem_of_Permutation_proper _ _ _ Hperm)), Hk. }
  assert (forall k, k ∉ items -> Counter.get (Counter.of_list items) k = 0) as Hzero.
  { intros k Hk. apply counter_get_missing. rewrite counter_of_list_keys. exact Hk. }
  assert (NoDup ((k0, c0) :: rest).*1) as Hndmc by (rewrite Hperm; exact Hnd).
  rewrite fmap_cons in Hndmc. apply NoDup_cons in Hndmc as [Hk0 Hndrest].
  cbn [fst] in Hk0.
  destruct (String.eqb_spec k0 key) as [->|Hk0key].
  - destruct rest as [|[k1 c1] rest].
    + exists 0. split; [reflexivity|]. split; [|left; reflexivity].
      intros k Hk. destruct (decide (k ∈ items)) as [Hin|Hnin].
      * apply Hentry in Hin. apply list_elem_of_singleton in Hin.
        congruence.
      * rewrite Hzero by assumption. lia.
    + exists c1. split; [reflexivity|]. split.
      * intros k Hk. destruct (decide (k ∈ items)) as [Hin|Hnin].
        -- apply Hentry in Hin. apply elem_of_cons in Hin as [Heq|Hin];
             [congruence|].
           apply StronglySorted_inv in Hs as [Hs _].
           apply elem_of_cons in Hin as [Heq|Hin].
           ++ injection Heq as _ ->. reflexivity.
           ++ apply StronglySorted_inv in Hs as [_ Hall].
              rewrite Forall_forall in Hall. apply (Hall _ Hin).
        -- rewrite Hzero by assumption. lia.
      * right. exists k1. split.
        -- intros ->. apply Hk0. rewrite fmap_cons. apply list_elem_of_here.
        -- apply Hget. apply list_elem_of_further, list_elem_of_here.
  - exists c0. split; [reflexivity|]. split.
    + intros k _. apply (most_common_get_le items k0 c0 rest k Hmc).
    + right. exists k0. split; [exact Hk0key|].
      apply Hget, list_elem_of_here.
Qed.



(** Two lists with the same length and the same number of occurrences of
    every item get the same p-value. *)
Lemma nettleton_pvalue_same_counts items items' key :
  key ∈ items -> key ∈ items' ->
  length items = length items' ->
  (forall k, length (filter (fun x => x = k) items)
             = length (filter (fun x => x = k) items')) ->
  nettleton_pvalue items key = nettleton_pvalue items' key.
Proof.
  intros Hin Hin' Hlen Hcount.
  assert (forall k, Counter.get (Counter.of_list items) k
                    = Counter.get (Counter.of_list items') k) as Hget
    by (intros k; rewrite !counter_get_count; apply Hcount).
  destruct (runner_up_rival_max items key Hin) as (m & Hrun & Hm).
  destruct (runner_up_rival_max items' key Hin') as (m' & Hrun' & Hm').
  assert (m = m') as <- by (eapply rival_max_unique; eassumption).
  unfold nettleton_pvalue.
  rewrite !bool_decide_eq_true_2 by assumption.
  rewrite Hrun, Hrun', Hlen, Hget. reflexivity.
Qed.

(** X16.  The p-value depends on the items only through how often each one
    occurs: [nettleton_pvalue] gives the same outcome, the [AssertionError]
    included, on any two orderings of the same items. *)
Theorem nettleton_pvalue_perm items items' key :
  items ≡ₚ items' ->
  nettleton_pvalue items key = nettleton_pvalue items' key.
Proof.
  intros Hperm.
  destruct (decide (key ∈ items)) as [Hin|Hnin].
  - apply nettleton_pvalue_same_counts.
    + exact Hin.
    + rewrite <- Hperm. exact Hin.
    + apply Permutation_length, Hperm.
    + intros k. rewrite Hperm. reflexivity.
  - assert (key ∉ items') as Hnin' by (rewrite <- Hperm; exact Hnin).
    rewrite !nettleton_pvalue_absent by assumption. reflexivity.
Qed.

Lemma nettleton_pvalue_perm_witness :
  nettleton_pvalue ["X"; "Y"; "X"] "X" = nettleton_pvalue ["Y"; "X"; "X"] "X".
Proof.
  apply (nettleton_pvalue_perm ["X"; "Y"; "X"] ["Y"; "X"; "X"] "X").
  apply Permutation_swap.
Defined.

(** * Further properties of [majority] *)

Lemma counter_incr_keys_app k c :
  exists k2, (Counter.incr k c).*1 = c.*1 ++ k2.
Proof.
  induction c as [|[k0 n] c IH]; cbn [Counter.incr].
  - exists [k]. reflexivity.
  - destruct (String.eqb k k0).
    + exists []. rewrite app_nil_r. reflexivity.
    + destruct IH as [k2 Hk2]. exists k2.
      rewrite !fmap_cons, Hk2. reflexivity.
Qed.

Lemma counter_fold_keys_app l c :
  exists k2, (fold_left (fun c k => Counter.incr k c) l c).*1 = c.*1 ++ k2.
Proof.
  revert c. induction l as [|x l IH]; intros c; cbn [fold_left].
  - exists []. rewrite app_nil_r. reflexivity.
  - destruct (IH (Counter.incr x c)) as [k2 Hk2].
    destruct (counter_incr_keys_app x c) as [k1 Hk1].
    exists (k1 ++ k2). rewrite Hk2, Hk1, app_assoc. reflexivity.
Qed.

Lemma counter_incr_fresh_keys m c :
  m ∉ c.*1 -> (Counter.incr m c).*1 = c.*1 ++ [m].
Proof.
  induction c as [|[k0 n] c IH]; intros Hnin; cbn [Counter.incr].
  - reflexivity.
  - rewrite fmap_cons in Hnin. apply not_elem_of_cons in Hnin as [Hne Hnin].
    cbn [fst] in Hne. apply String.eqb_neq in Hne. rewrite Hne.
    rewrite !fmap_cons, IH by assumption. reflexivity.
Qed.

(** The keys of a counter come in the order of their first occurrence: the
    keys in front of [m] are the items in front of its first occurrence. *)
Lemma counter_keys_before l1 m l2 :
  m ∉ l1 ->
  exists k2,
    (Counter.of_list (l1 ++ m :: l2)).*1 = (Counter.of_list l1).*1 ++ m :: k2.
Proof.
  intros Hm. unfold Counter.of_list.
  rewrite (fold_left_app (fun c k => Counter.incr k c)). cbn [fold_left].
  set (c1 := fold_left (fun c k => Counter.incr k c) l1 []).
  destruct (counter_fold_keys_app l2 (Counter.incr m c1)) as [k2 Hk2].
  rewrite Hk2, counter_incr_fresh_keys.
  - exists k2. rewrite <- app_assoc. reflexivity.
  - intros Hin. apply Hm. apply counter_of_list_keys. exact Hin.
Qed.

Lemma split_at_unique {A} (a a' b b' : list A) m :
  m ∉ a -> m ∉ a' -> a ++ m :: b = a' ++ m :: b' -> a = a'.
Proof.
  revert a'. induction a as [|x a IH]; intros [|x' a'] Ha Ha' Heq;
    cbn [app] in Heq.
  - reflexivity.
  - injection Heq as -> _. exfalso. apply Ha', list_elem_of_here.
  - injection Heq as -> _. exfalso. apply Ha, list_elem_of_here.
  - injection Heq as -> Heq. f_equal.
    apply not_elem_of_cons in Ha as [_ Ha], Ha' as [_ Ha'].
    apply (IH a' Ha Ha' Heq).
Qed.

(** [max] keeps the first of the largest entries: the entries in front of the
    one it returns are strictly smaller. *)
Lemma max_entry_first x rest :
  exists c1 c2,
    x :: rest = c1 ++ Counter.max_entry x rest :: c2
    /\ forall y, y ∈ c1 -> snd y < snd (Counter.max_entry x rest).
Proof.
  revert x. induction rest as [|y rest IH]; intros x; cbn [Counter.max_entry].
  - exists [], []. split; [reflexivity|]. intros y Hy. inversion Hy.
  - destruct (Nat.ltb_spec (snd x) (snd y)) as [Hlt|Hge].
    + destruct (IH y) as (c1 & c2 & Heq & Hsmall).
      exists (x :: c1), c2. split; [cbn [app]; f_equal; exact Heq|].
      intros z Hz. apply elem_of_cons in Hz as [->|Hz]; [|apply Hsmall, Hz].
      pose proof (max_entry_ge y rest). lia.
    + destruct (IH x) as ([|x' c1] & c2 & Heq & Hsmall); cbn [app] in Heq.
      * injection Heq as Hx Hrest. exists [], (y :: rest).
        split; [cbn [app]; f_equal; exact Hx|].
        intros z Hz. inversion Hz.
      * injection Heq as <- Hrest. exists (x :: y :: c1), c2.
        split; [cbn [app]; do 2 f_equal; exact Hrest|].
        assert (snd x < snd (Counter.max_entry x rest)) as Hx
          by (apply Hsmall, list_elem_of_here).
        intros z Hz. apply elem_of_cons in Hz as [->|Hz]; [exact Hx|].
        apply elem_of_cons in Hz as [->|Hz]; [lia|].
        apply Hsmall, list_elem_of_further, Hz.
Qed.

Lemma majority_repeated_entry self :
  ~ NoDup (names self) ->
  exists x rest m n,
    Counter.of_list (names self) = x :: rest
    /\ Counter.max_entry x rest = (m, n)
    /\ m ∈ names self
    /\ fst (majority self) = Ok m.
Proof.
  intros Hdup. unfold majority.
  pose proof (repeated_size_lt _ Hdup) as Hlt.
  destruct (Nat.eqb_spec (length (names self))
              (size (list_to_set (names self) : gset string))) as [Heq|_];
    [lia|].
  pose proof (counter_of_list_keys (names self)) as Hkeys.
  assert (Counter.of_list (names self) <> []) as Hc.
  { apply counter_of_list_nonempty. intros Hnil. apply Hdup.
    rewrite Hnil. constructor. }
  destruct (Counter.of_list (names self)) as [|x rest] eqn:Ec; [congruence|].
  cbn [Counter.most_common_1].
  pose proof (max_entry_in x rest) as Hin.
  destruct (Counter.max_entry x rest) as [m n] eqn:Emax.
  assert (m ∈ names self) as Hm
    by (apply Hkeys; apply (list_elem_of_fmap_2 fst) in Hin; exact Hin).
  cbn [names].
  destruct (index_of_lookup m (reverse (names self))) as (i & -> & ->);
    [apply elem_of_reverse; exact Hm|].
  exists x, rest, m, n. auto.
Qed.

(** X17.  With a repeated taxon, [majority] returns the taxon that occurs
    most often and, among several that do, the one whose first occurrence
    comes first in [names], the low-bitscore end: every name in front of that
    occurrence occurs strictly less often, and no name occurs more often. *)
Theorem majority_first_most_frequent self :
  ~ NoDup (names self) ->
  let count k := length (filter (fun x => x = k) (names self)) in
  exists m l1 l2,
    fst (majority self) = Ok m
    /\ names self = l1 ++ m :: l2
    /\ (m ∉ l1)
    /\ (forall k, k ∈ l1 -> count k < count m)
    /\ (forall k, count k <= count m).
Proof.
  intros Hdup count.
  destruct (majority_repeated_entry self Hdup)
    as (x & rest & m & n & Hc & Hmax & Hm & Hmaj).
  destruct (list_elem_of_split_l _ _ Hm) as (l1 & l2 & Hnames & Hl1).
  exists m, l1, l2. split; [exact Hmaj|]. split; [exact Hnames|].
  split; [exact Hl1|].
  pose proof (counter_of_list_NoDup (names self)) as Hnd.
  pose proof (max_entry_in x rest) as Hin.
  pose proof (max_entry_max x rest) as Hall.
  destruct (max_entry_first x rest) as (c1 & c2 & Hsplit & Hsmall).
  rewrite Hmax in Hin, Hall, Hsplit, Hsmall. cbn [snd] in Hall, Hsmall.
  rewrite <- Hc in Hin, Hall.
  assert (forall k, count k = Counter.get (Counter.of_list (names self)) k) as Hcount
    by (intros k; symmetry; apply counter_get_count).
  assert (Counter.get (Counter.of_list (names self)) m = n) as Hn
    by (apply counter_get_in; assumption).
  split.
  - intros k Hk. rewrite !Hcount, Hn.
    destruct (counter_keys_before l1 m l2 Hl1) as [k2 Hkeys].
    rewrite <- Hnames, Hc, Hsplit, fmap_app, fmap_cons in Hkeys. cbn [fst] in Hkeys.
    assert (c1.*1 = (Counter.of_list l1).*1) as Hfront.
    { apply (split_at_unique _ _ _ _ m) in Hkeys; [exact Hkeys| |].
      - rewrite Hc, Hsplit, fmap_app, fmap_cons in Hnd. cbn [fst] in Hnd.
        apply NoDup_app in Hnd as (_ & Hdisj & _).
        intros Hmc1. apply (Hdisj m Hmc1), list_elem_of_here.
      - rewrite counter_of_list_keys. exact Hl1. }
    apply counter_of_list_keys in Hk. rewrite <- Hfront in Hk.
    apply list_elem_of_fmap in Hk as ([k' n'] & -> & Hentry). cbn [fst].
    rewrite (counter_get_in k' n' _ Hnd).
    + apply (Hsmall _ Hentry).
    + rewrite Hc, Hsplit. apply elem_of_app. left. exact Hentry.
  - intros k. rewrite !Hcount, Hn.
    destruct (decide (k ∈ (Counter.of_list (names self)).*1)) as [Hk|Hk].
    + apply counter_in_get in Hk. apply (Hall _ Hk).
    + rewrite (counter_get_missing _ _ Hk). lia.
Qed.

Lemma majority_first_most_frequent_witness :
  exists m l1 l2,
    fst (majority (mkBlastHits ["A"; "B"; "B"; "A"] [1%Q; 2%Q; 3%Q; 4%Q])) = Ok m
    /\ ["A"; "B"; "B"; "A"] = l1 ++ m :: l2
    /\ (m ∉ l1).
Proof.
  destruct (majority_first_most_frequent
              (mkBlastHits ["A"; "B"; "B"; "A"] [1%Q; 2%Q; 3%Q; 4%Q]))
    as (m & l1 & l2 & Hm & Hsplit & Hl1 & _).
  - intros Hnd. apply NoDup_cons in Hnd as [Hnin _]. apply Hnin.
    apply list_elem_of_further, list_elem_of_further, list_elem_of_here.
  - exists m, l1, l2. auto.
Defined.

(** * [process_orfs]: the majority call and its p-value *)




(** * Order of the taxa at threshold 1.0 *)

Section lca_order.

Variable tree : Tree.

Lemma walks_of_present taxonomies :
  (forall taxon, taxon ∈ taxonomies ->
     exists node p, tree !! taxon = Some node /\ path tree (node_id node) p) ->
  exists ps, walks_of tree taxonomies ps.
Proof.
  induction taxonomies as [|taxon rest IH]; intros Hall.
  - exists []. constructor.
  - destruct (Hall taxon (list_elem_of_here _ _)) as (node & p & Hnode & Hp).
    destruct IH as [ps Hps].
    { intros t Ht. apply Hall, list_elem_of_further, Ht. }
    exists (p :: ps). constructor; [eauto | assumption].
Qed.

Lemma walks_of_on_all taxonomies ps y :
  walks_of tree taxonomies ps -> taxonomies <> [] ->
  (forall p, p ∈ ps -> y ∈ p)
  <-> y <> "1" /\ common_ancestor tree taxonomies y.
Proof.
  intros Hw Hne. split.
  - intros Hall.
    assert (y <> "1") as Hy.
    { destruct Hw as [|taxon p rest ps' (node & _ & Hp) _]; [congruence|].
      intros ->. apply (path_not_root _ _ _ Hp), Hall, list_elem_of_here. }
    split; [exact Hy|]. apply (common_on_all tree taxonomies ps y Hw Hy), Hall.
  - intros [Hy Hc]. apply (common_on_all tree taxonomies ps y Hw Hy), Hc.
Qed.

Lemma deepest_on_all_unique ps ps' r r' :
  (forall y, (forall p, p ∈ ps -> y ∈ p) <-> (forall p, p ∈ ps' -> y ∈ p)) ->
  deepest_on_all tree ps r -> deepest_on_all tree ps' r' -> r = r'.
Proof.
  intros Hsame
    [[-> Hnone] | (x & node & b & Hnode & -> & Hpx & Hx & Hdeep)]
    [[-> Hnone'] | (x' & node' & b' & Hnode' & -> & Hpx' & Hx' & Hdeep')].
  - reflexivity.
  - exfalso. apply (Hnone x'), Hsame, Hx'.
  - exfalso. apply (Hnone' x), Hsame, Hx.
  - assert (x' ∈ x :: b) as Hin by (apply Hdeep, Hsame, Hx').
    assert (x ∈ x' :: b') as Hin' by (apply Hdeep', Hsame, Hx).
    assert (x = x') as <-.
    { apply elem_of_cons in Hin as [?|Hin]; [congruence|].
      apply list_elem_of_split in Hin as (u & v & ->).
      pose proof (path_suffix tree x (x :: u ++ x' :: v) (x :: u) x' v Hpx eq_refl)
        as Hsuf.
      pose proof (path_functional _ _ _ _ Hsuf Hpx') as Heq.
      injection Heq as <-.
      apply elem_of_cons in Hin' as [?|Hin']; [congruence|].
      pose proof (path_NoDup _ _ _ Hpx) as Hnd.
      apply NoDup_cons in Hnd as [Hnin _]. exfalso. apply Hnin.
      apply elem_of_app. right. apply list_elem_of_further, Hin'. }
    congruence.
Qed.

(** X19.  At threshold 1.0 the order of the taxa does not matter: when every
    taxon is in the tree with a walk to the root that the fuel covers, [lca]
    returns the same value on any two orderings of the list. *)
Theorem lca_full_threshold_order taxonomies taxonomies' fuel :
  taxonomies ≡ₚ taxonomies' ->
  (forall taxon node,
      taxon ∈ taxonomies -> tree !! taxon = Some node ->
      exists p, path tree (node_id node) p /\ length p < fuel) ->
  (forall taxon, taxon ∈ taxonomies -> is_Some (tree !! taxon)) ->
  exists r,
    lca fuel tree taxonomies 1 = Ok r /\ lca fuel tree taxonomies' 1 = Ok r.
Proof.
  intros Hperm Hwalks Hpresent.
  destruct taxonomies as [|taxon0 rest0].
  { apply Permutation_nil in Hperm as ->. exists "root". split; reflexivity. }
  assert (taxonomies' <> []) as Hne'.
  { intros ->. symmetry in Hperm. apply Permutation_nil in Hperm. discriminate. }
  assert (forall L, L ≡ₚ taxon0 :: rest0 -> L <> [] ->
            exists ps r,
              walks_of tree L ps
              /\ lca fuel tree L 1 = Ok r
              /\ deepest_on_all tree ps r) as Hrun.
  { intros L HL HLne.
    destruct (walks_of_present L) as [ps Hps].
    { intros t Ht. rewrite HL in Ht.
      destruct (Hpresent t Ht) as [node Hnode].
      destruct (Hwalks t node Ht Hnode) as (p & Hp & _). eauto. }
    assert (Forall (fun p => length p < fuel) ps) as Hfuel.
    { apply Forall_forall. intros q Hq.
      apply list_elem_of_lookup in Hq as [i Hi].
      destruct (Forall2_lookup_r _ _ _ _ _ Hps Hi)
        as (t & Ht & node & Hnode & Hq).
      destruct (Hwalks t node) as (p' & Hp' & Hlt);
        [rewrite <- HL; eapply list_elem_of_lookup_2; exact Ht | exact Hnode |].
      rewrite (path_functional _ _ _ _ Hq Hp'). exact Hlt. }
    destruct (lca_loop_spec tree fuel L ps Hps [] ∅ HLne) as (r & Hr & Hpost);
      [intros z; reflexivity | exact Hfuel |].
    exists ps, r. auto. }
  destruct (Hrun (taxon0 :: rest0)) as (ps & r & Hps & Hr & Hpost);
    [reflexivity | discriminate |].
  destruct (Hrun taxonomies') as (ps' & r' & Hps' & Hr' & Hpost');
    [symmetry; exact Hperm | exact Hne' |].
  exists r. split; [exact Hr|]. rewrite Hr'. f_equal. symmetry.
  apply (deepest_on_all_unique ps ps' r r'); [|assumption..].
  intros y.
  rewrite (walks_of_on_all (taxon0 :: rest0) ps y Hps) by discriminate.
  rewrite (walks_of_on_all taxonomies' ps' y Hps' Hne').
  unfold common_ancestor. setoid_rewrite Hperm. reflexivity.
Qed.

End lca_order.

Lemma example_walk_alpha : path example_tree "28211" ["28211"; "1224"; "2"].
Proof.
  apply (path_step _ "28211" (mkNode "Alphaproteobacteria" "28211" "1224"));
    [discriminate | reflexivity |].
  apply (path_step _ "1224" (mkNode "Proteobacteria" "1224" "2"));
    [discriminate | reflexivity |].
  apply (path_step _ "2" (mkNode "Bacteria" "2" "1"));
    [discriminate | reflexivity |].
  apply path_root.
Qed.

Lemma lca_full_threshold_order_witness :
  exists r,
    lca 10 example_tree ["1236"; "28211"] 1 = Ok r
    /\ lca 10 example_tree ["28211"; "1236"] 1 = Ok r.
Proof.
  apply (lca_full_threshold_order example_tree ["1236"; "28211"]
           ["28211"; "1236"] 10).
  - apply Permutation_swap.
  - intros taxon node Hin Hnode.
    apply elem_of_cons in Hin as [->|Hin].
    + injection Hnode as <-. exists ["1236"; "1224"; "2"].
      split; [apply example_walk_gamma | simpl; lia].
    + apply list_elem_of_singleton in Hin as ->.
      injection Hnode as <-. exists ["28211"; "1224"; "2"].
      split; [apply example_walk_alpha | simpl; lia].
  - intros taxon Hin.
    apply elem_of_cons in Hin as [->|Hin]; [eexists; reflexivity|].
    apply list_elem_of_singleton in Hin as ->. eexists; reflexivity.
Defined.

(** * Consensus above the taxa *)

(** ** [index_of_list_items] *)

Lemma dict_get_record_index item i indexes k :
  dict_get (record_index item i indexes) k
  = if decide (k = item)
    then Some (match dict_get indexes item with
               | Some n => if n <? i then i else n
               | None => i
               end)
    else dict_get indexes k.
Proof.
  induction indexes as [|[k' n] rest IH]; cbn [record_index dict_get].
  - destruct (String.eqb_spec item k), (decide (k = item)); congruence.
  - destruct (String.eqb_spec k' item) as [->|Hne]; cbn [dict_get].
    + destruct (String.eqb_spec item k), (decide (k = item)); congruence.
    + rewrite IH.
      destruct (String.eqb_spec k' k), (decide (k = item)); congruence.
Qed.

Lemma record_index_keys item i indexes k :
  k ∈ (record_index item i indexes).*1 <-> k = item \/ k ∈ indexes.*1.
Proof.
  induction indexes as [|[k' n] rest IH]; cbn [record_index fmap list_fmap].
  - rewrite list_elem_of_singleton. cbn. rewrite elem_of_nil. tauto.
  - destruct (String.eqb_spec k' item) as [->|Hne]; cbn [fmap list_fmap fst].
    + rewrite !elem_of_cons. tauto.
    + rewrite !elem_of_cons. fold (fmap (M := list) (@fst string nat)).
      rewrite IH. tauto.
Qed.

Lemma record_index_NoDup item i indexes :
  NoDup indexes.*1 -> NoDup (record_index item i indexes).*1.
Proof.
  induction indexes as [|[k' n] rest IH]; cbn [record_index fmap list_fmap fst].
  - intros _. apply NoDup_singleton.
  - intros Hnd. apply NoDup_cons in Hnd as [Hnotin Hnd].
    destruct (String.eqb_spec k' item) as [->|Hne]; cbn [fmap list_fmap fst].
    + apply NoDup_cons. split; assumption.
    + apply NoDup_cons. split; [|apply IH; assumption].
      fold (fmap (M := list) (@fst string nat)).
      rewrite record_index_keys. intros [?|?]; [congruence|contradiction].
Qed.

Lemma record_list_NoDup l i indexes :
  NoDup indexes.*1 -> NoDup (record_list i l indexes).*1.
Proof.
  revert i indexes.
  induction l as [|item l IH]; intros i indexes Hnd; cbn [record_list];
    [assumption|].
  apply IH, record_index_NoDup, Hnd.
Qed.

Lemma highest_index_proper seen seen' indexes :
  (forall item i, seen item i <-> seen' item i) ->
  highest_index seen indexes -> highest_index seen' indexes.
Proof.
  intros Heq Hinv item. specialize (Hinv item).
  destruct (dict_get indexes item) as [i|].
  - destruct Hinv as [Hseen Hmax]. split; [apply Heq, Hseen|].
    intros j Hj. apply Hmax, Heq, Hj.
  - intros j Hj. apply (Hinv j), Heq, Hj.
Qed.

Lemma record_index_highest seen item i indexes :
  highest_index seen indexes ->
  highest_index (fun k n => seen k n \/ (k = item /\ n = i))
    (record_index item i indexes).
Proof.
  intros Hinv k. rewrite dict_get_record_index.
  destruct (decide (k = item)) as [->|Hne].
  - specialize (Hinv item). destruct (dict_get indexes item) as [n|].
    + destruct Hinv as [Hseen Hmax].
      destruct (Nat.ltb_spec n i) as [Hlt|Hge].
      * split; [right; split; reflexivity|].
        intros j [Hj|[_ ->]]; [apply Hmax in Hj; lia | lia].
      * split; [left; exact Hseen|].
        intros j [Hj|[_ ->]]; [apply Hmax, Hj | lia].
    + split; [right; split; reflexivity|].
      intros j [Hj|[_ ->]]; [destruct (Hinv j Hj) | lia].
  - specialize (Hinv k). destruct (dict_get indexes k) as [n|].
    + destruct Hinv as [Hseen Hmax]. split; [left; exact Hseen|].
      intros j [Hj|[? _]]; [apply Hmax, Hj | contradiction].
    + intros j [Hj|[? _]]; [apply (Hinv j Hj) | contradiction].
Qed.

Lemma record_list_highest l seen i indexes :
  highest_index seen indexes ->
  highest_index
    (fun k n => seen k n \/ exists j, n = i + j /\ l !! j = Some k)
    (record_list i l indexes).
Proof.
  revert seen i indexes.
  induction l as [|item l IH]; intros seen i indexes Hinv; cbn [record_list].
  - apply (highest_index_proper seen); [|exact Hinv].
    intros k n. split; [auto|]. intros [?|(j & _ & Hj)]; [assumption|].
    rewrite lookup_nil in Hj. discriminate.
  - apply (highest_index_proper
             (fun k n => (seen k n \/ (k = item /\ n = i))
                         \/ exists j, n = S i + j /\ l !! j = Some k)).
    + intros k n. split.
      * intros [[?|[-> ->]]|(j & -> & Hj)].
        -- left. assumption.
        -- right. exists 0. split; [lia | reflexivity].
        -- right. exists (S j). split; [lia | exact Hj].
      * intros [?|(j & -> & Hj)]; [left; left; assumption|].
        destruct j as [|j].
        -- left. right. cbn in Hj. injection Hj as <-. split; [reflexivity|lia].
        -- right. exists j. split; [lia | exact Hj].
    + apply IH, record_index_highest, Hinv.
Qed.

Lemma record_lists_highest lists seen indexes :
  highest_index seen indexes ->
  highest_index
    (fun k n => seen k n \/ exists l, l ∈ lists /\ l !! n = Some k)
    (fold_left (fun indexes l => record_list 0 l indexes) lists indexes).
Proof.
  revert seen indexes.
  induction lists as [|l lists IH]; intros seen indexes Hinv; cbn [fold_left].
  - apply (highest_index_proper seen); [|exact Hinv].
    intros k n. split; [auto|]. intros [?|(l & Hl & _)]; [assumption|].
    apply elem_of_nil in Hl. destruct Hl.
  - apply (highest_index_proper
             (fun k n => (seen k n \/ exists j, n = 0 + j /\ l !! j = Some k)
                         \/ exists l', l' ∈ lists /\ l' !! n = Some k)).
    + intros k n. split.
      * intros [[?|(j & -> & Hj)]|(l' & Hl' & Hn)].
        -- left. assumption.
        -- right. exists l. split; [apply list_elem_of_here | exact Hj].
        -- right. exists l'. split; [apply list_elem_of_further, Hl' | exact Hn].
      * intros [?|(l' & Hl' & Hn)]; [left; left; assumption|].
        apply elem_of_cons in Hl' as [->|Hl'].
        -- left. right. exists n. split; [reflexivity | exact Hn].
        -- right. exists l'. split; assumption.
    + apply IH, record_list_highest, Hinv.
Qed.

Lemma record_lists_NoDup lists indexes :
  NoDup indexes.*1 ->
  NoDup (fold_left (fun indexes l => record_list 0 l indexes) lists indexes).*1.
Proof.
  revert indexes.
  induction lists as [|l lists IH]; intros indexes Hnd; cbn [fold_left];
    [assumption|].
  apply IH, record_list_NoDup, Hnd.
Qed.

Lemma dict_get_elem {V} (d : list (string * V)) k v :
  NoDup d.*1 -> (k, v) ∈ d <-> dict_get d k = Some v.
Proof.
  induction d as [|[k' v'] d IH]; cbn [dict_get fmap list_fmap fst].
  - intros _. rewrite elem_of_nil. split; [tauto | discriminate].
  - intros Hnd. apply NoDup_cons in Hnd as [Hnotin Hnd].
    rewrite elem_of_cons.
    destruct (String.eqb_spec k' k) as [->|Hne].
    + split.
      * intros [Heq|Hin]; [congruence|].
        destruct Hnotin. apply list_elem_of_fmap. exists (k, v).
        split; [reflexivity | exact Hin].
      * intros Heq. left. congruence.
    + rewrite <- (IH Hnd). split; [|tauto].
      intros [Heq|Hin]; [congruence | exact Hin].
Qed.

Lemma index_of_list_items_inv lists :
  exists indexes,
    index_of_list_items lists ≡ₚ indexes
    /\ NoDup indexes.*1
    /\ highest_index (fun k n => exists l, l ∈ lists /\ l !! n = Some k)
         indexes.
Proof.
  exists (fold_left (fun indexes l => record_list 0 l indexes) lists []).
  split; [apply most_common_perm|].
  split; [apply record_lists_NoDup; cbn; apply NoDup_nil_2|].
  apply (highest_index_proper
           (fun k n => False \/ exists l, l ∈ lists /\ l !! n = Some k)).
  - intros k n. tauto.
  - apply record_lists_highest. intros item. cbn. tauto.
Qed.

(** An item seen at some index is a key of the result, with an index that is
    not smaller. *)
Lemma index_of_list_items_present lists l j item :
  l ∈ lists -> l !! j = Some item ->
  exists i, (item, i) ∈ index_of_list_items lists /\ j <= i.
Proof.
  intros Hl Hj.
  destruct (index_of_list_items_inv lists) as (indexes & Hperm & Hnd & Hinv).
  specialize (Hinv item). destruct (dict_get indexes item) as [i|] eqn:Hget.
  - exists i. destruct Hinv as [_ Hmax].
    split; [|apply Hmax; exists l; auto].
    rewrite Hperm. apply dict_get_elem; assumption.
  - destruct (Hinv j). exists l. auto.
Qed.

Lemma index_of_list_items_seen lists item i :
  (item, i) ∈ index_of_list_items lists ->
  exists l, l ∈ lists /\ l !! i = Some item.
Proof.
  destruct (index_of_list_items_inv lists) as (indexes & Hperm & Hnd & Hinv).
  rewrite Hperm, (dict_get_elem indexes item i Hnd). intros Hget.
  specialize (Hinv item). rewrite Hget in Hinv. apply Hinv.
Qed.

Lemma index_of_list_items_sorted lists :
  StronglySorted count_ge (index_of_list_items lists).
Proof. apply most_common_sorted. Qed.

(** X21.  [index_of_list_items] returns one entry per distinct item of the
    lists, in decreasing order of index, and the index of an item is the
    highest position at which any of the lists holds it. *)
Theorem index_of_list_items_highest lists :
  NoDup (index_of_list_items lists).*1
  /\ StronglySorted count_ge (index_of_list_items lists)
  /\ forall item i,
       (item, i) ∈ index_of_list_items lists
       <-> (exists l, l ∈ lists /\ l !! i = Some item)
           /\ forall l j, l ∈ lists -> l !! j = Some item -> j <= i.
Proof.
  destruct (index_of_list_items_inv lists) as (indexes & Hperm & Hnd & Hinv).
  split; [rewrite Hperm; exact Hnd|].
  split; [apply most_common_sorted|].
  intros item i. rewrite Hperm, (dict_get_elem indexes item i Hnd).
  specialize (Hinv item). split.
  - intros Hget. rewrite Hget in Hinv. destruct Hinv as [Hseen Hmax].
    split; [exact Hseen|]. intros l j Hl Hj. apply Hmax. exists l. auto.
  - intros [Hseen Hmax]. destruct (dict_get indexes item) as [n|].
    + destruct Hinv as [Hseen' Hmax']. f_equal.
      destruct Hseen' as (l' & Hl' & Hn). specialize (Hmax l' n Hl' Hn).
      specialize (Hmax' i Hseen). lia.
    + destruct (Hinv i Hseen).
Qed.

(** ** [lca_majority] *)

Lemma dict_get_set {V} k (v : V) d k' :
  dict_get (dict_set k v d) k'
  = if decide (k' = k) then Some v else dict_get d k'.
Proof.
  induction d as [|[k0 v0] d IH]; cbn [dict_set dict_get].
  - destruct (String.eqb_spec k k'), (decide (k' = k)); congruence.
  - destruct (String.eqb_spec k0 k) as [->|Hne]; cbn [dict_get].
    + destruct (String.eqb_spec k k'), (decide (k' = k)); congruence.
    + rewrite IH.
      destruct (String.eqb_spec k0 k'), (decide (k' = k)); congruence.
Qed.

Lemma dict_set_keys {V} k (v : V) d k' :
  k' ∈ (dict_set k v d).*1 <-> k' = k \/ k' ∈ d.*1.
Proof.
  induction d as [|[k0 v0] d IH]; cbn [dict_set fmap list_fmap].
  - rewrite list_elem_of_singleton. cbn. rewrite elem_of_nil. tauto.
  - destruct (String.eqb_spec k0 k) as [->|Hne]; cbn [fmap list_fmap fst].
    + rewrite !elem_of_cons. tauto.
    + rewrite !elem_of_cons. fold (fmap (M := list) (@fst string V)).
      rewrite IH. tauto.
Qed.

Lemma dict_set_NoDup {V} k (v : V) d :
  NoDup d.*1 -> NoDup (dict_set k v d).*1.
Proof.
  induction d as [|[k0 v0] d IH]; cbn [dict_set fmap list_fmap fst].
  - intros _. apply NoDup_singleton.
  - intros Hnd. apply NoDup_cons in Hnd as [Hnotin Hnd].
    destruct (String.eqb_spec k0 k) as [->|Hne]; cbn [fmap list_fmap fst].
    + apply NoDup_cons. split; assumption.
    + apply NoDup_cons. split; [|apply IH; assumption].
      fold (fmap (M := list) (@fst string V)).
      rewrite dict_set_keys. intros [?|?]; [congruence|contradiction].
Qed.

(** The values of a dict are what its keys resolve to. *)
Lemma dict_values {V} (d : list (string * V)) v :
  NoDup d.*1 -> v ∈ d.*2 <-> exists k, dict_get d k = Some v.
Proof.
  intros Hnd. rewrite list_elem_of_fmap. split.
  - intros ([k v'] & -> & Hin). exists k. apply dict_get_elem; assumption.
  - intros (k & Hget). exists (k, v). split; [reflexivity|].
    apply dict_get_elem; assumption.
Qed.

Lemma lineage_of_NoDup tree taxon lin : lineage_of tree taxon lin -> NoDup lin.
Proof.
  intros (node & p & _ & Hpath & ->). apply NoDup_cons. split.
  - rewrite elem_of_reverse. apply (path_not_root tree _ _ Hpath).
  - rewrite reverse_Permutation. apply (path_NoDup tree _ _ Hpath).
Qed.


(** A lineage depends on the node id only. *)
Lemma lineage_of_same_id tree taxon taxon' node node' lin :
  tree !! taxon = Some node -> tree !! taxon' = Some node' ->
  node_id node = node_id node' ->
  lineage_of tree taxon lin -> lineage_of tree taxon' lin.
Proof.
  intros Hnode Hnode' Hid (node0 & p & Hnode0 & Hpath & ->).
  exists node', p. split; [assumption|]. split; [|reflexivity].
  rewrite <- Hid. congruence.
Qed.

Lemma count_in_NoDup (k : string) (l : list string) :
  NoDup l ->
  length (filter (fun x => x = k) l) = if decide (k ∈ l) then 1 else 0.
Proof.
  induction 1 as [|x l Hnotin Hnd IH]; [reflexivity|].
  rewrite filter_cons. destruct (decide (x = k)) as [->|Hne].
  - cbn [length]. rewrite IH.
    destruct (decide (k ∈ l)); [contradiction|].
    destruct (decide (k ∈ k :: l)) as [|Hn]; [reflexivity|].
    destruct Hn. apply list_elem_of_here.
  - rewrite IH. destruct (decide (k ∈ l)) as [Hin|Hnin].
    + destruct (decide (k ∈ x :: l)) as [|Hn]; [reflexivity|].
      destruct Hn. apply list_elem_of_further, Hin.
    + destruct (decide (k ∈ x :: l)) as [Hin|]; [|reflexivity].
      apply elem_of_cons in Hin as [?|?]; [congruence | contradiction].
Qed.

Lemma count_concat_NoDup (k : string) (ls : list (list string)) :
  Forall NoDup ls ->
  length (filter (fun x => x = k) (concat ls)) = occurrences k ls.
Proof.
  unfold occurrences.
  induction 1 as [|l ls Hnd _ IH]; [reflexivity|].
  cbn [concat]. rewrite filter_app, length_app, IH, (count_in_NoDup k l Hnd).
  rewrite filter_cons. destruct (decide (k ∈ l)); reflexivity.
Qed.

Lemma lca_majority_collect_spec tree fuel taxa lins :
  Forall2 (lineage_of tree) taxa lins ->
  Forall (fun lin => length lin <= fuel) lins ->
  forall lineage_counts lineages,
  exists lineages',
    lca_majority_collect fuel tree taxa lineage_counts lineages
    = Ok (fold_left (fun c k => Counter.incr k c) (concat lins) lineage_counts,
          lineages')
    /\ (NoDup lineages.*1 -> NoDup lineages'.*1)
    /\ forall k,
         (exists taxon node lin,
            taxon ∈ taxa /\ tree !! taxon = Some node /\ node_id node = k
            /\ lineage_of tree taxon lin /\ lin ∈ lins
            /\ dict_get lineages' k = Some lin)
         \/ ((forall taxon node,
                taxon ∈ taxa -> tree !! taxon = Some node -> node_id node <> k)
             /\ dict_get lineages' k = dict_get lineages k).
Proof.
  induction 1 as [|taxon lin taxa lins Hlin Hrest IH];
    intros Hfuel lineage_counts lineages.
  - exists lineages. split; [reflexivity|]. split; [auto|].
    intros k. right. split; [|reflexivity].
    intros taxon node Hin. apply elem_of_nil in Hin. destruct Hin.
  - apply Forall_cons in Hfuel as [Hlen Hfuel].
    cbn [lca_majority_collect].
    rewrite (lineage_of_computed tree taxon lin Hlin fuel Hlen).
    cbn [bind]. destruct Hlin as (node & p & Hnode & Hpath & Hlin_eq).
    assert (lineage_of tree taxon lin) as Hlin
      by (exists node, p; auto).
    rewrite Hnode.
    destruct (IH Hfuel
                (fold_left (fun c k => Counter.incr k c) lin lineage_counts)
                (dict_set (node_id node) lin lineages))
      as (lineages' & Hrun & Hnd & Hkeys).
    exists lineages'. split; [|split].
    + rewrite Hrun. cbn [concat]. rewrite fold_left_app. reflexivity.
    + intros Hnd0. apply Hnd, dict_set_NoDup, Hnd0.
    + intros k. destruct (Hkeys k) as
        [(taxon' & node' & lin' & Hin & Hnode' & Hid & Hlin' & Hmem & Hget)
        |[Hnone Hget]].
      * left. exists taxon', node', lin'.
        split; [apply list_elem_of_further, Hin|].
        split; [assumption|]. split; [assumption|]. split; [assumption|].
        split; [apply list_elem_of_further, Hmem | assumption].
      * rewrite dict_get_set in Hget.
        destruct (decide (k = node_id node)) as [->|Hne].
        -- left. exists taxon, node, lin.
           split; [apply list_elem_of_here|]. split; [assumption|].
           split; [reflexivity|]. split; [assumption|].
           split; [apply list_elem_of_here | assumption].
        -- right. split; [|assumption].
           intros taxon' node' Hin Hnode'.
           apply elem_of_cons in Hin as [->|Hin].
           ++ rewrite Hnode in Hnode'. injection Hnode' as <-. congruence.
           ++ apply (Hnone taxon' node' Hin Hnode').
Qed.

(** What the first loop of [lca_majority] leaves: the count of an id is the
    number of taxa whose lineage holds it, every taxon finds its lineage under
    its node id, and the lineages stored are those of the taxa. *)
Lemma lca_majority_collect_result tree fuel taxa lins :
  Forall2 (lineage_of tree) taxa lins ->
  Forall (fun lin => length lin <= fuel) lins ->
  exists lineage_counts lineages,
    lca_majority_collect fuel tree taxa [] [] = Ok (lineage_counts, lineages)
    /\ NoDup lineages.*1
    /\ (forall y, Counter.get lineage_counts y = occurrences y lins)
    /\ (forall taxon lin,
          taxon ∈ taxa -> lineage_of tree taxon lin ->
          exists node,
            tree !! taxon = Some node
            /\ dict_get lineages (node_id node) = Some lin)
    /\ (forall k lin,
          dict_get lineages k = Some lin ->
          lin ∈ lins
          /\ exists taxon node,
               taxon ∈ taxa /\ tree !! taxon = Some node /\ node_id node = k
               /\ lineage_of tree taxon lin).
Proof.
  intros Hlins Hfuel.
  destruct (lca_majority_collect_spec tree fuel taxa lins Hlins Hfuel [] [])
    as (lineages & Hrun & Hnd & Hkeys).
  eexists _, lineages. split; [exact Hrun|].
  split; [apply Hnd; cbn; apply NoDup_nil_2|]. split; [|split].
  - intros y. rewrite counter_fold_get. cbn [Counter.get].
    apply count_concat_NoDup.
    clear -Hlins. induction Hlins as [|taxon lin taxa lins Hlin _ IH];
      constructor; [apply (lineage_of_NoDup tree taxon lin Hlin) | exact IH].
  - intros taxon lin Hin Hlin.
    destruct Hlin as (node & p & Hnode & Hpath & Hlin_eq).
    assert (lineage_of tree taxon lin) as Hlin by (exists node, p; auto).
    exists node. split; [assumption|].
    destruct (Hkeys (node_id node)) as
      [(taxon' & node' & lin' & Hin' & Hnode' & Hid & Hlin' & _ & Hget)
      |[Hnone _]].
    + rewrite Hget. f_equal.
      apply (lineage_of_functional tree taxon); [|assumption].
      apply (lineage_of_same_id tree taxon' taxon node' node); assumption.
    + destruct (Hnone taxon node Hin Hnode). reflexivity.
  - intros k lin Hget.
    destruct (Hkeys k) as
      [(taxon' & node' & lin' & Hin' & Hnode' & Hid & Hlin' & Hmem & Hget')
      |[_ Hget']].
    + rewrite Hget in Hget'. injection Hget' as <-.
      split; [assumption|]. exists taxon', node'. auto.
    + rewrite Hget in Hget'. discriminate.
Qed.

Lemma first_above_spec majority_cutoff lineage_counts ids :
  match first_above majority_cutoff lineage_counts ids with
  | Some id =>
      exists before after,
        ids = before ++ id :: after
        /\ Qlt_bool majority_cutoff
             (Q_of_nat (Counter.get lineage_counts id)) = true
        /\ forall y, y ∈ before ->
             Qlt_bool majority_cutoff
               (Q_of_nat (Counter.get lineage_counts y)) = false
  | None =>
      forall y, y ∈ ids ->
        Qlt_bool majority_cutoff
          (Q_of_nat (Counter.get lineage_counts y)) = false
  end.
Proof.
  induction ids as [|id ids IH]; cbn [first_above].
  - intros y Hin. apply elem_of_nil in Hin. destruct Hin.
  - destruct (Qlt_bool majority_cutoff
                (Q_of_nat (Counter.get lineage_counts id))) eqn:Hid.
    + exists [], ids. split; [reflexivity|]. split; [exact Hid|].
      intros y Hin. apply elem_of_nil in Hin. destruct Hin.
    + destruct (first_above majority_cutoff lineage_counts ids) as [id'|].
      * destruct IH as (before & after & -> & Habove & Hbefore).
        exists (id :: before), after. split; [reflexivity|].
        split; [exact Habove|].
        intros y Hin. apply elem_of_cons in Hin as [->|Hin]; auto.
      * intros y Hin. apply elem_of_cons in Hin as [->|Hin]; auto.
Qed.

(** In a list sorted by decreasing index, an entry with a strictly larger
    index comes first. *)
Lemma sorted_desc_before (before after : list (string * nat)) x y :
  StronglySorted count_ge (before ++ x :: after) ->
  y ∈ before ++ x :: after -> snd x < snd y -> y ∈ before.
Proof.
  intros Hsorted Hin Hlt.
  apply elem_of_app in Hin as [Hin|Hin]; [exact Hin|].
  apply StronglySorted_app_1_r in Hsorted.
  apply StronglySorted_inv in Hsorted as [_ Hall].
  apply elem_of_cons in Hin as [->|Hin]; [lia|].
  rewrite Forall_forall in Hall. specialize (Hall y Hin).
  unfold count_ge in Hall. lia.
Qed.

Lemma lca_majority_run fuel tree taxa majority_cutoff lineage_counts lineages :
  lca_majority_collect fuel tree taxa [] [] = Ok (lineage_counts, lineages) ->
  lca_majority fuel tree taxa majority_cutoff
  = Ok (default "1"
          (first_above majority_cutoff lineage_counts
             (index_of_list_items lineages.*2).*1),
        lineages).
Proof.
  intros Hrun. unfold lca_majority. rewrite Hrun. cbn [bind fst snd].
  destruct (first_above _ _ _); reflexivity.
Qed.

(** X22.  On taxa that all have a lineage the fuel covers, [lca_majority]
    returns, and the id it returns is the deepest one that lies on the lineage
    of more than [majority_cutoff] of the taxa (counted with repetitions): it
    lies on that many lineages, at a position that no id with that many
    lineages is found beyond.  When no id of any lineage lies on that many, the
    result is the root id "1". *)
Theorem lca_majority_deepest_above tree fuel taxa lins majority_cutoff :
  Forall2 (lineage_of tree) taxa lins ->
  Forall (fun lin => length lin <= fuel) lins ->
  exists id lineages,
    lca_majority fuel tree taxa majority_cutoff = Ok (id, lineages)
    /\ ((id = "1"
         /\ forall lin y, lin ∈ lins -> y ∈ lin ->
              ~ (majority_cutoff < Q_of_nat (occurrences y lins))%Q)
        \/ ((majority_cutoff < Q_of_nat (occurrences id lins))%Q
            /\ exists lin i,
                 lin ∈ lins /\ lin !! i = Some id
                 /\ forall lin' j y,
                      lin' ∈ lins -> lin' !! j = Some y ->
                      (majority_cutoff < Q_of_nat (occurrences y lins))%Q ->
                      j <= i)).
Proof.
  intros Hlins Hfuel.
  destruct (lca_majority_collect_result tree fuel taxa lins Hlins Hfuel)
    as (lineage_counts & lineages & Hrun & Hnd & Hcount & Hfound & Hstored).
  assert (forall lin, lin ∈ lineages.*2 -> lin ∈ lins) as Hvalues.
  { intros lin Hin. apply (dict_values lineages lin Hnd) in Hin as [k Hget].
    apply (Hstored k lin Hget). }
  assert (forall lin, lin ∈ lins -> lin ∈ lineages.*2) as Hvalues'.
  { intros lin Hin. apply (dict_values lineages lin Hnd).
    apply list_elem_of_lookup in Hin as [n Hn].
    destruct (Forall2_lookup_r _ _ _ _ _ Hlins Hn) as (taxon & Htaxon & Hlin).
    apply list_elem_of_lookup_2 in Htaxon.
    destruct (Hfound taxon lin Htaxon Hlin) as (node & _ & Hget).
    exists (node_id node). exact Hget. }
  eexists _, lineages.
  split; [apply (lca_majority_run _ _ _ _ _ _ Hrun)|].
  pose proof (first_above_spec majority_cutoff lineage_counts
                (index_of_list_items lineages.*2).*1) as Hfirst.
  destruct (first_above majority_cutoff lineage_counts
              (index_of_list_items lineages.*2).*1) as [id|]; cbn [default].
  - right. destruct Hfirst as (before & after & Hsplit & Habove & Hbefore).
    rewrite Hcount in Habove. split; [apply Qlt_bool_iff, Habove|].
    apply fmap_app_inv in Hsplit as (before' & rest & -> & Hrest & Hsplit).
    symmetry in Hrest.
    apply fmap_cons_inv in Hrest as ([id' i] & after' & Hid & -> & ->).
    cbn [fst] in Hid. subst id'.
    assert ((id, i) ∈ index_of_list_items lineages.*2) as Hin.
    { rewrite Hsplit. apply elem_of_app. right. apply list_elem_of_here. }
    destruct (index_of_list_items_seen _ _ _ Hin) as (lin & Hlin & Hi).
    exists lin, i. split; [apply Hvalues, Hlin|]. split; [exact Hi|].
    intros lin' j y Hlin' Hj Hy.
    destruct (index_of_list_items_present lineages.*2 lin' j y
                (Hvalues' lin' Hlin') Hj) as (jy & Hjy & Hle).
    destruct (Nat.lt_ge_cases i jy) as [Hlt|Hge]; [|lia].
    assert ((y, jy) ∈ before') as Hearlier.
    { apply (sorted_desc_before before' after' (id, i)).
      - rewrite <- Hsplit. apply index_of_list_items_sorted.
      - rewrite <- Hsplit. exact Hjy.
      - exact Hlt. }
    assert (y ∈ before'.*1) as Hkey
      by (apply list_elem_of_fmap; exists (y, jy); auto).
    specialize (Hbefore y Hkey). rewrite Hcount in Hbefore.
    apply Qlt_bool_iff in Hy. congruence.
  - left. split; [reflexivity|]. intros lin y Hlin Hy.
    apply list_elem_of_lookup in Hy as [j Hj].
    destruct (index_of_list_items_present lineages.*2 lin j y
                (Hvalues' lin Hlin) Hj) as (jy & Hjy & _).
    intros Hlt. apply Qlt_bool_iff in Hlt. rewrite <- Hcount in Hlt.
    rewrite Hfirst in Hlt; [discriminate|].
    apply list_elem_of_fmap. exists (y, jy). auto.
Qed.

Lemma example_lineage_bacteria : lineage_of example_tree "Bacteria" ["1"; "2"].
Proof.
  exists (mkNode "Bacteria" "2" "1"), ["2"].
  split; [reflexivity|]. split; [apply example_walk_bacteria | reflexivity].
Qed.

Lemma example_lineages :
  Forall2 (lineage_of example_tree) ["1236"; "Alphaproteobacteria"; "Bacteria"]
    [["1"; "2"; "1224"; "1236"]; ["1"; "2"; "1224"; "28211"]; ["1"; "2"]].
Proof.
  constructor; [apply example_lineage_gamma|].
  constructor; [apply example_lineage_alpha|].
  constructor; [apply example_lineage_bacteria | constructor].
Qed.

Lemma example_lineages_fuel :
  Forall (fun lin : list string => length lin <= 10)
    [["1"; "2"; "1224"; "1236"]; ["1"; "2"; "1224"; "28211"]; ["1"; "2"]].
Proof. repeat constructor; cbn [length]; lia. Qed.

Lemma lca_majority_deepest_above_witness :
  exists id lineages,
    lca_majority 10 example_tree ["1236"; "Alphaproteobacteria"; "Bacteria"]
      (3 # 2)
    = Ok (id, lineages)
    /\ id = "1224".
Proof.
  destruct (lca_majority_deepest_above example_tree 10
              ["1236"; "Alphaproteobacteria"; "Bacteria"]
              [["1"; "2"; "1224"; "1236"]; ["1"; "2"; "1224"; "28211"];
               ["1"; "2"]]
              (3 # 2) example_lineages example_lineages_fuel)
    as (id & lineages & Hrun & _).
  exists id, lineages. split; [exact Hrun|].
  assert (exists l,
            lca_majority 10 example_tree
              ["1236"; "Alphaproteobacteria"; "Bacteria"] (3 # 2)
            = Ok ("1224", l)) as [l Hl]
    by (eexists; vm_compute; reflexivity).
  rewrite Hl in Hrun. congruence.
Defined.

(** X23.  The lineages that [lca_majority] returns are keyed by node id, also
    for taxa given by name: every taxon of the list finds its own lineage under
    the id of its node, and every entry is the lineage of a taxon of the list
    under that taxon's node id. *)
Theorem lca_majority_lineages_by_id tree fuel taxa lins majority_cutoff :
  Forall2 (lineage_of tree) taxa lins ->
  Forall (fun lin => length lin <= fuel) lins ->
  exists id lineages,
    lca_majority fuel tree taxa majority_cutoff = Ok (id, lineages)
    /\ (forall taxon lin,
          taxon ∈ taxa -> lineage_of tree taxon lin ->
          exists node,
            tree !! taxon = Some node
            /\ dict_get lineages (node_id node) = Some lin)
    /\ (forall k lin,
          dict_get lineages k = Some lin ->
          exists taxon node,
            taxon ∈ taxa /\ tree !! taxon = Some node /\ node_id node = k
            /\ lineage_of tree taxon lin).
Proof.
  intros Hlins Hfuel.
  destruct (lca_majority_collect_result tree fuel taxa lins Hlins Hfuel)
    as (lineage_counts & lineages & Hrun & Hnd & Hcount & Hfound & Hstored).
  eexists _, lineages.
  split; [apply (lca_majority_run _ _ _ _ _ _ Hrun)|].
  split; [exact Hfound|].
  intros k lin Hget. apply (Hstored k lin Hget).
Qed.

Lemma lca_majority_lineages_by_id_witness :
  exists id lineages,
    lca_majority 10 example_tree ["1236"; "Alphaproteobacteria"; "Bacteria"]
      (3 # 2)
    = Ok (id, lineages)
    /\ dict_get lineages "28211" = Some ["1"; "2"; "1224"; "28211"].
Proof.
  destruct (lca_majority_lineages_by_id example_tree 10
              ["1236"; "Alphaproteobacteria"; "Bacteria"]
              [["1"; "2"; "1224"; "1236"]; ["1"; "2"; "1224"; "28211"];
               ["1"; "2"]]
              (3 # 2) example_lineages example_lineages_fuel)
    as (id & lineages & Hrun & Hfound & _).
  exists id, lineages. split; [exact Hrun|].
  destruct (Hfound "Alphaproteobacteria" ["1"; "2"; "1224"; "28211"])
    as (node & Hnode & Hget).
  - apply list_elem_of_further, list_elem_of_here.
  - apply example_lineage_alpha.
  - assert (example_tree !! "Alphaproteobacteria"
            = Some (mkNode "Alphaproteobacteria" "28211" "1224")) as Hlook
      by reflexivity.
    rewrite Hlook in Hnode. injection Hnode as <-. exact Hget.
Defined.

(** The id returned by [lca_majority] lies on the lineage of one of the taxa,
    when there is one. *)
Lemma lca_majority_result tree fuel taxa lins majority_cutoff :
  Forall2 (lineage_of tree) taxa lins ->
  Forall (fun lin => length lin <= fuel) lins ->
  exists id lineages,
    lca_majority fuel tree taxa majority_cutoff = Ok (id, lineages)
    /\ (forall taxon lin,
          taxon ∈ taxa -> lineage_of tree taxon lin ->
          exists node,
            tree !! taxon = Some node
            /\ dict_get lineages (node_id node) = Some lin)
    /\ (id = "1" \/ exists lin, lin ∈ lins /\ id ∈ lin).
Proof.
  intros Hlins Hfuel.
  destruct (lca_majority_collect_result tree fuel taxa lins Hlins Hfuel)
    as (lineage_counts & lineages & Hrun & Hnd & Hcount & Hfound & Hstored).
  eexists _, lineages.
  split; [apply (lca_majority_run _ _ _ _ _ _ Hrun)|].
  split; [exact Hfound|].
  pose proof (first_above_spec majority_cutoff lineage_counts
                (index_of_list_items lineages.*2).*1) as Hfirst.
  destruct (first_above majority_cutoff lineage_counts
              (index_of_list_items lineages.*2).*1) as [id|]; cbn [default];
    [|left; reflexivity].
  right. destruct Hfirst as (before & after & Hsplit & _ & _).
  assert (id ∈ (index_of_list_items lineages.*2).*1) as Hin.
  { rewrite Hsplit. apply elem_of_app. right. apply list_elem_of_here. }
  apply list_elem_of_fmap in Hin as ([id' i] & -> & Hin). cbn [fst].
  destruct (index_of_list_items_seen _ _ _ Hin) as (lin & Hlin & Hi).
  exists lin. split; [|apply (list_elem_of_lookup_2 _ _ _ Hi)].
  apply (dict_values lineages lin Hnd) in Hlin as [k Hget].
  apply (Hstored k lin Hget).
Qed.

(** ** [counts_to_majority_list] and [lca_star] *)

Lemma counts_to_majority_list_spec tree taxonomy_counts lineages majority_id :
  (forall taxon n,
     (taxon, n) ∈ taxonomy_counts ->
     exists node lin,
       tree !! taxon = Some node
       /\ dict_get lineages (node_id node) = Some lin) ->
  exists aggregate,
    counts_to_majority_list tree taxonomy_counts lineages majority_id
    = Ok (inr aggregate)
    /\ length aggregate = sum_list taxonomy_counts.*2
    /\ (forall taxon n node lin,
          (taxon, n) ∈ taxonomy_counts -> 0 < n ->
          tree !! taxon = Some node ->
          dict_get lineages (node_id node) = Some lin ->
          majority_id ∈ lin -> majority_id ∈ aggregate)
    /\ (forall x,
          x ∈ aggregate ->
          x = majority_id
          \/ exists taxon n node lin,
               (taxon, n) ∈ taxonomy_counts /\ tree !! taxon = Some node
               /\ dict_get lineages (node_id node) = Some lin
               /\ (majority_id ∉ lin) /\ x = node_id node).
Proof.
  induction taxonomy_counts as [|[taxon n] rest IH]; intros Hall.
  - exists []. split; [reflexivity|]. split; [reflexivity|]. split.
    + intros taxon n node lin Hin. apply elem_of_nil in Hin. destruct Hin.
    + intros x Hin. apply elem_of_nil in Hin. destruct Hin.
  - destruct (Hall taxon n (list_elem_of_here (taxon, n) rest))
      as (node & lin & Hnode & Hget).
    destruct IH as (aggregate & Hrun & Hlen & Hmaj & Hentries).
    { intros taxon' n' Hin. apply (Hall taxon' n'), list_elem_of_further, Hin. }
    cbn [counts_to_majority_list]. rewrite Hnode, Hget, Hrun. cbn [bind].
    eexists. split; [reflexivity|]. split; [|split].
    + rewrite length_app, length_replicate, Hlen. reflexivity.
    + intros taxon' n' node' lin' Hin Hpos Hnode' Hget' Hmem.
      apply elem_of_app. apply elem_of_cons in Hin as [Heq|Hin].
      * injection Heq as -> ->. left.
        rewrite Hnode in Hnode'. injection Hnode' as <-.
        rewrite Hget in Hget'. injection Hget' as <-.
        rewrite bool_decide_eq_true_2 by exact Hmem.
        destruct n as [|n]; [lia|]. apply list_elem_of_here.
      * right. apply (Hmaj taxon' n' node' lin'); assumption.
    + intros x Hin. apply elem_of_app in Hin as [Hin|Hin].
      * apply elem_of_replicate in Hin as [-> _].
        destruct (bool_decide_reflect (majority_id ∈ lin)) as [Hmem|Hmem];
          [left; reflexivity|].
        right. exists taxon, n, node, lin.
        split; [apply list_elem_of_here|]. auto.
      * destruct (Hentries x Hin) as
          [->|(taxon' & n' & node' & lin' & Hin' & Hrest)];
          [left; reflexivity|].
        right. exists taxon', n', node', lin'.
        split; [apply list_elem_of_further, Hin' | exact Hrest].
Qed.

Lemma count_positive (k : string) (items : list string) :
  k ∈ items -> 0 < length (filter (fun x => x = k) items).
Proof.
  induction 1 as [k items|k x items _ IH].
  - rewrite filter_cons_True by reflexivity. cbn [length]. lia.
  - rewrite filter_cons. destruct (decide (x = k)); cbn [length]; lia.
Qed.



Lemma Forall2_elem_of_l {A B} (P : A -> B -> Prop) l k x :
  Forall2 P l k -> x ∈ l -> exists y, y ∈ k /\ P x y.
Proof.
  intros Hall Hin. apply list_elem_of_lookup in Hin as [i Hi].
  destruct (Forall2_lookup_l _ _ _ _ _ Hall Hi) as (y & Hy & HP).
  exists y. split; [apply (list_elem_of_lookup_2 _ _ _ Hy) | exact HP].
Qed.


Lemma counter_of_list_entry items k n :
  (k, n) ∈ Counter.of_list items -> k ∈ items /\ 0 < n.
Proof.
  intros Hin.
  assert (k ∈ items) as Hk.
  { apply counter_of_list_keys, list_elem_of_fmap. exists (k, n). auto. }
  split; [exact Hk|].
  rewrite <- (counter_get_in k n _ (counter_of_list_NoDup items) Hin).
  rewrite counter_get_count. apply count_positive, Hk.
Qed.


Lemma lca_star_unfold fuel tree taxa min_tree_depth majority_threshold kept :
  filter_taxonomy_list fuel tree taxa min_tree_depth = Ok kept ->
  lca_star fuel tree taxa min_tree_depth majority_threshold
  = match kept with
    | [] => Ok (inr ("root", P_one))
    | _ :: _ =>
        let taxonomy_counts := Counter.of_list kept in
        let majority_cutoff :=
          fmul (float_of_nat (length kept)) majority_threshold in
        match Counter.most_common taxonomy_counts with
        | [] => Raise IndexError
        | (majority, top_count) :: _ =>
            if Qlt_bool majority_cutoff (Q_of_nat top_count) then
              let! p := nettleton_pvalue kept majority in
              Ok (inr (majority, p))
            else
              let! found := lca_majority fuel tree kept majority_cutoff in
              let! aggregate_counts :=
                counts_to_majority_list tree taxonomy_counts (snd found)
                  (fst found) in
              match aggregate_counts with
              | inl e => Ok (inl e)
              | inr aggregate_counts =>
                  let! p := nettleton_pvalue aggregate_counts (fst found) in
                  Ok (inr (fst found, p))
              end
        end
    end.
Proof. intros Hfilter. unfold lca_star. rewrite Hfilter. reflexivity. Qed.







Lemma deep_enough_none min_tree_depth taxa ps :
  Forall (fun p => (Z.of_nat (length p) < min_tree_depth)%Z) ps ->
  deep_enough min_tree_depth taxa ps = [].
Proof.
  intros Hall. revert taxa.
  induction Hall as [|p ps Hp _ IH]; intros [|taxon taxa]; try reflexivity.
  cbn [deep_enough].
  destruct (Z.ltb_spec (Z.of_nat (length p)) min_tree_depth); [apply IH | lia].
Qed.

(** X26.  When every taxon is in the tree but closer to the root than
    [min_tree_depth], the depth filter leaves nothing and [lca_star] returns
    the literal "root" with p-value 1, whatever the threshold. *)
Theorem lca_star_all_shallow tree fuel taxa ps min_tree_depth
    majority_threshold :
  walks_of tree taxa ps ->
  Forall (fun p => length p < fuel) ps ->
  Forall (fun p => (Z.of_nat (length p) < min_tree_depth)%Z) ps ->
  lca_star fuel tree taxa min_tree_depth majority_threshold
  = Ok (inr ("root", P_one)).
Proof.
  intros Hw Hfuel Hshallow.
  rewrite (lca_star_unfold _ _ _ _ _ _
             (filter_taxonomy_list_present tree fuel taxa ps min_tree_depth
                Hw Hfuel)).
  rewrite (deep_enough_none _ _ _ Hshallow). reflexivity.
Qed.

Lemma lca_star_all_shallow_witness :
  lca_star 10 example_tree ["Bacteria"; "Archaea"] 3 (1 # 2)
  = Ok (inr ("root", P_one)).
Proof.
  apply (lca_star_all_shallow example_tree 10 ["Bacteria"; "Archaea"]
           [["2"]; ["2157"]] 3 (1 # 2)).
  - constructor; [|constructor; [|constructor]].
    + exists (mkNode "Bacteria" "2" "1"). split; [reflexivity|].
      apply example_walk_bacteria.
    + exists (mkNode "Archaea" "2157" "1"). split; [reflexivity|].
      apply (path_step _ "2157" (mkNode "Archaea" "2157" "1"));
        [discriminate | reflexivity | apply path_root].
  - repeat constructor; cbn [length]; lia.
  - repeat constructor; cbn [length]; lia.
Defined.

(** ** No [KeyError] *)

Lemma bind_Ok_inv {A} (m : outcome A) {B} (k : A -> outcome B) b :
  bind m k = Ok b -> exists a, m = Ok a /\ k a = Ok b.
Proof. destruct m as [a| |]; cbn [bind]; [eauto | discriminate..]. Qed.

Lemma lca_majority_collect_keys fuel tree taxa :
  forall lineage_counts lineages lineage_counts' lineages',
    lca_majority_collect fuel tree taxa lineage_counts lineages
    = Ok (lineage_counts', lineages') ->
    (forall k, is_Some (dict_get lineages k) -> is_Some (dict_get lineages' k))
    /\ forall taxon,
         taxon ∈ taxa ->
         exists node lin,
           tree !! taxon = Some node
           /\ dict_get lineages' (node_id node) = Some lin.
Proof.
  induction taxa as [|taxon taxa IH];
    intros lineage_counts lineages lineage_counts' lineages' Hrun.
  - cbn [lca_majority_collect] in Hrun. injection Hrun as <- <-.
    split; [auto|]. intros taxon Hin. apply elem_of_nil in Hin. destruct Hin.
  - cbn [lca_majority_collect] in Hrun.
    apply bind_Ok_inv in Hrun as (lineage & _ & Hrun).
    destruct (tree !! taxon) as [node|] eqn:Hnode; [|discriminate].
    apply IH in Hrun as [Hkeep Htaxa].
    assert (is_Some (dict_get lineages' (node_id node))) as [lin Hlin].
    { apply Hkeep. rewrite dict_get_set.
      destruct (decide (node_id node = node_id node)); [eauto | congruence]. }
    split.
    + intros k Hk. apply Hkeep. rewrite dict_get_set.
      destruct (decide (k = node_id node)); [eauto | exact Hk].
    + intros taxon' Hin. apply elem_of_cons in Hin as [->|Hin].
      * exists node, lin. auto.
      * apply Htaxa, Hin.
Qed.

Lemma lca_star_aggregate_outcome tree kept lineages id :
  (forall taxon,
     taxon ∈ kept ->
     exists node lin,
       tree !! taxon = Some node
       /\ dict_get lineages (node_id node) = Some lin) ->
  exists aggregate,
    counts_to_majority_list tree (Counter.of_list kept) lineages id
    = Ok (inr aggregate).
Proof.
  intros Hkeys.
  destruct (counts_to_majority_list_spec tree (Counter.of_list kept)
              lineages id) as (aggregate & Hrun & _); [|eauto].
  intros taxon n Hentry. apply Hkeys.
  apply (counter_of_list_entry kept taxon n Hentry).
Qed.

(** X27.  [lca_star] never fails with the [KeyError] of
    [lineages[taxonomy_id]] in [counts_to_majority_list], on any tree and any
    list: the lineages come from [lca_majority] on the same list, which stores
    one under the node id of every taxon it gets through.  A call returns a
    taxonomy and a p-value, raises one of the other exceptions, or does not
    finish within the fuel. *)
Theorem lca_star_no_key_error fuel tree taxa min_tree_depth majority_threshold :
  (exists taxonomy p,
     lca_star fuel tree taxa min_tree_depth majority_threshold
     = Ok (inr (taxonomy, p)))
  \/ (exists e,
        lca_star fuel tree taxa min_tree_depth majority_threshold = Raise e)
  \/ lca_star fuel tree taxa min_tree_depth majority_threshold = OutOfFuel.
Proof.
  unfold lca_star.
  destruct (filter_taxonomy_list fuel tree taxa min_tree_depth)
    as [kept|e|]; cbn [bind]; [|right; left; eauto | right; right; reflexivity].
  destruct kept as [|taxon0 kept0]; [left; eauto|].
  set (kept := taxon0 :: kept0). cbv zeta.
  destruct (Counter.most_common (Counter.of_list kept))
    as [|[majority top_count] rest]; [right; left; eauto|].
  destruct (Qlt_bool _ (Q_of_nat top_count)).
  - destruct (nettleton_pvalue kept majority) as [p|e|]; cbn [bind];
      [left; eauto | right; left; eauto | right; right; reflexivity].
  - unfold lca_majority.
    destruct (lca_majority_collect fuel tree kept [] [])
      as [[lineage_counts lineages]|e|] eqn:Hrun; cbn [bind];
      [|right; left; eauto | right; right; reflexivity].
    apply lca_majority_collect_keys in Hrun as [_ Hkeys].
    cbn [fst snd].
    destruct (first_above _ _ _) as [id|]; cbn [bind fst snd].
    + destruct (lca_star_aggregate_outcome tree kept lineages id Hkeys)
        as [aggregate ->]. cbn [bind].
      destruct (nettleton_pvalue aggregate id) as [p|e|]; cbn [bind];
        [left; eauto | right; left; eauto | right; right; reflexivity].
    + destruct (lca_star_aggregate_outcome tree kept lineages "1" Hkeys)
        as [aggregate ->]. cbn [bind].
      destruct (nettleton_pvalue aggregate "1") as [p|e|]; cbn [bind];
        [left; eauto | right; left; eauto | right; right; reflexivity].
Qed.

(** ** The aggregated counts *)

Lemma sum_list_cons (n : nat) (l : list nat) :
  sum_list (n :: l) = n + sum_list l.
Proof. reflexivity. Qed.

Lemma counter_incr_weighted (f : string -> nat) k c :
  sum_list ((fun e => snd e * f (fst e)) <$> Counter.incr k c)
  = sum_list ((fun e => snd e * f (fst e)) <$> c) + f k.
Proof.
  induction c as [|[k' n] c IH]; cbn [Counter.incr].
  - rewrite fmap_cons, sum_list_cons. cbn. lia.
  - destruct (String.eqb_spec k k') as [->|Hne];
      rewrite !fmap_cons, !sum_list_cons; cbn [fst snd].
    + lia.
    + rewrite IH. lia.
Qed.

Lemma counter_fold_weighted (f : string -> nat) l c :
  sum_list ((fun e => snd e * f (fst e))
              <$> fold_left (fun c k => Counter.incr k c) l c)
  = sum_list ((fun e => snd e * f (fst e)) <$> c) + sum_list (f <$> l).
Proof.
  revert c. induction l as [|x l IH]; intros c; cbn [fold_left].
  - cbn. lia.
  - rewrite IH, counter_incr_weighted, fmap_cons, sum_list_cons. lia.
Qed.

(** Summing, over the entries of [Counter(items)], the count times a weight
    of the key is summing the weight over the items. *)
Lemma counter_of_list_weighted (f : string -> nat) items :
  sum_list ((fun e => snd e * f (fst e)) <$> Counter.of_list items)
  = sum_list (f <$> items).
Proof. unfold Counter.of_list. rewrite counter_fold_weighted. reflexivity. Qed.

Lemma counter_of_list_total items :
  sum_list (Counter.of_list items).*2 = length items.
Proof.
  pose proof (counter_of_list_weighted (fun _ => 1) items) as Hsum.
  assert (forall l : list string, sum_list ((fun _ => 1) <$> l) = length l)
    as Hones.
  { induction l as [|x l IH]; [reflexivity|].
    rewrite fmap_cons, sum_list_cons, IH. reflexivity. }
  rewrite Hones in Hsum. rewrite <- Hsum.
  generalize (Counter.of_list items). intros c.
  induction c as [|[k n] c IH]; [reflexivity|].
  rewrite !fmap_cons, !sum_list_cons, IH. cbn [fst snd]. lia.
Qed.

Lemma count_replicate (x y : string) n :
  length (filter (fun z => z = y) (replicate n x))
  = if decide (x = y) then n else 0.
Proof.
  induction n as [|n IH]; cbn [replicate].
  - destruct (decide (x = y)); reflexivity.
  - rewrite filter_cons. destruct (decide (x = y)); cbn [length]; lia.
Qed.

Lemma lineage_of_self tree taxon node lin :
  tree !! taxon = Some node -> lineage_of tree taxon lin -> node_id node ∈ lin.
Proof.
  intros Hnode (node' & p & Hnode' & Hpath & ->).
  rewrite Hnode in Hnode'. injection Hnode' as <-.
  destruct (decide (node_id node = "1")) as [->|Hne]; [apply list_elem_of_here|].
  destruct (path_head tree _ _ Hpath Hne) as [p' ->].
  apply list_elem_of_further, elem_of_reverse, list_elem_of_here.
Qed.

(** How often [majority_id] is in the aggregated list: once per counted
    observation of a taxon whose lineage holds it. *)
Lemma counts_to_majority_list_count tree taxonomy_counts lineages majority_id
    aggregate (on_lineage : string -> nat) :
  (forall taxon n,
     (taxon, n) ∈ taxonomy_counts ->
     exists node lin,
       tree !! taxon = Some node
       /\ dict_get lineages (node_id node) = Some lin
       /\ node_id node ∈ lin
       /\ on_lineage taxon = if decide (majority_id ∈ lin) then 1 else 0) ->
  counts_to_majority_list tree taxonomy_counts lineages majority_id
  = Ok (inr aggregate) ->
  length (filter (fun x => x = majority_id) aggregate)
  = sum_list ((fun e => snd e * on_lineage (fst e)) <$> taxonomy_counts).
Proof.
  revert aggregate.
  induction taxonomy_counts as [|[taxon n] rest IH]; intros aggregate Hall Hrun.
  - cbn [counts_to_majority_list] in Hrun. injection Hrun as <-. reflexivity.
  - destruct (Hall taxon n (list_elem_of_here (taxon, n) rest))
      as (node & lin & Hnode & Hget & Hself & Hon).
    cbn [counts_to_majority_list] in Hrun. rewrite Hnode, Hget in Hrun.
    destruct (counts_to_majority_list tree rest lineages majority_id)
      as [[e|more]| |]; cbn [bind] in Hrun; try discriminate.
    injection Hrun as <-.
    rewrite filter_app, length_app, count_replicate.
    rewrite (IH more); [|intros taxon' n' Hin;
                         apply (Hall taxon' n'), list_elem_of_further, Hin
                        |reflexivity].
    rewrite fmap_cons, sum_list_cons. cbn [fst snd].
    rewrite Hon. f_equal.
    destruct (bool_decide_reflect (majority_id ∈ lin)) as [Hmem|Hmem].
    + rewrite decide_True by reflexivity.
      rewrite decide_True by exact Hmem. lia.
    + rewrite (decide_False (P := majority_id ∈ lin)) by exact Hmem.
      rewrite decide_False; [lia|]. intros Heq. apply Hmem.
      rewrite <- Heq. exact Hself.
Qed.

Lemma occurrences_weighted (on_lineage : string -> nat) y taxa lins :
  Forall2 (fun taxon lin =>
             on_lineage taxon = if decide (y ∈ lin) then 1 else 0) taxa lins ->
  occurrences y lins = sum_list (on_lineage <$> taxa).
Proof.
  unfold occurrences.
  induction 1 as [|taxon lin taxa lins Hon _ IH]; [reflexivity|].
  rewrite filter_cons, fmap_cons, sum_list_cons, Hon, <- IH.
  destruct (decide (y ∈ lin)); reflexivity.
Qed.

Lemma Forall2_impl_elem_of {A B} (P Q : A -> B -> Prop) l k :
  Forall2 P l k -> (forall x y, x ∈ l -> P x y -> Q x y) -> Forall2 Q l k.
Proof.
  induction 1 as [|x y l k HP _ IH]; intros Himpl; constructor.
  - apply Himpl; [apply list_elem_of_here | exact HP].
  - apply IH. intros x' y' Hin. apply Himpl, list_elem_of_further, Hin.
Qed.

(** X28.  [counts_to_majority_list] on the counts of a list of taxa and the
    lineages that [lca_majority] returns for that list: for any
    [majority_id] it returns a list with one entry per taxon of the list
    (repetitions counted), in which [majority_id] occurs exactly as often as
    there are taxa whose lineage holds it.  So the count that
    [nettleton_pvalue] sees for the id chosen by [lca_majority] is the count
    [lca_majority] chose it by. *)
Theorem counts_to_majority_list_lineage_count tree fuel taxa lins
    majority_cutoff :
  Forall2 (lineage_of tree) taxa lins ->
  Forall (fun lin => length lin <= fuel) lins ->
  exists id lineages,
    lca_majority fuel tree taxa majority_cutoff = Ok (id, lineages)
    /\ forall majority_id,
         exists aggregate,
           counts_to_majority_list tree (Counter.of_list taxa) lineages
             majority_id = Ok (inr aggregate)
           /\ length aggregate = length taxa
           /\ length (filter (fun x => x = majority_id) aggregate)
              = occurrences majority_id lins.
Proof.
  intros Hlins Hfuel.
  destruct (lca_majority_result tree fuel taxa lins majority_cutoff Hlins Hfuel)
    as (id & lineages & Hrun & Hfound & _).
  exists id, lineages. split; [exact Hrun|]. intros majority_id.
  set (on_lineage := fun taxon =>
         match tree !! taxon with
         | Some node =>
             match dict_get lineages (node_id node) with
             | Some lin => if decide (majority_id ∈ lin) then 1 else 0
             | None => 0
             end
         | None => 0
         end).
  assert (forall taxon lin,
            taxon ∈ taxa -> lineage_of tree taxon lin ->
            exists node,
              tree !! taxon = Some node
              /\ dict_get lineages (node_id node) = Some lin
              /\ node_id node ∈ lin
              /\ on_lineage taxon = if decide (majority_id ∈ lin) then 1 else 0)
    as Hentry.
  { intros taxon lin Hin Hof.
    destruct (Hfound taxon lin Hin Hof) as (node & Hnode & Hget).
    exists node. split; [exact Hnode|]. split; [exact Hget|].
    split; [apply (lineage_of_self tree taxon node lin Hnode Hof)|].
    unfold on_lineage. rewrite Hnode, Hget. reflexivity. }
  destruct (counts_to_majority_list_spec tree (Counter.of_list taxa)
              lineages majority_id) as (aggregate & Hagg & Hlen & _).
  { intros taxon n Hin. apply counter_of_list_entry in Hin as [Hin _].
    destruct (Forall2_elem_of_l _ _ _ taxon Hlins Hin) as (lin & _ & Hof).
    destruct (Hentry taxon lin Hin Hof) as (node & Hnode & Hget & _).
    exists node, lin. auto. }
  exists aggregate. split; [exact Hagg|].
  split; [rewrite Hlen; apply counter_of_list_total|].
  rewrite (counts_to_majority_list_count tree (Counter.of_list taxa) lineages
             majority_id aggregate on_lineage); [| |exact Hagg].
  - rewrite counter_of_list_weighted. symmetry.
    apply occurrences_weighted.
    apply (Forall2_impl_elem_of _ _ _ _ Hlins). intros taxon lin Hin Hof.
    destruct (Hentry taxon lin Hin Hof) as (node & _ & _ & _ & Hon).
    exact Hon.
  - intros taxon n Hin. apply counter_of_list_entry in Hin as [Hin _].
    destruct (Forall2_elem_of_l _ _ _ taxon Hlins Hin) as (lin & _ & Hof).
    destruct (Hentry taxon lin Hin Hof) as (node & Hnode & Hget & Hself & Hon).
    exists node, lin. auto.
Qed.

Lemma counts_to_majority_list_lineage_count_witness :
  exists id lineages aggregate,
    lca_majority 10 example_tree ["1236"; "Alphaproteobacteria"; "Bacteria"]
      (3 # 2)
    = Ok (id, lineages)
    /\ counts_to_majority_list example_tree
         (Counter.of_list ["1236"; "Alphaproteobacteria"; "Bacteria"])
         lineages "1224"
       = Ok (inr aggregate)
    /\ length aggregate = 3
    /\ length (filter (fun x => x = "1224") aggregate) = 2.
Proof.
  destruct (counts_to_majority_list_lineage_count example_tree 10
              ["1236"; "Alphaproteobacteria"; "Bacteria"]
              [["1"; "2"; "1224"; "1236"]; ["1"; "2"; "1224"; "28211"];
               ["1"; "2"]]
              (3 # 2) example_lineages example_lineages_fuel)
    as (id & lineages & Hrun & Hagg).
  destruct (Hagg "1224") as (aggregate & Hlist & Hlen & Hcount).
  exists id, lineages, aggregate. auto.
Defined.

(** * The NCBI map *)

Lemma ncbi_line_fields m line t0 t1 rest :
  split tab (strip line) = t0 :: t1 :: rest ->
  ncbi_line m line = Ok (<[t0 := t1]> m).
Proof. intros Htoks. unfold ncbi_line. rewrite Htoks. reflexivity. Qed.

Lemma ncbi_line_short m line :
  length (split tab (strip line)) < 2 -> ncbi_line m line = Raise IndexError.
Proof.
  intros Hlen. unfold ncbi_line.
  destruct (split tab (strip line)) as [|t0 [|t1 rest]];
    [reflexivity | reflexivity | cbn [length] in Hlen; lia].
Qed.

Lemma two_fields line :
  2 <= length (split tab (strip line)) ->
  exists t0 t1 rest, split tab (strip line) = t0 :: t1 :: rest.
Proof.
  destruct (split tab (strip line)) as [|t0 [|t1 rest]]; cbn [length];
    [lia | lia | eauto].
Qed.

Lemma ncbi_lines_last_wins lines :
  Forall (fun line => 2 <= length (split tab (strip line))) lines ->
  forall m,
  exists m',
    ncbi_lines m lines = Ok m'
    /\ forall k v,
         m' !! k = Some v
         <-> (exists before line after rest,
                lines = before ++ line :: after
                /\ split tab (strip line) = k :: v :: rest
                /\ Forall (fun line' =>
                             head (split tab (strip line')) <> Some k) after)
             \/ (Forall (fun line' =>
                           head (split tab (strip line')) <> Some k) lines
                 /\ m !! k = Some v).
Proof.
  induction 1 as [|line lines Hline _ IH]; intros m.
  - exists m. split; [reflexivity|]. intros k v. split.
    + intros Hget. right. split; [constructor | exact Hget].
    + intros [(before & line & after & rest & Heq & _)|[_ Hget]];
        [|exact Hget].
      destruct before; discriminate.
  - destruct (two_fields line Hline) as (t0 & t1 & rest & Htoks).
    destruct (IH (<[t0 := t1]> m)) as (m' & Hrun & Hspec).
    exists m'. cbn [ncbi_lines].
    rewrite (ncbi_line_fields m line t0 t1 rest Htoks). cbn [bind].
    split; [exact Hrun|]. intros k v. rewrite Hspec. split.
    + intros [(before & line' & after & rest' & -> & Htoks' & Hafter)
             |[Hnone Hget]].
      * left. exists (line :: before), line', after, rest'. auto.
      * destruct (decide (t0 = k)) as [->|Hne].
        -- rewrite lookup_insert_eq in Hget. injection Hget as ->.
           left. exists [], line, lines, rest. auto.
        -- rewrite lookup_insert_ne in Hget by exact Hne.
           right. split; [|exact Hget].
           constructor; [|exact Hnone]. rewrite Htoks. cbn. congruence.
    + intros [(before & line' & after & rest' & Heq & Htoks' & Hafter)
             |[Hnone Hget]].
      * destruct before as [|line0 before]; cbn [app] in Heq;
          injection Heq as <- ->.
        -- right. split; [exact Hafter|].
           rewrite Htoks in Htoks'. injection Htoks' as -> -> _.
           apply lookup_insert_eq.
        -- left. exists before, line', after, rest'. auto.
      * apply Forall_cons in Hnone as [Hhead Hnone].
        right. split; [exact Hnone|].
        rewrite Htoks in Hhead. cbn in Hhead.
        rewrite lookup_insert_ne by congruence. exact Hget.
Qed.

(** X29.  On lines that all have at least two tab-separated fields,
    [parse_ncbi_map] returns a map in which an id resolves to the second field
    of the last line whose first field is that id, and to nothing when no line
    starts with it: a later line for an id replaces an earlier one, and fields
    after the second are ignored. *)
Theorem parse_ncbi_map_last_wins lines :
  Forall (fun line => 2 <= length (split tab (strip line))) lines ->
  exists m,
    parse_ncbi_map lines = Ok m
    /\ forall k v,
         m !! k = Some v
         <-> exists before line after rest,
               lines = before ++ line :: after
               /\ split tab (strip line) = k :: v :: rest
               /\ Forall (fun line' =>
                            head (split tab (strip line')) <> Some k) after.
Proof.
  intros Hlines.
  destruct (ncbi_lines_last_wins lines Hlines ∅) as (m & Hrun & Hspec).
  exists m. split; [exact Hrun|]. intros k v. rewrite Hspec. split.
  - intros [Hfound|[_ Hget]]; [exact Hfound|].
    rewrite lookup_empty in Hget. discriminate.
  - intros Hfound. left. exact Hfound.
Qed.

Lemma parse_ncbi_map_last_wins_witness :
  exists m,
    parse_ncbi_map [tsv ["2"; "Bacteria"; "-1"; "0"]; tsv ["6"; "Azorhizobium"];
                    tsv ["2"; "Eubacteria"]]
    = Ok m
    /\ m !! "2" = Some "Eubacteria".
Proof.
  destruct (parse_ncbi_map_last_wins
              [tsv ["2"; "Bacteria"; "-1"; "0"]; tsv ["6"; "Azorhizobium"];
               tsv ["2"; "Eubacteria"]]) as (m & Hrun & Hspec).
  - repeat constructor.
  - exists m. split; [exact Hrun|]. apply Hspec.
    exists [tsv ["2"; "Bacteria"; "-1"; "0"]; tsv ["6"; "Azorhizobium"]],
      (tsv ["2"; "Eubacteria"]), [], [].
    split; [reflexivity|]. split; [reflexivity | constructor].
Defined.

(** X30.  A line without a tab (a blank line, or a line whose columns are
    separated by spaces) makes [parse_ncbi_map] fail with [IndexError] when it
    is reached: nothing is returned for the lines before it, and the lines
    after it are not read. *)
Theorem parse_ncbi_map_short_line before line after :
  Forall (fun line' => 2 <= length (split tab (strip line'))) before ->
  length (split tab (strip line)) < 2 ->
  parse_ncbi_map (before ++ line :: after) = Raise IndexError.
Proof.
  intros Hbefore Hshort. unfold parse_ncbi_map. generalize (∅ : gmap string string).
  induction Hbefore as [|line' before Hline _ IH]; intros m; cbn [app ncbi_lines].
  - rewrite (ncbi_line_short m line Hshort). reflexivity.
  - destruct (two_fields line' Hline) as (t0 & t1 & rest & Htoks).
    rewrite (ncbi_line_fields m line' t0 t1 rest Htoks). cbn [bind]. apply IH.
Qed.

Lemma parse_ncbi_map_short_line_witness :
  parse_ncbi_map [tsv ["1"; "root"; "-1"; "0"]; ""] = Raise IndexError
  /\ parse_ncbi_map ["6  Azorhizobium  -1  98"] = Raise IndexError.
Proof.
  split.
  - apply (parse_ncbi_map_short_line [tsv ["1"; "root"; "-1"; "0"]] "" []).
    + repeat constructor.
    + apply Nat.ltb_lt. reflexivity.
  - apply (parse_ncbi_map_short_line [] "6  Azorhizobium  -1  98" []).
    + constructor.
    + apply Nat.ltb_lt. reflexivity.
Defined.
